(** * UploadJobImpl: multipart assembly and the token-gated retry state machine

    A shallow embedding of
    [chrome/browser/chromeos/policy/upload_job_impl.cc].

    Conventions of the embedding:
    - [std::string] is a sequence of 8-bit characters, [list ascii];
    - [std::map<std::string, std::string>] is what [insert] makes of the
      empty map, iterated by strictly increasing key ([StdMap]);
    - [std::set<std::string>] is a [gset];
    - the job's members form the record [UploadJobImpl]; the collaborators
      (token service, URL fetcher, task runner, delegate, boundary
      generator) are observed through the calls the job makes on them,
      recorded in order in the [trace] of a [World];
    - every method is a total function on [World]; callbacks and delayed
      tasks are delivered by the environment ([step], [run]);
    - [DCHECK]s are compiled out, as in an official build; the [if] guards
      next to them are modelled as written, and what the assertions ask is
      stated apart ([dchecks]);
    - [CHROMEOS_SYSLOG] output, and the size estimate of [SetUpMultipart]
      that only feeds [reserve] and a warning, change neither the job nor
      its collaborators and are left out of the methods; the estimate and
      the condition of the warning are modelled apart ([estimate_size],
      [reallocation_warning]). *)

From Stdlib Require Import ZArith List Ascii String Bool Lia Sorted.
From stdpp Require Import base gmap strings list.
Import ListNotations.

Local Open Scope Z_scope.

(** ** Strings *)

Abbreviation str := (list ascii).

Definition lit (s : string) : str := list_ascii_of_string s.

Definition CR : ascii := "013"%char.
Definition LF : ascii := "010"%char.
Definition DQUOTE : ascii := "034"%char.
Definition NUL : ascii := "000"%char.
Definition COLON : ascii := ":"%char.
Definition SP : ascii := " "%char.
Definition HTAB : ascii := "009"%char.
Definition BACKSLASH : ascii := "092"%char.
Definition SEMICOLON : ascii := ";"%char.
Definition EQUALS : ascii := "="%char.

Definition CRLF : str := [CR; LF].

(** [std::string::operator<]: lexicographic comparison of the characters
    taken as unsigned values; a proper prefix is smaller. *)
Fixpoint str_ltb (a b : str) : bool :=
  match a, b with
  | _, [] => false
  | [], _ :: _ => true
  | x :: a', y :: b' =>
      if (N_of_ascii x <? N_of_ascii y)%N then true
      else if (N_of_ascii x =? N_of_ascii y)%N then str_ltb a' b'
      else false
  end.

(** [std::string::c_str()] read back as a C string by [StringPrintf]'s
    [%s]: the characters up to the first NUL. *)
Fixpoint c_str (s : str) : str :=
  match s with
  | [] => []
  | c :: s' => if bool_decide (c = NUL) then [] else c :: c_str s'
  end.

(** ** [std::map<std::string, std::string>] *)

Module StdMap.

(** The entries of a map in the order of its iteration. *)
Abbreviation entries := (list (str * str)).

(** What [std::map::insert] does to the entries: the new one is placed at
    its position in key order; when the key is already present the entries
    are left as they are. *)
Fixpoint insert_entry (k v : str) (m : entries) : entries :=
  match m with
  | [] => [(k, v)]
  | (k', v') :: m' =>
      if str_ltb k k' then (k, v) :: m
      else if str_ltb k' k then (k', v') :: insert_entry k v m'
      else m
  end.

(** A map: what calls of [insert] have made of the empty map. Every state
    of a [std::map] is reached in this way, whatever operations built
    it. *)
Inductive t :=
| empty
| insert (k v : str) (m : t).

(** Iteration from [begin()] to [end()]. *)
Fixpoint iterate (m : t) : entries :=
  match m with
  | empty => []
  | insert k v m' => insert_entry k v (iterate m')
  end.

(** The map of a list of insertions, in the order of the list. *)
Definition of_list (insertions : list (str * str)) : t :=
  fold_left (fun m e => insert e.1 e.2 m) insertions empty.

Fixpoint find_entry (k : str) (m : entries) : option str :=
  match m with
  | [] => None
  | (k', v') :: m' => if bool_decide (k = k') then Some v' else find_entry k m'
  end.

(** [std::map::find] *)
Definition find (k : str) (m : t) : option str := find_entry k (iterate m).

(** Keys strictly increasing. *)
Fixpoint wf (m : entries) : bool :=
  match m with
  | [] => true
  | (k, _) :: m' =>
      match m' with
      | [] => true
      | (k', _) :: _ => str_ltb k k' && wf m'
      end
  end.

End StdMap.

(** ** [DataSegment] *)

Record DataSegment := {
  name_ : str;
  filename_ : str;
  data_ : str;
  header_entries_ : StdMap.t;
}.

Definition GetHeaderEntries (s : DataSegment) : StdMap.t := header_entries_ s.
Definition GetName (s : DataSegment) : str := name_ s.
Definition GetFilename (s : DataSegment) : str := filename_ s.
Definition GetData (s : DataSegment) : str := data_ s.

(** ** Declarations of the header and of included headers *)

(** Modelled from the spec: the enum [UploadJobImpl::State] of
    upload_job_impl.h, which is not among the sources; the enumerators are
    those the implementation file uses. *)
Inductive State :=
| IDLE | ACQUIRING_TOKEN | PREPARING_CONTENT | UPLOADING | SUCCESS | ERROR.

(** Modelled from the spec: the enum [UploadJob::ErrorCode] of upload_job.h,
    which is not among the sources. *)
Inductive ErrorCode := NETWORK_ERROR | AUTHENTICATION_ERROR | SERVER_ERROR.

(** Modelled from the spec: [net::HTTP_OK] and [net::HTTP_UNAUTHORIZED] of
    net/http/http_status_code.h, which is not among the sources. *)
Definition HTTP_OK : Z := 200.
Definition HTTP_UNAUTHORIZED : Z := 401.

(** The only OAuth scope the job asks for; its text
    ([GaiaConstants::kDeviceManagementServiceOAuth]) plays no role. *)
Inductive Scope := kDeviceManagementServiceOAuth.

Global Instance State_eq_dec : EqDecision State.
Proof. solve_decision. Defined.
Global Instance ErrorCode_eq_dec : EqDecision ErrorCode.
Proof. solve_decision. Defined.

Definition kAuthorizationHeaderFormat (token : str) : str :=
  lit "Authorization: Bearer " ++ c_str token.
Definition kUploadContentType : str := lit "multipart/form-data".
Definition kMaxAttempts : Z := 4.
Definition default_retry_delay_ms : Z := 25000.

(** ** Collaborators *)

Record GURL := { spec : str; is_valid : bool }.

Record TokenRequest := { req_account_id : str; req_scope_set : list Scope }.

Inductive RequestType := POST.

Record URLFetcher := {
  fetch_url : GURL;
  fetch_type : RequestType;
  upload_content_type : str;
  upload_content : str;
  extra_request_headers : list str;
}.

(** The two member functions the job binds into delayed tasks. *)
Inductive Task := TaskRequestAccessToken | TaskStartUpload.

(** A call of the job on one of its collaborators. *)
Inductive Call :=
| TokenService_StartRequest (account_id : str) (scope_set : list Scope)
| TokenService_InvalidateAccessToken
    (account_id : str) (scope_set : list Scope) (access_token : str)
| URLFetcher_Start (fetcher : URLFetcher)
| TaskRunner_PostDelayedTask (task : Task) (delay_ms : Z)
| Delegate_OnSuccess
| Delegate_OnFailure (error_code : ErrorCode)
| BoundaryGenerator_GenerateBoundary.

(** ** The job *)

Record UploadJobImpl := {
  upload_url_ : GURL;
  account_id_ : str;
  state_ : State;
  retry_ : Z;
  access_token_request_ : option TokenRequest;
  access_token_ : str;
  upload_fetcher_ : option URLFetcher;
  mime_boundary_ : option str;
  post_data_ : option str;
  data_segments_ : list DataSegment;
}.

(** The job with what surrounds it: the calls made so far, the delayed
    tasks posted and not yet run, the boundary generator (the boundary its
    n-th call returns) with the number of calls made, and the global
    [g_retry_delay_ms]. *)
Record World := {
  job : UploadJobImpl;
  trace : list Call;
  tasks : list (Task * Z);
  boundary_generator_ : nat -> str;
  boundaries_generated : nat;
  g_retry_delay_ms : Z;
}.

Definition set_state (s : State) (j : UploadJobImpl) : UploadJobImpl :=
  {| upload_url_ := upload_url_ j; account_id_ := account_id_ j;
     state_ := s; retry_ := retry_ j;
     access_token_request_ := access_token_request_ j;
     access_token_ := access_token_ j; upload_fetcher_ := upload_fetcher_ j;
     mime_boundary_ := mime_boundary_ j; post_data_ := post_data_ j;
     data_segments_ := data_segments_ j |}.

Definition set_retry (r : Z) (j : UploadJobImpl) : UploadJobImpl :=
  {| upload_url_ := upload_url_ j; account_id_ := account_id_ j;
     state_ := state_ j; retry_ := r;
     access_token_request_ := access_token_request_ j;
     access_token_ := access_token_ j; upload_fetcher_ := upload_fetcher_ j;
     mime_boundary_ := mime_boundary_ j; post_data_ := post_data_ j;
     data_segments_ := data_segments_ j |}.

Definition set_access_token_request (r : option TokenRequest)
    (j : UploadJobImpl) : UploadJobImpl :=
  {| upload_url_ := upload_url_ j; account_id_ := account_id_ j;
     state_ := state_ j; retry_ := retry_ j;
     access_token_request_ := r;
     access_token_ := access_token_ j; upload_fetcher_ := upload_fetcher_ j;
     mime_boundary_ := mime_boundary_ j; post_data_ := post_data_ j;
     data_segments_ := data_segments_ j |}.

Definition set_access_token (t : str) (j : UploadJobImpl) : UploadJobImpl :=
  {| upload_url_ := upload_url_ j; account_id_ := account_id_ j;
     state_ := state_ j; retry_ := retry_ j;
     access_token_request_ := access_token_request_ j;
     access_token_ := t; upload_fetcher_ := upload_fetcher_ j;
     mime_boundary_ := mime_boundary_ j; post_data_ := post_data_ j;
     data_segments_ := data_segments_ j |}.

Definition set_upload_fetcher (f : option URLFetcher)
    (j : UploadJobImpl) : UploadJobImpl :=
  {| upload_url_ := upload_url_ j; account_id_ := account_id_ j;
     state_ := state_ j; retry_ := retry_ j;
     access_token_request_ := access_token_request_ j;
     access_token_ := access_token_ j; upload_fetcher_ := f;
     mime_boundary_ := mime_boundary_ j; post_data_ := post_data_ j;
     data_segments_ := data_segments_ j |}.

Definition set_mime_boundary (b : option str)
    (j : UploadJobImpl) : UploadJobImpl :=
  {| upload_url_ := upload_url_ j; account_id_ := account_id_ j;
     state_ := state_ j; retry_ := retry_ j;
     access_token_request_ := access_token_request_ j;
     access_token_ := access_token_ j; upload_fetcher_ := upload_fetcher_ j;
     mime_boundary_ := b; post_data_ := post_data_ j;
     data_segments_ := data_segments_ j |}.

Definition set_post_data (d : option str)
    (j : UploadJobImpl) : UploadJobImpl :=
  {| upload_url_ := upload_url_ j; account_id_ := account_id_ j;
     state_ := state_ j; retry_ := retry_ j;
     access_token_request_ := access_token_request_ j;
     access_token_ := access_token_ j; upload_fetcher_ := upload_fetcher_ j;
     mime_boundary_ := mime_boundary_ j; post_data_ := d;
     data_segments_ := data_segments_ j |}.

Definition set_data_segments (l : list DataSegment)
    (j : UploadJobImpl) : UploadJobImpl :=
  {| upload_url_ := upload_url_ j; account_id_ := account_id_ j;
     state_ := state_ j; retry_ := retry_ j;
     access_token_request_ := access_token_request_ j;
     access_token_ := access_token_ j; upload_fetcher_ := upload_fetcher_ j;
     mime_boundary_ := mime_boundary_ j; post_data_ := post_data_ j;
     data_segments_ := l |}.

(** [this->member = ...] *)
Definition on_job (f : UploadJobImpl -> UploadJobImpl) (w : World) : World :=
  {| job := f (job w); trace := trace w; tasks := tasks w;
     boundary_generator_ := boundary_generator_ w;
     boundaries_generated := boundaries_generated w;
     g_retry_delay_ms := g_retry_delay_ms w |}.

(** A call on a collaborator, appended to the trace. *)
Definition call (c : Call) (w : World) : World :=
  {| job := job w; trace := trace w ++ [c]; tasks := tasks w;
     boundary_generator_ := boundary_generator_ w;
     boundaries_generated := boundaries_generated w;
     g_retry_delay_ms := g_retry_delay_ms w |}.

Definition set_tasks (ts : list (Task * Z)) (w : World) : World :=
  {| job := job w; trace := trace w; tasks := ts;
     boundary_generator_ := boundary_generator_ w;
     boundaries_generated := boundaries_generated w;
     g_retry_delay_ms := g_retry_delay_ms w |}.

(** [task_runner_->PostDelayedTask(FROM_HERE, base::Bind(task, weak), delay)] *)
Definition PostDelayedTask (t : Task) (delay_ms : Z) (w : World) : World :=
  set_tasks (tasks w ++ [(t, delay_ms)])
            (call (TaskRunner_PostDelayedTask t delay_ms) w).

(** [boundary_generator_->GenerateBoundary()] *)
Definition GenerateBoundary (w : World) : str * World :=
  (boundary_generator_ w (boundaries_generated w),
   {| job := job w;
      trace := trace w ++ [BoundaryGenerator_GenerateBoundary];
      tasks := tasks w;
      boundary_generator_ := boundary_generator_ w;
      boundaries_generated := S (boundaries_generated w);
      g_retry_delay_ms := g_retry_delay_ms w |}).

(** ** Construction and the public interface *)

(** The constructor: [state_(IDLE)], [retry_(0)], and [state_ = ERROR] for
    an invalid URL. *)
Definition UploadJobImpl_ctor (upload_url : GURL) (account_id : str)
    : UploadJobImpl :=
  let j := {| upload_url_ := upload_url; account_id_ := account_id;
              state_ := IDLE; retry_ := 0;
              access_token_request_ := None; access_token_ := [];
              upload_fetcher_ := None;
              mime_boundary_ := None; post_data_ := None;
              data_segments_ := [] |} in
  if negb (is_valid (upload_url_ j)) then set_state ERROR j else j.

(** A freshly constructed job in its surroundings. *)
Definition new_world (upload_url : GURL) (account_id : str)
    (boundary_generator : nat -> str) : World :=
  {| job := UploadJobImpl_ctor upload_url account_id;
     trace := []; tasks := [];
     boundary_generator_ := boundary_generator;
     boundaries_generated := 0%nat;
     g_retry_delay_ms := default_retry_delay_ms |}.

(** [CHECK_GE(retry_delay_ms, 0)] aborts the process, also in an official
    build: [None]. *)
Definition SetRetryDelayForTesting (retry_delay_ms : Z) (w : World)
    : option World :=
  if retry_delay_ms <? 0 then None
  else Some {| job := job w; trace := trace w; tasks := tasks w;
               boundary_generator_ := boundary_generator_ w;
               boundaries_generated := boundaries_generated w;
               g_retry_delay_ms := retry_delay_ms |}.

Definition AddDataSegment (name filename : str) (header_entries : StdMap.t)
    (data : str) (w : World) : World :=
  if bool_decide (state_ (job w) <> IDLE) then w
  else
    let data_segment :=
      {| name_ := name; filename_ := filename; data_ := data;
         header_entries_ := header_entries |} in
    on_job (fun j => set_data_segments (data_segments_ j ++ [data_segment]) j)
           w.

Definition RequestAccessToken (w : World) : World :=
  let w := on_job (set_state ACQUIRING_TOKEN) w in
  let scope_set := [kDeviceManagementServiceOAuth] in
  let w := call (TokenService_StartRequest (account_id_ (job w)) scope_set)
                w in
  on_job (fun j => set_access_token_request
            (Some {| req_account_id := account_id_ j;
                     req_scope_set := scope_set |}) j) w.

Definition Start (w : World) : World :=
  if bool_decide (state_ (job w) <> IDLE) then w
  else RequestAccessToken w.

(** ** Multipart assembly *)

(** The uniqueness loop of [SetUpMultipart]:
    [used_names.insert(name).second] is false when the name is already in
    the set, and the function then returns false. *)
Fixpoint names_unique (used_names : gset str) (segs : list DataSegment)
    : bool :=
  match segs with
  | [] => true
  | data_segment :: rest =>
      if bool_decide (GetName data_segment ∈ used_names) then false
      else names_unique ({[GetName data_segment]} ∪ used_names) rest
  end.

(** One iteration of the loop that fills [post_data_]. *)
Definition append_segment (mime_boundary : str) (post_data : str)
    (data_segment : DataSegment) : str :=
  let post_data := post_data ++ (lit "--" ++ mime_boundary ++ CRLF) in
  let post_data :=
    post_data ++ (lit "Content-Disposition: form-data; name=" ++ [DQUOTE]
                  ++ GetName data_segment ++ [DQUOTE]) in
  let post_data :=
    if negb (bool_decide (GetFilename data_segment = []))
    then post_data ++ (lit "; filename=" ++ [DQUOTE]
                       ++ GetFilename data_segment ++ [DQUOTE])
    else post_data in
  let post_data := post_data ++ CRLF in
  let post_data :=
    fold_left (fun pd entry => pd ++ (entry.1 ++ lit ": " ++ entry.2 ++ CRLF))
              (StdMap.iterate (GetHeaderEntries data_segment)) post_data in
  post_data ++ (CRLF ++ GetData data_segment ++ CRLF).

Definition SetUpMultipart (w : World) : bool * World :=
  let w := on_job (set_state PREPARING_CONTENT) w in
  match mime_boundary_ (job w), post_data_ (job w) with
  | Some _, Some _ => (true, w)
  | _, _ =>
      if negb (names_unique ∅ (data_segments_ (job w))) then (false, w)
      else
        let '(boundary, w) := GenerateBoundary w in
        let w := on_job (set_mime_boundary (Some boundary)) w in
        let post_data :=
          fold_left (append_segment boundary) (data_segments_ (job w)) [] in
        let post_data :=
          post_data ++ (lit "--" ++ boundary ++ lit "--" ++ CRLF) in
        let w := on_job (set_post_data (Some post_data)) w in
        let w := on_job (set_data_segments []) w in
        (true, w)
  end.

(** ** Upload, callbacks and retries *)

(** [*mime_boundary_] and [*post_data_] are read after [SetUpMultipart] has
    returned true, when both are set; the default stands for the undefined
    dereference of an empty pointer. *)
Definition CreateAndStartURLFetcher (access_token : str) (w : World)
    : World :=
  let content_type :=
    kUploadContentType ++ lit "; boundary="
    ++ default [] (mime_boundary_ (job w)) in
  let fetcher :=
    {| fetch_url := upload_url_ (job w); fetch_type := POST;
       upload_content_type := content_type;
       upload_content := default [] (post_data_ (job w));
       extra_request_headers := [kAuthorizationHeaderFormat access_token] |} in
  let w := on_job (set_upload_fetcher (Some fetcher)) w in
  call (URLFetcher_Start fetcher) w.

Definition StartUpload (w : World) : World :=
  let '(assembled, w) := SetUpMultipart w in
  if negb assembled then on_job (set_state ERROR) w
  else
    let w := CreateAndStartURLFetcher (access_token_ (job w)) w in
    on_job (set_state UPLOADING) w.

Definition OnGetTokenSuccess (access_token : str) (w : World) : World :=
  let w := on_job (set_access_token_request None) w in
  let w := on_job (set_access_token access_token) w in
  StartUpload w.

Definition HandleError (error_code : ErrorCode) (w : World) : World :=
  let w := on_job (fun j => set_retry (retry_ j + 1) j) w in
  let w := on_job (set_upload_fetcher None) w in
  if kMaxAttempts <=? retry_ (job w) then
    let w := on_job (set_access_token []) w in
    let w := on_job (set_post_data None) w in
    let w := on_job (set_state ERROR) w in
    call (Delegate_OnFailure error_code) w
  else if bool_decide (error_code = AUTHENTICATION_ERROR) then
    let scope_set := [kDeviceManagementServiceOAuth] in
    let w := call (TokenService_InvalidateAccessToken
                     (account_id_ (job w)) scope_set (access_token_ (job w)))
                  w in
    let w := on_job (set_access_token []) w in
    PostDelayedTask TaskRequestAccessToken (g_retry_delay_ms w) w
  else
    let w := on_job (set_state ACQUIRING_TOKEN) w in
    PostDelayedTask TaskStartUpload (g_retry_delay_ms w) w.

Definition OnGetTokenFailure (w : World) : World :=
  let w := on_job (set_access_token_request None) w in
  HandleError AUTHENTICATION_ERROR w.

(** [status_is_success] is [source->GetStatus().is_success()] and
    [response_code] is [source->GetResponseCode()]. *)
Definition OnURLFetchComplete (status_is_success : bool) (response_code : Z)
    (w : World) : World :=
  if negb status_is_success then HandleError NETWORK_ERROR w
  else if response_code =? HTTP_OK then
    let w := on_job (set_upload_fetcher None) w in
    let w := on_job (set_access_token []) w in
    let w := on_job (set_post_data None) w in
    let w := on_job (set_state SUCCESS) w in
    call Delegate_OnSuccess w
  else if response_code =? HTTP_UNAUTHORIZED then
    HandleError AUTHENTICATION_ERROR w
  else HandleError SERVER_ERROR w.

(** ** The environment *)

(** What can happen to a job: its owner calls the public interface, the
    token service answers the outstanding request, the URL fetcher the job
    holds completes, or the task runner runs a posted task. A released
    request or fetcher never calls back, and a task runs once. *)
Inductive Event :=
| CallAddDataSegment (name filename : str) (header_entries : StdMap.t)
                     (data : str)
| CallStart
| TokenSuccess (access_token : str)
| TokenFailure
| FetchComplete (status_is_success : bool) (response_code : Z)
| RunDelayedTask (i : nat).

(** The owner adds the segment [seg]. *)
Definition add_segment (seg : DataSegment) : Event :=
  CallAddDataSegment (name_ seg) (filename_ seg) (header_entries_ seg)
                     (data_ seg).

Definition run_task (t : Task) (w : World) : World :=
  match t with
  | TaskRequestAccessToken => RequestAccessToken w
  | TaskStartUpload => StartUpload w
  end.

Definition step (e : Event) (w : World) : option World :=
  match e with
  | CallAddDataSegment name filename header_entries data =>
      Some (AddDataSegment name filename header_entries data w)
  | CallStart => Some (Start w)
  | TokenSuccess access_token =>
      match access_token_request_ (job w) with
      | Some _ => Some (OnGetTokenSuccess access_token w)
      | None => None
      end
  | TokenFailure =>
      match access_token_request_ (job w) with
      | Some _ => Some (OnGetTokenFailure w)
      | None => None
      end
  | FetchComplete status_is_success response_code =>
      match upload_fetcher_ (job w) with
      | Some _ => Some (OnURLFetchComplete status_is_success response_code w)
      | None => None
      end
  | RunDelayedTask i =>
      match tasks w !! i with
      | Some (t, _) => Some (run_task t (set_tasks (delete i (tasks w)) w))
      | None => None
      end
  end.

Fixpoint run (events : list Event) (w : World) : option World :=
  match events with
  | [] => Some w
  | e :: events' =>
      match step e w with
      | Some w' => run events' w'
      | None => None
      end
  end.

Definition terminal (s : State) : bool :=
  match s with
  | SUCCESS | ERROR => true
  | _ => false
  end.

Definition is_delegate_call (c : Call) : bool :=
  match c with
  | Delegate_OnSuccess | Delegate_OnFailure _ => true
  | _ => false
  end.

Definition is_OnSuccess (c : Call) : bool :=
  match c with Delegate_OnSuccess => true | _ => false end.

Definition is_OnFailure (c : Call) : bool :=
  match c with Delegate_OnFailure _ => true | _ => false end.

Definition is_upload (c : Call) : bool :=
  match c with URLFetcher_Start _ => true | _ => false end.

Fixpoint count (p : Call -> bool) (tr : list Call) : nat :=
  match tr with
  | [] => 0%nat
  | c :: tr' => ((if p c then 1 else 0) + count p tr')%nat
  end.

(** ** What holds of every job the environment can produce *)

Definition assembled (j : UploadJobImpl) : Prop :=
  mime_boundary_ j <> None /\ post_data_ j <> None.

Definition unassembled (j : UploadJobImpl) : Prop :=
  mime_boundary_ j = None /\ post_data_ j = None.

(** Nothing is outstanding: no token request, no fetcher, no posted task. *)
Definition quiescent (w : World) : Prop :=
  access_token_request_ (job w) = None
  /\ upload_fetcher_ (job w) = None
  /\ tasks w = [].

(** What is outstanding in each state. *)
Definition outstanding (w : World) : Prop :=
  let j := job w in
  match state_ j with
  | IDLE =>
      quiescent w /\ retry_ j = 0 /\ trace w = [] /\ unassembled j
  | ACQUIRING_TOKEN =>
      upload_fetcher_ j = None
      /\ ((access_token_request_ j <> None /\ tasks w = [])
          \/ (access_token_request_ j = None
              /\ exists d, tasks w = [(TaskRequestAccessToken, d)])
          \/ (access_token_request_ j = None /\ assembled j
              /\ exists d, tasks w = [(TaskStartUpload, d)]))
  | PREPARING_CONTENT => False
  | UPLOADING =>
      access_token_request_ j = None /\ assembled j
      /\ ((upload_fetcher_ j <> None /\ tasks w = [])
          \/ (upload_fetcher_ j = None
              /\ exists d, tasks w = [(TaskRequestAccessToken, d)]))
  | SUCCESS =>
      quiescent w /\ post_data_ j = None
      /\ count is_OnSuccess (trace w) = 1%nat
      /\ count is_OnFailure (trace w) = 0%nat
  | ERROR =>
      quiescent w /\ post_data_ j = None
      /\ count is_OnSuccess (trace w) = 0%nat
      /\ (count is_OnFailure (trace w) <= 1)%nat
  end.

Definition Inv (w : World) : Prop :=
  let j := job w in
  0 <= retry_ j <= kMaxAttempts
  /\ (count is_upload (trace w) <= 4)%nat
  /\ (terminal (state_ j) = false ->
      retry_ j < kMaxAttempts
      /\ count is_OnSuccess (trace w) = 0%nat
      /\ count is_OnFailure (trace w) = 0%nat
      /\ (unassembled j \/ assembled j)
      /\ Z.of_nat (count is_upload (trace w))
         <= retry_ j + (if upload_fetcher_ j is Some _ then 1 else 0))
  /\ (data_segments_ j <> [] -> unassembled j)
  /\ (mime_boundary_ j = None -> boundaries_generated w = 0%nat)
  /\ (forall b, mime_boundary_ j = Some b ->
        boundaries_generated w = 1%nat /\ b = boundary_generator_ w 0%nat)
  /\ outstanding w.

(** ** The wire format, as section 4.1 of the specification words it *)

(** The [Content-Disposition] line of a part, without its line end. *)
Definition spec_disposition (seg : DataSegment) : str :=
  lit "Content-Disposition: form-data; name=" ++ [DQUOTE] ++ GetName seg
  ++ [DQUOTE]
  ++ (if bool_decide (GetFilename seg = []) then []
      else lit "; filename=" ++ [DQUOTE] ++ GetFilename seg ++ [DQUOTE]).

Definition spec_header_line (entry : str * str) : str :=
  entry.1 ++ lit ": " ++ entry.2 ++ CRLF.

(** What a part contributes after its delimiter line and before the line
    end that precedes the next delimiter: headers, blank line, data. *)
Definition spec_part_content (seg : DataSegment) : str :=
  spec_disposition seg ++ CRLF
  ++ concat (map spec_header_line (StdMap.iterate (GetHeaderEntries seg)))
  ++ CRLF ++ GetData seg.

Definition spec_part (boundary : str) (seg : DataSegment) : str :=
  lit "--" ++ boundary ++ CRLF ++ spec_part_content seg ++ CRLF.

Definition spec_body (boundary : str) (segs : list DataSegment) : str :=
  concat (map (spec_part boundary) segs)
  ++ lit "--" ++ boundary ++ lit "--" ++ CRLF.

(** ** A reference reader of the wire format

    Not part of the program: the reader against which the round trip of the
    assembled body is stated. It is given the boundary (as a receiver is, by
    the [Content-Type] header) and reads a body as the standards describe
    it: the parts between delimiters [CRLF--boundary] (RFC 2046, section
    5.1.1); in each part a block of header fields up to a blank line, a
    field being a name, a colon and a body, continued by the lines that
    begin with white space, and taken without the white space around the
    body (RFC 5322, section 2.2); among the fields one [Content-Disposition]
    of type [form-data] whose parameters [name] and [filename] are tokens or
    quoted strings, a backslash inside the quotes standing for the
    character after it (RFC 2183, RFC 7578); field and parameter names are
    matched without regard to case and returned as written.

    Where receivers in use read one text differently, the reader gives no
    result: header lines with characters other than printable US-ASCII,
    space and tab or with an encoded word of RFC 2047, a boundary that is
    not one of RFC 2046, a body without parts, data in which the boundary
    occurs after its two hyphens, and parts with a field that has the data
    decoded or read as parts of its own. *)

Module MultipartReader.

Record Part := {
  part_name : str;
  part_filename : str;
  part_headers : list (str * str);
  part_data : str;
}.

(** *** Cutting strings *)

(** [s] without its prefix [p], when it has it. *)
Fixpoint strip_prefix (p s : str) : option str :=
  match p, s with
  | [], _ => Some s
  | _ :: _, [] => None
  | a :: p', b :: s' => if bool_decide (a = b) then strip_prefix p' s' else None
  end.

(** [s] cut at the first occurrence of [p]: what precedes it and what
    follows it. *)
Fixpoint split_at (p s : str) : option (str * str) :=
  match strip_prefix p s with
  | Some rest => Some ([], rest)
  | None =>
      match s with
      | [] => None
      | c :: s' =>
          match split_at p s' with
          | Some (before, after) => Some (c :: before, after)
          | None => None
          end
      end
  end.

(** The number of positions of [s] at which [p] occurs. *)
Fixpoint occurrences (p s : str) : nat :=
  match s with
  | [] => 0%nat
  | _ :: s' =>
      ((if strip_prefix p s is Some _ then 1 else 0) + occurrences p s')%nat
  end.

(** [p] occurs in [s]. *)
Fixpoint contains (p s : str) : bool :=
  match strip_prefix p s with
  | Some _ => true
  | None =>
      match s with
      | [] => false
      | _ :: s' => contains p s'
      end
  end.

(** *** Characters *)

Definition code (c : ascii) : N := N_of_ascii c.

(** White space: space and horizontal tab. *)
Definition is_wsp (c : ascii) : bool :=
  ((code c =? 32) || (code c =? 9))%N.

(** The printable characters of US-ASCII. *)
Definition is_vchar (c : ascii) : bool :=
  ((33 <=? code c) && (code c <=? 126))%N.

Definition is_text (c : ascii) : bool := is_vchar c || is_wsp c.

(** The characters of a token (RFC 2045): printable, and none of
    [( ) < > @ , ; : \ DQUOTE / [ ] ? =]. *)
Definition is_token_char (c : ascii) : bool :=
  is_vchar c
  && negb (existsb (N.eqb (code c))
                   [40; 41; 60; 62; 64; 44; 59; 58; 92; 34; 47; 91; 93; 63;
                    61]%N).

(** The characters of a boundary (RFC 2046): digits, letters, space and
    ['( ) + _ , - . / : = ?]. *)
Definition is_bchar (c : ascii) : bool :=
  ((48 <=? code c) && (code c <=? 57)
   || (65 <=? code c) && (code c <=? 90)
   || (97 <=? code c) && (code c <=? 122)
   || existsb (N.eqb (code c))
              [39; 40; 41; 43; 95; 44; 45; 46; 47; 58; 61; 63; 32])%N.

Definition to_lower (c : ascii) : ascii :=
  if ((65 <=? code c) && (code c <=? 90))%N
  then ascii_of_N (code c + 32) else c.

(** Equal without regard to the case of letters. *)
Fixpoint same_name (a b : str) : bool :=
  match a, b with
  | [], [] => true
  | x :: a', y :: b' =>
      (code (to_lower x) =? code (to_lower y))%N && same_name a' b'
  | _, _ => false
  end.

Fixpoint skip_wsp (s : str) : str :=
  match s with
  | [] => []
  | c :: s' => if is_wsp c then skip_wsp s' else s
  end.

(** [s] without the white space at its ends. *)
Definition trim (s : str) : str := rev (skip_wsp (rev (skip_wsp s))).

(** *** The boundary and its delimiters *)

(** One to seventy boundary characters, the last of them not a space. *)
Definition valid_boundary (boundary : str) : bool :=
  match rev boundary with
  | [] => false
  | c :: _ =>
      negb (code c =? 32)%N
      && forallb is_bchar boundary
      && (length boundary <=? 70)%nat
  end.

(** The delimiter of RFC 2046: the boundary at the beginning of a line, the
    preceding line end included. *)
Definition delimiter (boundary : str) : str := CRLF ++ lit "--" ++ boundary.

(** The number of delimiters in a body, whose first line begins a line
    without a preceding line end of its own. *)
Definition delimiter_count (boundary body : str) : nat :=
  occurrences (delimiter boundary) (CRLF ++ body).

(** Of these, the closing ones: [CRLF--boundary--]. *)
Definition closing_delimiter_count (boundary body : str) : nat :=
  occurrences (delimiter boundary ++ lit "--") (CRLF ++ body).

(** The boundary with its two hyphens occurs in the data of a part: at its
    beginning, after a bare CR or LF or elsewhere, where receivers differ
    in what they take for the beginning of a line. *)
Definition boundary_in_data (boundary data : str) : bool :=
  contains (lit "--" ++ boundary) data.

(** *** Header fields *)

(** The lines of a header block up to the blank line, and what follows
    it. *)
Fixpoint header_lines (fuel : nat) (s : str) : option (list str * str) :=
  match fuel with
  | O => None
  | S fuel' =>
      match split_at CRLF s with
      | None => None
      | Some ([], rest) => Some ([], rest)
      | Some (line, rest) =>
          match header_lines fuel' rest with
          | Some (lines, rest') => Some (line :: lines, rest')
          | None => None
          end
      end
  end.

(** Unfolding: a line that begins with white space continues the line
    before it. The result is what continues the line before the first of
    [lines], and the fields that follow. *)
Fixpoint unfold_lines (lines : list str) : str * list str :=
  match lines with
  | [] => ([], [])
  | line :: rest =>
      let '(continuation, fields) := unfold_lines rest in
      match line with
      | [] => ([], fields)
      | c :: _ =>
          if is_wsp c then (line ++ continuation, fields)
          else ([], (line ++ continuation) :: fields)
      end
  end.

(** A field: the name up to the first colon, which is not empty and made
    of printable characters, and the body without the white space around
    it. *)
Definition parse_field (line : str) : option (str * str) :=
  if forallb is_text line && negb (contains (lit "=?") line) then
    match split_at [COLON] line with
    | Some (name, body) =>
        if negb (bool_decide (name = [])) && forallb is_vchar name
        then Some (name, trim body)
        else None
    | None => None
    end
  else None.

Fixpoint parse_fields (lines : list str) : option (list (str * str)) :=
  match lines with
  | [] => Some []
  | line :: rest =>
      match parse_field line, parse_fields rest with
      | Some field, Some fields => Some (field :: fields)
      | _, _ => None
      end
  end.

(** *** [Content-Disposition] *)

(** The token at the beginning of [s], and what follows it. *)
Fixpoint token (s : str) : str * str :=
  match s with
  | [] => ([], [])
  | c :: s' =>
      if is_token_char c then let '(t, rest) := token s' in (c :: t, rest)
      else ([], s)
  end.

(** A quoted string after its opening quote: its content, a backslash
    standing for the character after it, and what follows the closing
    quote. *)
Fixpoint quoted (s : str) : option (str * str) :=
  match s with
  | [] => None
  | c :: s' =>
      if bool_decide (c = DQUOTE) then Some ([], s')
      else if bool_decide (c = BACKSLASH) then
        match s' with
        | [] => None
        | d :: s'' =>
            match quoted s'' with
            | Some (content, rest) => Some (d :: content, rest)
            | None => None
            end
        end
      else
        match quoted s' with
        | Some (content, rest) => Some (c :: content, rest)
        | None => None
        end
  end.

(** The parameters [; attribute=value] up to the end of the field body. *)
Fixpoint parameters (fuel : nat) (s : str) : option (list (str * str)) :=
  match fuel with
  | O => None
  | S fuel' =>
      match skip_wsp s with
      | [] => Some []
      | c :: s1 =>
          if negb (code c =? 59)%N then None
          else
            let '(attribute, s2) := token (skip_wsp s1) in
            match attribute, s2 with
            | _ :: _, e :: q :: s3 =>
                if negb (code e =? 61)%N then None
                else
                  let value :=
                    if (code q =? 34)%N then quoted s3
                    else
                      match token (q :: s3) with
                      | ([], _) => None
                      | (t, rest) => Some (t, rest)
                      end in
                  match value with
                  | Some (v, s4) =>
                      match parameters fuel' s4 with
                      | Some ps => Some ((attribute, v) :: ps)
                      | None => None
                      end
                  | None => None
                  end
            | _, _ => None
            end
      end
  end.

(** The value of the first parameter of that name. *)
Fixpoint parameter (attribute : str) (ps : list (str * str)) : option str :=
  match ps with
  | [] => None
  | (a, v) :: ps' =>
      if same_name a attribute then Some v else parameter attribute ps'
  end.

(** Name and filename of a [form-data] disposition; a missing filename is
    the empty one. *)
Definition parse_disposition (body : str) : option (str * str) :=
  let '(type, rest) := token body in
  if same_name type (lit "form-data") then
    match parameters (S (length rest)) rest with
    | Some ps =>
        match parameter (lit "name") ps with
        | Some name =>
            Some (name, default [] (parameter (lit "filename") ps))
        | None => None
        end
    | None => None
    end
  else None.

Definition is_disposition (field : str * str) : bool :=
  same_name field.1 (lit "Content-Disposition").

(** A field that has a receiver decode the data of the part, or read it as
    parts or as a message of its own: [Content-Transfer-Encoding], and
    [Content-Type] with the type [multipart] or [message]. *)
Definition governs_data (field : str * str) : bool :=
  same_name field.1 (lit "Content-Transfer-Encoding")
  || (same_name field.1 (lit "Content-Type")
      && (same_name (token field.2).1 (lit "multipart")
          || same_name (token field.2).1 (lit "message"))).

(** The header block of a part whose data is taken as it is: name and
    filename from its one [Content-Disposition] field, and the other fields
    in their order. *)
Definition parse_part_headers (lines : list str)
    : option (str * str * list (str * str)) :=
  match unfold_lines lines with
  | ([], unfolded) =>
      match parse_fields unfolded with
      | Some fields =>
          if existsb governs_data fields then None
          else
            match List.filter is_disposition fields with
            | [disposition] =>
                match parse_disposition disposition.2 with
                | Some (name, filename) =>
                    Some (name, filename,
                          List.filter
                            (fun field => negb (is_disposition field))
                            fields)
                | None => None
                end
            | _ => None
            end
      | None => None
      end
  | _ => None
  end.

(** *** Parts *)

(** The parts that follow a delimiter, up to the closing one; what follows
    that, the epilogue, is ignored. White space may follow a delimiter on
    its line. *)
Fixpoint parse_parts (fuel : nat) (boundary : str) (s : str)
    : option (list Part) :=
  match fuel with
  | O => None
  | S fuel' =>
      match strip_prefix (lit "--") s with
      | Some _ => Some []
      | None =>
        match strip_prefix CRLF (skip_wsp s) with
        | None => None
        | Some s1 =>
        match header_lines (S (length s1)) s1 with
        | None => None
        | Some (lines, s2) =>
        match parse_part_headers lines with
        | None => None
        | Some (name, filename, entries) =>
        match split_at (delimiter boundary) s2 with
        | None => None
        | Some (data, s3) =>
        if boundary_in_data boundary data then None
        else
        match parse_parts fuel' boundary s3 with
        | None => None
        | Some parts =>
            Some ({| part_name := name; part_filename := filename;
                     part_headers := entries; part_data := data |} :: parts)
        end end end end end end
  end.

(** A multipart body has at least one part. *)
Definition parse (boundary body : str) : option (list Part) :=
  if negb (valid_boundary boundary) then None
  else
    match strip_prefix (lit "--" ++ boundary) body with
    | None => None
    | Some s =>
        match parse_parts (S (length s)) boundary s with
        | Some (part :: parts) => Some (part :: parts)
        | _ => None
        end
    end.

Definition part_of_segment (seg : DataSegment) : Part :=
  {| part_name := GetName seg; part_filename := GetFilename seg;
     part_headers := StdMap.iterate (GetHeaderEntries seg);
     part_data := GetData seg |}.

(** *** What the round trip asks of a segment

    Beyond the delimiter not occurring in its content: name and filename
    contain neither a double quote nor a backslash; a header key is not
    empty, is made of printable characters other than the colon and is not
    [Content-Disposition] in any case of letters; a header value has no
    white space at its ends; no header entry governs how the data is read;
    every line of the header block, the [Content-Disposition] line and
    each [key: value] line, is made of printable characters, spaces and
    tabs and holds no [=?]; and [--boundary] does not occur in the
    data. *)
Definition plain_line (line : str) : Prop :=
  forallb is_text line = true /\ contains (lit "=?") line = false.
Definition plain_entry (e : str * str) : Prop :=
  e.1 <> [] /\ forallb is_vchar e.1 = true /\ (COLON ∉ e.1)
  /\ same_name e.1 (lit "Content-Disposition") = false
  /\ governs_data e = false
  /\ trim e.2 = e.2
  /\ plain_line (e.1 ++ lit ": " ++ e.2).
Definition plain_headers (seg : DataSegment) : Prop :=
  (DQUOTE ∉ GetName seg) /\ (BACKSLASH ∉ GetName seg)
  /\ (DQUOTE ∉ GetFilename seg) /\ (BACKSLASH ∉ GetFilename seg)
  /\ plain_line (spec_disposition seg)
  /\ Forall plain_entry (StdMap.iterate (GetHeaderEntries seg)).
Definition plain_data (boundary : str) (seg : DataSegment) : Prop :=
  boundary_in_data boundary (GetData seg) = false.

End MultipartReader.

(** The delimiter does not occur in what a part contributes between its
    delimiter line and the line end before the next delimiter. *)
Definition delimiter_free (b : str) (seg : DataSegment) : Prop :=
  MultipartReader.contains (MultipartReader.delimiter b)
                           (spec_part_content seg) = false.

(** What follows the first [--boundary] of a body. *)
Fixpoint after_delimiter (b : str) (segs : list DataSegment) : str :=
  match segs with
  | [] => lit "--" ++ CRLF
  | seg :: rest =>
      CRLF ++ spec_part_content seg ++ MultipartReader.delimiter b
      ++ after_delimiter b rest
  end.

(** The body of the [Content-Disposition] field of a part, and a header
    entry on its line, without the line end. *)
Definition disposition_body (seg : DataSegment) : str :=
  lit "form-data; name=" ++ [DQUOTE] ++ GetName seg ++ [DQUOTE]
  ++ (if bool_decide (GetFilename seg = []) then []
      else lit "; filename=" ++ [DQUOTE] ++ GetFilename seg ++ [DQUOTE]).
Definition field_line (e : str * str) : str := e.1 ++ lit ": " ++ e.2.

(** A small job on which the statements below are exercised. *)
Module Sample.

Definition url : GURL :=
  {| spec := lit "https://example.com/upload"; is_valid := true |}.
Definition account : str := lit "robot@example.com".
Definition gen (n : nat) : str := (lit "B" ++ repeat "x"%char n).
Definition w0 : World := new_world url account gen.

(** The world after [events], from the fresh job. *)
Definition after (events : list Event) : World := default w0 (run events w0).

Definition seg_a : DataSegment :=
  {| name_ := lit "a"; filename_ := []; data_ := lit "hello";
     header_entries_ := StdMap.empty |}.
Definition seg_b : DataSegment :=
  {| name_ := lit "b"; filename_ := lit "b.txt";
     data_ := (lit "wor" ++ CRLF ++ lit "ld");
     header_entries_ :=
       StdMap.of_list
         [(lit "X-Two", lit "2"); (lit "Content-Type", lit "text/plain")] |}.

(** Two segments with short data, and one segment whose data spells out
    the end of the first of them and the whole of the second, for the
    boundary [gen 0]. *)
Definition seg_1 : DataSegment :=
  {| name_ := lit "a"; filename_ := []; data_ := lit "1";
     header_entries_ := StdMap.empty |}.
Definition seg_2 : DataSegment :=
  {| name_ := lit "b"; filename_ := []; data_ := lit "2";
     header_entries_ := StdMap.empty |}.
Definition seg_12 : DataSegment :=
  {| name_ := lit "a"; filename_ := [];
     data_ := (lit "1" ++ CRLF ++ lit "--B" ++ CRLF
               ++ lit "Content-Disposition: form-data; name=" ++ [DQUOTE]
               ++ lit "b" ++ [DQUOTE] ++ CRLF ++ CRLF ++ lit "2");
     header_entries_ := StdMap.empty |}.

(** Pairs of segments that differ and are written alike: a quote in the
    name, [: ] in a header key, a line end in a header value. *)
Definition seg_quote : DataSegment :=
  {| name_ := (lit "x" ++ [DQUOTE] ++ lit "; filename=" ++ [DQUOTE] ++ lit "y");
     filename_ := []; data_ := lit "d"; header_entries_ := StdMap.empty |}.
Definition seg_quote' : DataSegment :=
  {| name_ := lit "x"; filename_ := lit "y"; data_ := lit "d";
     header_entries_ := StdMap.empty |}.
Definition seg_colon : DataSegment :=
  {| name_ := lit "x"; filename_ := []; data_ := lit "d";
     header_entries_ := StdMap.of_list [(lit "k: a", lit "b")] |}.
Definition seg_colon' : DataSegment :=
  {| name_ := lit "x"; filename_ := []; data_ := lit "d";
     header_entries_ := StdMap.of_list [(lit "k", lit "a: b")] |}.
Definition seg_break : DataSegment :=
  {| name_ := lit "x"; filename_ := []; data_ := lit "d";
     header_entries_ :=
       StdMap.of_list [(lit "k", (lit "v" ++ CRLF ++ lit "x: y"))] |}.
Definition seg_break' : DataSegment :=
  {| name_ := lit "x"; filename_ := []; data_ := lit "d";
     header_entries_ :=
       StdMap.of_list [(lit "k", lit "v"); (lit "x", lit "y")] |}.

(** [seg_b] with its map built in the other order of insertion. *)
Definition seg_b' : DataSegment :=
  {| name_ := lit "b"; filename_ := lit "b.txt";
     data_ := (lit "wor" ++ CRLF ++ lit "ld");
     header_entries_ :=
       StdMap.of_list
         [(lit "Content-Type", lit "text/plain"); (lit "X-Two", lit "2")] |}.

Definition token : str := lit "token-1".

End Sample.

(** Boundary and body are the ones assembled; the body may only have been
    dropped on reaching a terminal state. *)
Definition kept (b body : str) (w : World) : Prop :=
  mime_boundary_ (job w) = Some b
  /\ data_segments_ (job w) = []
  /\ boundaries_generated w = 1%nat
  /\ (post_data_ (job w) = Some body
      \/ (terminal (state_ (job w)) = true /\ post_data_ (job w) = None)).

(** ** Segments compared as maps *)

(** The order of a map's iteration: by key. *)
Definition key_lt (e1 e2 : str * str) : Prop := str_ltb e1.1 e2.1 = true.
Definition same_entries (m1 m2 : StdMap.t) : Prop :=
  forall k, StdMap.find k m1 = StdMap.find k m2.
Definition same_segment (s1 s2 : DataSegment) : Prop :=
  GetName s1 = GetName s2 /\ GetFilename s1 = GetFilename s2
  /\ GetData s1 = GetData s2
  /\ same_entries (GetHeaderEntries s1) (GetHeaderEntries s2).


(** ** The size estimate of [SetUpMultipart]

    The estimate feeds [reserve] and the warning logged when the buffer
    outgrew it; neither changes the job. [size_t] is that of the 64-bit
    build. *)

Definition size_t_wrap (z : Z) : Z := z mod 2 ^ 64.

(** [std::string::size()] *)
Definition string_size (s : str) : Z := Z.of_nat (length s).

Definition kMaxMimeBoundarySize : Z := 70.

Definition GetDataSize (s : DataSegment) : Z := string_size (data_ s).

(** One iteration of the loop that computes [size]; each [+=] wraps. *)
Definition estimate_add_segment (size : Z) (data_segment : DataSegment) : Z :=
  let size :=
    fold_left (fun size entry =>
                 size_t_wrap (size + (string_size entry.1
                                      + string_size entry.2)))
              (StdMap.iterate (GetHeaderEntries data_segment)) size in
  let size :=
    size_t_wrap (size + (kMaxMimeBoundarySize
                         + string_size (GetName data_segment)
                         + string_size (GetFilename data_segment)
                         + GetDataSize data_segment)) in
  size_t_wrap (size + 128).

Definition estimate_size (segs : list DataSegment) : Z :=
  fold_left estimate_add_segment segs 0.

(** What the loop over the segments and the closing line leave in
    [post_data_]. *)
Definition assembled_post_data (boundary : str) (segs : list DataSegment)
    : str :=
  fold_left (append_segment boundary) segs []
  ++ (lit "--" ++ boundary ++ lit "--" ++ CRLF).

(** [post_data_->size() > size]: the warning is logged. *)
Definition reallocation_warning (boundary : str) (segs : list DataSegment)
    : bool :=
  estimate_size segs <? string_size (assembled_post_data boundary segs).

(** The sum of [f] over the segments. *)
Definition sum_over (f : DataSegment -> Z) (segs : list DataSegment) : Z :=
  fold_right (fun seg total => f seg + total) 0 segs.

(** The bytes a part takes in the buffer, its delimiter line included. *)
Definition part_size (boundary : str) (seg : DataSegment) : Z :=
  49 + string_size boundary + string_size (GetName seg)
  + (if bool_decide (GetFilename seg = []) then 0
     else 13 + string_size (GetFilename seg))
  + fold_right (fun entry total =>
                  string_size entry.1 + string_size entry.2 + 4 + total)
               0 (StdMap.iterate (GetHeaderEntries seg))
  + GetDataSize seg.

(** What the estimate allows a segment, without wrapping. *)
Definition estimated_part_size (seg : DataSegment) : Z :=
  fold_right (fun entry total =>
                string_size entry.1 + string_size entry.2 + total)
             0 (StdMap.iterate (GetHeaderEntries seg))
  + kMaxMimeBoundarySize + string_size (GetName seg)
  + string_size (GetFilename seg) + GetDataSize seg + 128.

(** By how much the estimate for a segment exceeds its part. *)
Definition slack (boundary : str) (seg : DataSegment) : Z :=
  149 - string_size boundary
  - (if bool_decide (GetFilename seg = []) then 0 else 13)
  - 4 * Z.of_nat (length (StdMap.iterate (GetHeaderEntries seg))).


(** ** Further observations of a run *)

Definition is_token_request (c : Call) : bool :=
  match c with TokenService_StartRequest _ _ => true | _ => false end.

Definition is_invalidation (c : Call) : bool :=
  match c with
  | TokenService_InvalidateAccessToken _ _ _ => true
  | _ => false
  end.

Definition is_posted_task (c : Call) : bool :=
  match c with TaskRunner_PostDelayedTask _ _ => true | _ => false end.

Definition is_boundary_generation (c : Call) : bool :=
  match c with BoundaryGenerator_GenerateBoundary => true | _ => false end.

(** How many callbacks the job is waiting for. *)
Definition outstanding_count (w : World) : nat :=
  ((if access_token_request_ (job w) is Some _ then 1 else 0)
   + (if upload_fetcher_ (job w) is Some _ then 1 else 0)
   + length (tasks w))%nat.

(** The calls of the owner, as opposed to callbacks and tasks. *)
Definition is_owner_call (e : Event) : bool :=
  match e with
  | CallAddDataSegment _ _ _ _ | CallStart => true
  | _ => false
  end.

(** The error kind with which [HandleError] is entered on an event, if it
    is: [OnGetTokenFailure] and the three failing branches of
    [OnURLFetchComplete]. *)
Definition failure_kind (e : Event) : option ErrorCode :=
  match e with
  | TokenFailure => Some AUTHENTICATION_ERROR
  | FetchComplete status_is_success response_code =>
      if negb status_is_success then Some NETWORK_ERROR
      else if response_code =? HTTP_OK then None
      else if response_code =? HTTP_UNAUTHORIZED
           then Some AUTHENTICATION_ERROR
      else Some SERVER_ERROR
  | _ => None
  end.

(** The budgets the retry policy keeps on the calls of a job. *)
Definition Budget (w : World) : Prop :=
  let tr := trace w in
  (count is_posted_task tr <= 3)%nat
  /\ (terminal (state_ (job w)) = false ->
      Z.of_nat (count is_posted_task tr) <= retry_ (job w))
  /\ (count is_invalidation tr <= count is_posted_task tr)%nat
  /\ (count is_token_request tr <= count is_invalidation tr + 1)%nat
  /\ (forall d, tasks w = [(TaskRequestAccessToken, d)] ->
        (count is_token_request tr <= count is_invalidation tr)%nat)
  /\ count is_boundary_generation tr = boundaries_generated w
  /\ (state_ (job w) = SUCCESS -> access_token_ (job w) = [])
  /\ (count is_OnFailure tr <> 0%nat ->
      access_token_ (job w) = [] /\ retry_ (job w) = kMaxAttempts).


(** The calls that leave the job waiting for an answer: a token request, a
    fetcher, a posted task. *)
Definition created (tr : list Call) : nat :=
  (count is_token_request tr + count is_upload tr
   + count is_posted_task tr)%nat.

(** The answers among the events of a run. *)
Definition callbacks (events : list Event) : list Event :=
  filter (fun e => is_owner_call e = false) events.

(** ** The debug assertions

    What the [DCHECK]s of each method ask of the job on entry, those of the
    methods it calls included. The two assertions that the answering request
    or fetcher is the one the job holds are part of the environment, which
    lets only the held one answer. *)

Definition RequestAccessToken_dchecks (w : World) : bool :=
  bool_decide (access_token_request_ (job w) = None).

Definition SetUpMultipart_dchecks (w : World) : bool :=
  bool_decide (state_ (job w) = ACQUIRING_TOKEN).

Definition CreateAndStartURLFetcher_dchecks (w : World) : bool :=
  bool_decide (state_ (job w) = PREPARING_CONTENT).

Definition StartUpload_dchecks (w : World) : bool :=
  SetUpMultipart_dchecks w
  && (let '(assembled, w) := SetUpMultipart w in
      if negb assembled then true else CreateAndStartURLFetcher_dchecks w).

Definition AddDataSegment_dchecks (w : World) : bool :=
  bool_decide (state_ (job w) = IDLE).

Definition Start_dchecks (w : World) : bool :=
  bool_decide (state_ (job w) = IDLE)
  && bool_decide (retry_ (job w) = 0)
  && RequestAccessToken_dchecks w.

Definition OnGetTokenSuccess_dchecks (access_token : str) (w : World)
    : bool :=
  bool_decide (state_ (job w) = ACQUIRING_TOKEN)
  && (let w := on_job (set_access_token_request None) w in
      let w := on_job (set_access_token access_token) w in
      StartUpload_dchecks w).

Definition OnGetTokenFailure_dchecks (w : World) : bool :=
  bool_decide (state_ (job w) = ACQUIRING_TOKEN).

Definition OnURLFetchComplete_dchecks (w : World) : bool :=
  bool_decide (state_ (job w) = UPLOADING).

Definition run_task_dchecks (t : Task) (w : World) : bool :=
  match t with
  | TaskRequestAccessToken => RequestAccessToken_dchecks w
  | TaskStartUpload => StartUpload_dchecks w
  end.

Definition dchecks (e : Event) (w : World) : bool :=
  match e with
  | CallAddDataSegment _ _ _ _ => AddDataSegment_dchecks w
  | CallStart => Start_dchecks w
  | TokenSuccess access_token => OnGetTokenSuccess_dchecks access_token w
  | TokenFailure => OnGetTokenFailure_dchecks w
  | FetchComplete _ _ => OnURLFetchComplete_dchecks w
  | RunDelayedTask i =>
      match tasks w !! i with
      | Some (t, _) => run_task_dchecks t (set_tasks (delete i (tasks w)) w)
      | None => true
      end
  end.

(** ** The uploads of a job *)

(** The fetcher [CreateAndStartURLFetcher] builds from a URL, a boundary, a
    body and a token. *)
Definition fetcher_for (url : GURL) (boundary body access_token : str)
    : URLFetcher :=
  {| fetch_url := url; fetch_type := POST;
     upload_content_type :=
       kUploadContentType ++ lit "; boundary=" ++ boundary;
     upload_content := body;
     extra_request_headers := [kAuthorizationHeaderFormat access_token] |}.

(** A call that, if it starts a fetcher, starts one for this URL, boundary
    and body. *)
Definition upload_of (url : GURL) (boundary body : str) (c : Call) : Prop :=
  match c with
  | URLFetcher_Start f =>
      exists access_token, f = fetcher_for url boundary body access_token
  | _ => True
  end.

Definition Uploads (w : World) : Prop :=
  let j := job w in
  match mime_boundary_ j with
  | None => count is_upload (trace w) = 0%nat
  | Some b =>
      exists body,
        (post_data_ j = Some body
         \/ (post_data_ j = None /\ terminal (state_ j) = true))
        /\ Forall (upload_of (upload_url_ j) b body) (trace w)
  end
  /\ (forall f, upload_fetcher_ j = Some f ->
        exists b body,
          mime_boundary_ j = Some b /\ post_data_ j = Some body
          /\ f = fetcher_for (upload_url_ j) b body (access_token_ j)
          /\ last (trace w) = Some (URLFetcher_Start f)).

(** While a token is being asked for, or is about to be, the job holds
    none. *)
Definition NoToken (w : World) : Prop :=
  state_ (job w) = IDLE
  \/ access_token_request_ (job w) <> None
  \/ (exists d, tasks w = [(TaskRequestAccessToken, d)]) ->
  access_token_ (job w) = [].

(** ** Scenarios *)

(** A job whose fetcher for [boundary], [body] and [access_token] is in
    flight after [retry] failures, with nothing else outstanding. *)
Definition uploading_world (url : GURL) (account_id : str)
    (generator : nat -> str) (delay_ms : Z) (boundary body access_token : str)
    (retry : Z) (tr : list Call) : World :=
  {| job := {| upload_url_ := url; account_id_ := account_id;
               state_ := UPLOADING; retry_ := retry;
               access_token_request_ := None;
               access_token_ := access_token;
               upload_fetcher_ :=
                 Some (fetcher_for url boundary body access_token);
               mime_boundary_ := Some boundary; post_data_ := Some body;
               data_segments_ := [] |};
     trace := tr; tasks := [];
     boundary_generator_ := generator;
     boundaries_generated := 1%nat;
     g_retry_delay_ms := delay_ms |}.

(** An upload that ends as [answer] says, status and response code, and the
    task that is then run. *)
Definition failed_attempt (answer : bool * Z) : list Event :=
  [FetchComplete answer.1 answer.2; RunDelayedTask 0].

(** The answers [OnURLFetchComplete] takes for a network or a server
    error. *)
Definition retried_unchanged (answer : bool * Z) : Prop :=
  failure_kind (FetchComplete answer.1 answer.2) = Some NETWORK_ERROR
  \/ failure_kind (FetchComplete answer.1 answer.2) = Some SERVER_ERROR.

(** What a failed attempt of this kind adds to the calls of the job. *)
Definition retry_calls (delay_ms : Z) (f : URLFetcher) : list Call :=
  [TaskRunner_PostDelayedTask TaskStartUpload delay_ms; URLFetcher_Start f].

(** ** Further sample jobs *)

Module Fixture.

Definition bad_url : GURL :=
  {| spec := lit "not a url"; is_valid := false |}.

(** Three uploads refused for their token and a fourth accepted: the
    longest list of calls a job makes. *)
Definition refused_thrice : list Event :=
  [CallStart; TokenSuccess (lit "t1");
   FetchComplete true 401; RunDelayedTask 0; TokenSuccess (lit "t2");
   FetchComplete true 401; RunDelayedTask 0; TokenSuccess (lit "t3");
   FetchComplete true 401; RunDelayedTask 0; TokenSuccess (lit "t4");
   FetchComplete true 200].

(** Three token requests refused. *)
Definition no_token_thrice : list Event :=
  [CallStart; TokenFailure; RunDelayedTask 0;
   TokenFailure; RunDelayedTask 0; TokenFailure; RunDelayedTask 0].

(** A segment written with a backslash in its name, a colon in a key and
    blanks around a value. *)
Definition seg_odd : DataSegment :=
  {| name_ := (lit "a" ++ [BACKSLASH] ++ lit "b"); filename_ := [];
     data_ := lit "d";
     header_entries_ :=
       StdMap.of_list [(lit "a:b", lit "c"); (lit "K", lit " v ")] |}.

(** A network error and a server error. *)
Definition two_answers : list (bool * Z) := [(false, 0); (true, 500)].
Definition three_answers : list (bool * Z) :=
  [(false, 0); (true, 500); (true, 404)].

End Fixture.


(** * Properties *)

#[local] Set Warnings "-clear-no-such-hyp".

(** A character is absent from a closed string: by evaluation. *)
Ltac absent_by_computation :=
  match goal with
  | |- ?c ∉ ?l => exact (bool_decide_eq_false_1 (c ∈ l) (eq_refl false))
  end.

(** Closed segments are plain: by evaluation of each condition. *)
Ltac plain_by_computation :=
  repeat match goal with
  | |- _ /\ _ => split
  | |- Forall _ _ => constructor
  | |- MultipartReader.plain_headers _ =>
      unfold MultipartReader.plain_headers
  | |- MultipartReader.plain_entry _ => unfold MultipartReader.plain_entry
  | |- MultipartReader.plain_line _ => unfold MultipartReader.plain_line
  | |- MultipartReader.plain_data _ _ => unfold MultipartReader.plain_data
  end;
  match goal with
  | |- _ ∉ _ => absent_by_computation
  | |- _ <> _ => let H := fresh in intros H; vm_compute in H; discriminate H
  | |- _ = _ => vm_compute; reflexivity
  end.

(** ** Strings and their order *)

Section StrOrder.

Lemma str_ltb_irrefl (a : str) : str_ltb a a = false.
Proof.
  induction a as [|x a IH]; simpl; [done|].
  rewrite N.ltb_irrefl, N.eqb_refl. exact IH.
Qed.

Lemma N_of_ascii_inj (x y : ascii) : N_of_ascii x = N_of_ascii y -> x = y.
Proof.
  intros H. rewrite <- (ascii_N_embedding x), <- (ascii_N_embedding y).
  by rewrite H.
Qed.

Lemma str_ltb_trans (a b c : str) :
  str_ltb a b = true -> str_ltb b c = true -> str_ltb a c = true.
Proof.
  revert b c. induction a as [|x a IH]; intros [|y b] [|z c]; simpl; try done.
  destruct (N.ltb_spec (N_of_ascii x) (N_of_ascii y)) as [Hxy|Hxy];
  destruct (N.ltb_spec (N_of_ascii y) (N_of_ascii z)) as [Hyz|Hyz];
  destruct (N.eqb_spec (N_of_ascii x) (N_of_ascii y)) as [Exy|Exy];
  destruct (N.eqb_spec (N_of_ascii y) (N_of_ascii z)) as [Eyz|Eyz];
  destruct (N.ltb_spec (N_of_ascii x) (N_of_ascii z)) as [Hxz|Hxz];
  destruct (N.eqb_spec (N_of_ascii x) (N_of_ascii z)) as [Exz|Exz];
  try done; try lia.
  apply IH.
Qed.

Lemma str_ltb_total (a b : str) :
  str_ltb a b = false -> str_ltb b a = false -> a = b.
Proof.
  revert b. induction a as [|x a IH]; intros [|y b]; simpl; try done.
  destruct (N.ltb_spec (N_of_ascii x) (N_of_ascii y)) as [Hxy|Hxy]; [done|].
  destruct (N.ltb_spec (N_of_ascii y) (N_of_ascii x)) as [Hyx|Hyx]; [done|].
  assert (E : N_of_ascii x = N_of_ascii y) by lia.
  rewrite E, N.eqb_refl. intros H1 H2.
  f_equal; [by apply N_of_ascii_inj | by apply IH].
Qed.

Lemma str_ltb_asym (a b : str) : str_ltb a b = true -> str_ltb b a = false.
Proof.
  intros H. destruct (str_ltb b a) eqn:E; [|done].
  pose proof (str_ltb_trans _ _ _ H E) as T.
  by rewrite str_ltb_irrefl in T.
Qed.

End StrOrder.

(** ** Cutting strings at a pattern *)

Section Cutting.

Import MultipartReader.

Lemma strip_prefix_app (p s : str) : strip_prefix p (p ++ s) = Some s.
Proof.
  induction p as [|a p IH]; simpl; [by destruct s|].
  by rewrite bool_decide_eq_true_2.
Qed.

Lemma strip_prefix_Some (p s r : str) :
  strip_prefix p s = Some r -> s = p ++ r.
Proof.
  revert s. induction p as [|a p IH]; intros s; simpl.
  - destruct s; by intros [= ->].
  - destruct s as [|b s]; [done|]. case_bool_decide as Hab; [|done].
    intros Hs. apply IH in Hs. by subst.
Qed.

Lemma strip_prefix_None (p s : str) :
  (forall r, s <> p ++ r) -> strip_prefix p s = None.
Proof.
  intros H. destruct (strip_prefix p s) as [r|] eqn:E; [|done].
  apply strip_prefix_Some in E. by destruct (H r).
Qed.

Lemma contains_unfold (p s : str) :
  contains p s =
  match strip_prefix p s with
  | Some _ => true
  | None => match s with [] => false | _ :: s' => contains p s' end
  end.
Proof. by destruct s. Qed.

Lemma split_at_unfold (p s : str) :
  split_at p s =
  match strip_prefix p s with
  | Some rest => Some ([], rest)
  | None =>
      match s with
      | [] => None
      | c :: s' =>
          match split_at p s' with
          | Some (before, after) => Some (c :: before, after)
          | None => None
          end
      end
  end.
Proof. by destruct s. Qed.

Lemma contains_true (p s : str) :
  contains p s = true <-> exists s1 s2, s = s1 ++ p ++ s2.
Proof.
  split.
  - induction s as [|c s IH]; simpl.
    + destruct (strip_prefix p []) as [r|] eqn:E; [|done].
      intros _. exists [], r. by apply strip_prefix_Some in E.
    + destruct (strip_prefix p (c :: s)) as [r|] eqn:E.
      * intros _. exists [], r. by apply strip_prefix_Some in E.
      * intros H. destruct (IH H) as (s1 & s2 & ->). by exists (c :: s1), s2.
  - intros (s1 & s2 & ->). induction s1 as [|c s1 IH]; simpl.
    + by rewrite contains_unfold, strip_prefix_app.
    + by destruct (strip_prefix p (c :: s1 ++ p ++ s2)).
Qed.

Lemma contains_false (p s : str) :
  contains p s = false <-> forall s1 s2, s <> s1 ++ p ++ s2.
Proof.
  rewrite <- not_true_iff_false, contains_true. split.
  - intros H s1 s2 E. apply H. by exists s1, s2.
  - intros H (s1 & s2 & E). by apply (H s1 s2).
Qed.

Lemma contains_cons_false (p : str) (c : ascii) (s : str) :
  contains p (c :: s) = false -> contains p s = false.
Proof.
  rewrite !contains_false. intros H s1 s2 ->. by apply (H (c :: s1) s2).
Qed.

Lemma contains_app_r_false (p s t : str) :
  contains p (s ++ t) = false -> contains p t = false.
Proof.
  rewrite !contains_false. intros H s1 s2 ->.
  apply (H (s ++ s1) s2). by rewrite <- app_assoc.
Qed.

Lemma contains_longer_false (p q s : str) :
  contains p s = false -> contains (p ++ q) s = false.
Proof.
  rewrite !contains_false. intros H s1 s2 ->.
  apply (H s1 (q ++ s2)). by rewrite <- app_assoc.
Qed.

Lemma absent_head_contains (c0 : ascii) (q s : str) :
  c0 ∉ s -> contains (c0 :: q) s = false.
Proof.
  intros H. apply contains_false. intros s1 s2 ->. apply H.
  set_solver.
Qed.

(** A pattern whose first character does not recur in it has no occurrence
    that begins inside a text free of it and runs into a following text that
    begins with that character. *)
Lemma no_straddle (c0 : ascii) (q s t k : str) (c : ascii) (s2 : str) :
  c0 ∉ q -> contains (c0 :: q) s = false ->
  (exists s1, s = s1 ++ c :: s2) ->
  (c :: s2) ++ c0 :: t <> (c0 :: q) ++ k.
Proof.
  intros Hq Hs [s1 ->] E.
  rewrite contains_false in Hs.
  apply app_eq_app in E as [l [[E1 E2]|[E1 E2]]].
  - apply (Hs s1 l). by rewrite E1.
  - destruct l as [|x l].
    + rewrite app_nil_r in E1. apply (Hs s1 []). by rewrite app_nil_r, E1.
    + simpl in E2. injection E2 as -> _.
      simpl in E1. injection E1 as -> E1. apply Hq. rewrite E1. set_solver.
Qed.

Lemma split_at_first (c0 : ascii) (q s r : str) :
  c0 ∉ q -> contains (c0 :: q) s = false ->
  split_at (c0 :: q) (s ++ (c0 :: q) ++ r) = Some (s, r).
Proof.
  intros Hq. induction s as [|c s IH]; intros Hs.
  - change ([] ++ (c0 :: q) ++ r) with ((c0 :: q) ++ r).
    by rewrite split_at_unfold, strip_prefix_app.
  - change ((c :: s) ++ (c0 :: q) ++ r) with (c :: (s ++ (c0 :: q) ++ r)).
    cbn [split_at]. rewrite strip_prefix_None.
    + rewrite (IH (contains_cons_false _ _ _ Hs)). done.
    + intros k E.
      apply (no_straddle c0 q (c :: s) (q ++ r) k c s Hq Hs); [by exists []|].
      by rewrite <- E.
Qed.

Lemma occurrences_skip (c0 : ascii) (q s t : str) :
  c0 ∉ q -> contains (c0 :: q) s = false ->
  occurrences (c0 :: q) (s ++ c0 :: t) = occurrences (c0 :: q) (c0 :: t).
Proof.
  intros Hq. induction s as [|c s IH]; intros Hs; [done|].
  change ((c :: s) ++ c0 :: t) with (c :: (s ++ c0 :: t)).
  cbn [occurrences]. rewrite strip_prefix_None.
  - by rewrite (IH (contains_cons_false _ _ _ Hs)).
  - intros k E.
    apply (no_straddle c0 q (c :: s) t k c s Hq Hs); [by exists []|done].
Qed.

Lemma occurrences_absent_head (c0 : ascii) (q s t : str) :
  c0 ∉ s -> occurrences (c0 :: q) (s ++ t) = occurrences (c0 :: q) t.
Proof.
  induction s as [|c s IH]; intros Hs; [done|].
  change ((c :: s) ++ t) with (c :: (s ++ t)). cbn [occurrences].
  rewrite IH by set_solver.
  cbn [strip_prefix]. rewrite bool_decide_eq_false_2; [done|]. set_solver.
Qed.

Lemma occurrences_self (c0 : ascii) (q t : str) :
  c0 ∉ q ->
  occurrences (c0 :: q) ((c0 :: q) ++ t) = S (occurrences (c0 :: q) t).
Proof.
  intros Hq. change ((c0 :: q) ++ t) with (c0 :: (q ++ t)).
  cbn [occurrences].
  change (c0 :: (q ++ t)) with ((c0 :: q) ++ t). rewrite strip_prefix_app.
  by rewrite occurrences_absent_head.
Qed.

End Cutting.

(** ** The assembled body *)

Section Assembly.

Import MultipartReader.

Lemma header_lines_fold (entries : StdMap.entries) (pd : str) :
  fold_left (fun pd entry => pd ++ (entry.1 ++ lit ": " ++ entry.2 ++ CRLF))
            entries pd
  = pd ++ concat (map spec_header_line entries).
Proof.
  revert pd.
  induction entries as [|e entries IH]; intros pd; cbn [fold_left map concat].
  - by rewrite app_nil_r.
  - rewrite IH. unfold spec_header_line. by rewrite <- !app_assoc.
Qed.

Lemma append_segment_spec (b pd : str) (seg : DataSegment) :
  append_segment b pd seg = pd ++ spec_part b seg.
Proof.
  unfold append_segment, spec_part, spec_part_content, spec_disposition.
  rewrite header_lines_fold.
  destruct (bool_decide (GetFilename seg = [])); cbn [negb];
    by rewrite ?app_nil_r, <- ?app_assoc.
Qed.

Lemma fold_append_segment (b : str) (segs : list DataSegment) (pd : str) :
  fold_left (append_segment b) segs pd
  = pd ++ concat (map (spec_part b) segs).
Proof.
  revert pd.
  induction segs as [|seg segs IH]; intros pd; cbn [fold_left map concat].
  - by rewrite app_nil_r.
  - by rewrite IH, append_segment_spec, <- app_assoc.
Qed.

Lemma spec_body_after (b : str) (segs : list DataSegment) :
  spec_body b segs = lit "--" ++ b ++ after_delimiter b segs.
Proof.
  unfold spec_body. induction segs as [|seg segs IH]; [done|].
  cbn [map concat after_delimiter]. rewrite <- app_assoc, IH.
  unfold spec_part, delimiter. by rewrite <- !app_assoc.
Qed.

Lemma names_unique_spec (segs : list DataSegment) (used : gset str) :
  names_unique used segs = true
  <-> NoDup (map GetName segs)
      /\ (forall n, n ∈ map GetName segs -> n ∉ used).
Proof.
  revert used. induction segs as [|seg segs IH]; intros used; simpl.
  - split; [|done]. intros _. split; [constructor|]. set_solver.
  - case_bool_decide as Hin.
    + split; [done|]. intros [_ H]. exfalso.
      apply (H (GetName seg)); [apply elem_of_cons; by left|done].
    + rewrite IH, NoDup_cons. split.
      * intros [Hnd H]. split; [split; [|done]|].
        -- intros Hm. apply (H _ Hm). set_solver.
        -- intros n [->|Hn]%elem_of_cons; [done|].
           specialize (H n Hn). set_solver.
      * intros [[Hn Hnd] H]. split; [done|].
        intros n Hm. specialize (H n). set_solver.
Qed.

Lemma names_unique_NoDup (segs : list DataSegment) :
  names_unique ∅ segs = true <-> NoDup (map GetName segs).
Proof.
  rewrite names_unique_spec. split; [by intros [? _]|].
  intros H. split; [done|]. set_solver.
Qed.

End Assembly.

(** ** Delimiters of the assembled body and its round trip *)

Section RoundTrip.

Import MultipartReader.

Variable b : str.
Hypothesis boundary_without_CR : CR ∉ b.

Lemma delimiter_cons : delimiter b = CR :: (LF :: lit "--" ++ b).
Proof. done. Qed.

Lemma delimiter_tail_without_CR : CR ∉ (LF :: lit "--" ++ b).
Proof.
  intros H. apply elem_of_cons in H as [H|H]; [done|].
  apply elem_of_app in H as [H|H]; [|done].
  exact (bool_decide_eq_false_1 (CR ∈ lit "--") eq_refl H).
Qed.

Lemma closing_tail_without_CR : CR ∉ ((LF :: lit "--" ++ b) ++ lit "--").
Proof.
  intros H. apply elem_of_app in H as [H|H].
  - by apply delimiter_tail_without_CR.
  - exact (bool_decide_eq_false_1 (CR ∈ lit "--") eq_refl H).
Qed.

Lemma strip_prefix_common (p q s : str) :
  strip_prefix (p ++ q) (p ++ s) = strip_prefix q s.
Proof.
  induction p as [|a p IH]; [done|]. simpl.
  by rewrite bool_decide_eq_true_2.
Qed.

(** The line end before a part's headers begins no delimiter: the headers
    begin with [Content-Disposition]. *)
Lemma content_after_line_end (p : str) (seg : DataSegment) :
  contains (delimiter b ++ p) (spec_part_content seg) = false ->
  contains (delimiter b ++ p) (CRLF ++ spec_part_content seg) = false.
Proof.
  intros H.
  rewrite contains_unfold.
  replace (strip_prefix (delimiter b ++ p) (CRLF ++ spec_part_content seg))
    with (@None str).
  - change (CRLF ++ spec_part_content seg)
      with (CR :: LF :: spec_part_content seg).
    cbv iota. rewrite contains_unfold. done.
  - symmetry. unfold delimiter. rewrite <- app_assoc, strip_prefix_common.
    done.
Qed.

Lemma after_delimiter_cons (segs : list DataSegment) :
  exists t, delimiter b ++ after_delimiter b segs = CR :: t.
Proof. by eexists. Qed.

Lemma delimiters_counted (segs : list DataSegment) :
  Forall (delimiter_free b) segs ->
  occurrences (delimiter b) (delimiter b ++ after_delimiter b segs)
  = S (length segs).
Proof.
  induction 1 as [|seg segs Hseg Hsegs IH].
  - rewrite delimiter_cons, occurrences_self
      by apply delimiter_tail_without_CR.
    done.
  - rewrite delimiter_cons at 1 2.
    rewrite occurrences_self by apply delimiter_tail_without_CR.
    cbn [after_delimiter length]. f_equal.
    rewrite (app_assoc CRLF).
    destruct (after_delimiter_cons segs) as [t Ht]. rewrite Ht.
    rewrite occurrences_skip.
    + by rewrite <- Ht.
    + apply delimiter_tail_without_CR.
    + rewrite <- delimiter_cons.
      pose proof (content_after_line_end [] seg) as C.
      rewrite app_nil_r in C. by apply C.
Qed.

Lemma closing_delimiter_counted (segs : list DataSegment) :
  Forall (delimiter_free b) segs ->
  occurrences (delimiter b ++ lit "--")
              (delimiter b ++ after_delimiter b segs)
  = 1%nat.
Proof.
  induction 1 as [|seg segs Hseg Hsegs IH].
  - cbn [after_delimiter]. rewrite (app_assoc _ _ CRLF).
    rewrite delimiter_cons.
    change ((CR :: LF :: lit "--" ++ b) ++ lit "--")
      with (CR :: ((LF :: lit "--" ++ b) ++ lit "--")).
    rewrite occurrences_self by apply closing_tail_without_CR.
    done.
  - cbn [after_delimiter].
    rewrite delimiter_cons at 2.
    change ((CR :: LF :: lit "--" ++ b) ++ ?x)
      with (CR :: ((LF :: lit "--" ++ b) ++ x)).
    cbn [occurrences].
    replace (strip_prefix (delimiter b ++ lit "--")
               (CR :: (LF :: lit "--" ++ b)
                  ++ CRLF ++ spec_part_content seg
                  ++ delimiter b ++ after_delimiter b segs))
      with (@None str).
    2:{ symmetry.
        change (CR :: (LF :: lit "--" ++ b) ++ ?x) with (delimiter b ++ x).
        by rewrite strip_prefix_common. }
    rewrite delimiter_cons at 1.
    change ((CR :: LF :: lit "--" ++ b) ++ lit "--")
      with (CR :: ((LF :: lit "--" ++ b) ++ lit "--")).
    rewrite occurrences_absent_head by apply delimiter_tail_without_CR.
    rewrite (app_assoc CRLF).
    destruct (after_delimiter_cons segs) as [t Ht]. rewrite Ht.
    rewrite occurrences_skip.
    + rewrite <- Ht. exact IH.
    + apply closing_tail_without_CR.
    + change (CR :: ((LF :: lit "--" ++ b) ++ lit "--"))
        with (delimiter b ++ lit "--").
      by apply content_after_line_end, contains_longer_false.
Qed.

End RoundTrip.

Section Reading.

Import MultipartReader.

Lemma split_at_char (c0 : ascii) (s r : str) :
  c0 ∉ s -> split_at [c0] (s ++ [c0] ++ r) = Some (s, r).
Proof.
  intros H. apply split_at_first; [apply not_elem_of_nil|].
  by apply absent_head_contains.
Qed.

Lemma split_at_line_end (s r : str) :
  contains CRLF s = false -> split_at CRLF (s ++ CRLF ++ r) = Some (s, r).
Proof. intros H. apply split_at_first; [absent_by_computation|done]. Qed.

(** *** Lines of text *)

Lemma text_without_line_end (line : str) :
  forallb is_text line = true -> contains CRLF line = false.
Proof.
  intros H. apply absent_head_contains. intros Hin.
  rewrite forallb_forall in H. apply list_elem_of_In, H in Hin. done.
Qed.

Lemma vchar_not_wsp (c : ascii) : is_vchar c = true -> is_wsp c = false.
Proof.
  unfold is_vchar, is_wsp. intros H.
  apply andb_true_iff in H as [H1 H2].
  apply N.leb_le in H1. apply orb_false_iff.
  split; apply N.eqb_neq; lia.
Qed.

Lemma header_lines_spec (lines : list str) (r : str) (fuel : nat) :
  Forall (fun line => line <> [] /\ contains CRLF line = false) lines ->
  (length lines < fuel)%nat ->
  header_lines fuel (concat (map (fun line => line ++ CRLF) lines)
                     ++ CRLF ++ r)
  = Some (lines, r).
Proof.
  intros H. revert fuel.
  induction H as [|line lines [Hne Hline] _ IH]; intros fuel Hfuel.
  - destruct fuel as [|fuel]; [simpl in Hfuel; lia|].
    cbn [map concat header_lines]. change ([] ++ CRLF ++ r) with (CRLF ++ r).
    by rewrite split_at_unfold, strip_prefix_app.
  - destruct fuel as [|fuel]; [simpl in Hfuel; lia|].
    cbn [map concat header_lines]. rewrite <- !app_assoc.
    rewrite (split_at_line_end line) by done.
    rewrite IH by (simpl in Hfuel; lia).
    by destruct line.
Qed.

Lemma unfold_lines_plain (lines : list str) :
  Forall (fun line => exists c rest, line = c :: rest /\ is_wsp c = false)
         lines ->
  unfold_lines lines = ([], lines).
Proof.
  induction 1 as [|line lines (c & rest & -> & Hc) _ IH]; [done|].
  cbn [unfold_lines]. rewrite IH, Hc. by rewrite app_nil_r.
Qed.

(** *** Fields *)

Lemma trim_between (c c' : ascii) (s : str) :
  is_wsp c = false -> is_wsp c' = false ->
  trim (c :: s ++ [c']) = c :: s ++ [c'].
Proof.
  intros Hc Hc'. unfold trim. cbn [skip_wsp]. rewrite Hc.
  change (c :: s ++ [c']) with ((c :: s) ++ [c']).
  rewrite rev_unit. cbn [skip_wsp]. rewrite Hc'.
  by rewrite <- rev_unit, rev_involutive.
Qed.

Lemma parse_field_entry (e : str * str) :
  plain_entry e -> parse_field (field_line e) = Some e.
Proof.
  destruct e as [k v]. unfold plain_entry, plain_line, field_line.
  cbn [fst snd]. intros (Hne & Hk & Hcolon & _ & _ & Hv & Htext & Hword).
  unfold parse_field. rewrite Htext, Hword. cbn [andb negb].
  change (k ++ lit ": " ++ v) with (k ++ [COLON] ++ (SP :: v)).
  rewrite split_at_char by done.
  rewrite bool_decide_eq_false_2 by done. rewrite Hk. cbn [andb negb].
  change (trim (SP :: v)) with (trim v). by rewrite Hv.
Qed.

Lemma parse_fields_entries (entries : StdMap.entries) :
  Forall plain_entry entries ->
  parse_fields (map field_line entries) = Some entries.
Proof.
  induction 1 as [|e entries He _ IH]; [done|].
  cbn [map parse_fields]. by rewrite parse_field_entry, IH.
Qed.

Lemma spec_disposition_field (seg : DataSegment) :
  spec_disposition seg
  = lit "Content-Disposition" ++ [COLON] ++ (SP :: disposition_body seg).
Proof. done. Qed.

Lemma disposition_body_ends (seg : DataSegment) :
  exists s, disposition_body seg = "f"%char :: s ++ [DQUOTE].
Proof.
  unfold disposition_body. case_bool_decide.
  - exists (lit "orm-data; name=" ++ [DQUOTE] ++ GetName seg).
    by rewrite app_nil_r, <- !app_assoc.
  - exists (lit "orm-data; name=" ++ [DQUOTE] ++ GetName seg ++ [DQUOTE]
            ++ lit "; filename=" ++ [DQUOTE] ++ GetFilename seg).
    by rewrite <- !app_assoc.
Qed.

Lemma parse_field_disposition (seg : DataSegment) :
  plain_line (spec_disposition seg) ->
  parse_field (spec_disposition seg)
  = Some (lit "Content-Disposition", disposition_body seg).
Proof.
  intros [Htext Hword]. unfold parse_field. rewrite Htext, Hword.
  cbn [andb negb]. rewrite spec_disposition_field.
  rewrite split_at_char by absent_by_computation.
  destruct (disposition_body_ends seg) as [s ->].
  change (trim (SP :: "f"%char :: s ++ [DQUOTE]))
    with (trim ("f"%char :: s ++ [DQUOTE])).
  by rewrite trim_between.
Qed.

(** *** The disposition *)

Lemma quoted_plain (s r : str) :
  DQUOTE ∉ s -> BACKSLASH ∉ s -> quoted (s ++ DQUOTE :: r) = Some (s, r).
Proof.
  induction s as [|c s IH]; intros Hq Hb.
  - cbn. by rewrite bool_decide_eq_true_2.
  - cbn [app quoted].
    rewrite bool_decide_eq_false_2 by (intros ->; apply Hq; by left).
    rewrite bool_decide_eq_false_2 by (intros ->; apply Hb; by left).
    rewrite IH; [done| |]; intros Hin; [apply Hq|apply Hb]; by right.
Qed.

Lemma parameters_name (fuel : nat) (r : str) :
  parameters (S fuel) (lit "; name=" ++ DQUOTE :: r)
  = match quoted r with
    | Some (v, s4) =>
        match parameters fuel s4 with
        | Some ps => Some ((lit "name", v) :: ps)
        | None => None
        end
    | None => None
    end.
Proof. reflexivity. Qed.

Lemma parameters_filename (fuel : nat) (r : str) :
  parameters (S fuel) (lit "; filename=" ++ DQUOTE :: r)
  = match quoted r with
    | Some (v, s4) =>
        match parameters fuel s4 with
        | Some ps => Some ((lit "filename", v) :: ps)
        | None => None
        end
    | None => None
    end.
Proof. reflexivity. Qed.

Lemma parse_disposition_spec (seg : DataSegment) :
  (DQUOTE ∉ GetName seg) -> (BACKSLASH ∉ GetName seg) ->
  (DQUOTE ∉ GetFilename seg) -> (BACKSLASH ∉ GetFilename seg) ->
  parse_disposition (disposition_body seg)
  = Some (GetName seg, GetFilename seg).
Proof.
  intros Hn Hn' Hf Hf'. unfold parse_disposition, disposition_body.
  set (tail := if bool_decide (GetFilename seg = []) then [] else _).
  change (token (lit "form-data; name=" ++ [DQUOTE] ++ GetName seg
                 ++ [DQUOTE] ++ tail))
    with (lit "form-data",
          lit "; name=" ++ DQUOTE :: (GetName seg ++ DQUOTE :: tail)).
  change (same_name (lit "form-data") (lit "form-data")) with true.
  cbv iota. rewrite parameters_name, quoted_plain by done.
  subst tail. case_bool_decide as E.
  - rewrite E. rewrite !length_app. cbn [length].
    rewrite Nat.add_succ_r. done.
  - destruct (length _) as [|fuel] eqn:El.
    { simpl in El. rewrite !length_app in El. simpl in El. lia. }
    change (lit "; filename=" ++ [DQUOTE] ++ GetFilename seg ++ [DQUOTE])
      with (lit "; filename=" ++ DQUOTE :: (GetFilename seg ++ DQUOTE :: [])).
    rewrite parameters_filename, quoted_plain by done.
    destruct fuel as [|fuel].
    { simpl in El. rewrite !length_app in El. simpl in El. lia. }
    done.
Qed.

Lemma filter_entries (entries : StdMap.entries) :
  Forall plain_entry entries ->
  existsb governs_data entries = false
  /\ List.filter is_disposition entries = []
  /\ List.filter (fun field => negb (is_disposition field)) entries
     = entries.
Proof.
  induction 1 as [|e entries (_ & _ & _ & Hd & Hg & _) _ (IH0 & IH1 & IH2)];
    [done|].
  assert (Hd' : is_disposition e = false) by exact Hd.
  cbn [List.filter existsb]. rewrite Hd', Hg, IH0. cbn [negb orb].
  by rewrite IH1, IH2.
Qed.

Lemma parse_part_headers_spec (seg : DataSegment) :
  plain_headers seg ->
  parse_part_headers
    (spec_disposition seg
     :: map field_line (StdMap.iterate (GetHeaderEntries seg)))
  = Some (GetName seg, GetFilename seg,
          StdMap.iterate (GetHeaderEntries seg)).
Proof.
  intros (Hn & Hn' & Hf & Hf' & Hline & He). unfold parse_part_headers.
  rewrite unfold_lines_plain.
  2:{ constructor; [by eexists _, _|].
      apply Forall_map, (Forall_impl _ _ _ He).
      intros [k v] (Hne & Hk & _). unfold field_line. cbn [fst snd] in *.
      destruct k as [|c k]; [done|]. eexists _, _. split; [done|].
      apply vchar_not_wsp. cbn [forallb] in Hk.
      by apply andb_true_iff in Hk as [? _]. }
  cbn [parse_fields].
  rewrite parse_field_disposition, parse_fields_entries by done.
  destruct (filter_entries _ He) as (F0 & F1 & F2).
  cbn [existsb]. rewrite F0.
  change (governs_data (lit "Content-Disposition", disposition_body seg))
    with false.
  cbn [orb]. cbn [List.filter]. unfold is_disposition at 1 3. cbn [fst].
  change (same_name (lit "Content-Disposition") (lit "Content-Disposition"))
    with true.
  cbv iota. cbn [negb]. rewrite F1, F2. cbn [snd].
  by rewrite parse_disposition_spec.
Qed.

Lemma lines_length (lines : list str) :
  (length lines
   <= length (concat (map (fun line => line ++ CRLF) lines)))%nat.
Proof.
  induction lines as [|line lines IH]; cbn [map concat length]; [lia|].
  rewrite !length_app. simpl. lia.
Qed.

Lemma header_block_plain (seg : DataSegment) :
  plain_headers seg ->
  Forall (fun line => line <> [] /\ contains CRLF line = false)
         (spec_disposition seg
          :: map field_line (StdMap.iterate (GetHeaderEntries seg))).
Proof.
  intros (_ & _ & _ & _ & [Hline _] & He). constructor.
  - split; [by rewrite spec_disposition_field|].
    by apply text_without_line_end.
  - apply Forall_map, (Forall_impl _ _ _ He).
    intros [k v] (Hne & _ & _ & _ & _ & _ & Htext & _).
    unfold field_line in *. cbn [fst snd] in *. split.
    + by destruct k.
    + by apply text_without_line_end.
Qed.

Variable b : str.
Hypothesis boundary_without_CR : CR ∉ b.

Lemma after_delimiter_length (segs : list DataSegment) :
  (length segs < length (after_delimiter b segs))%nat.
Proof.
  induction segs as [|seg segs IH]; cbn [after_delimiter length].
  - simpl. lia.
  - rewrite !length_app. simpl. lia.
Qed.

Lemma header_block_lines (seg : DataSegment) (r : str) :
  spec_part_content seg ++ r
  = concat (map (fun line => line ++ CRLF)
                (spec_disposition seg
                 :: map field_line (StdMap.iterate (GetHeaderEntries seg))))
    ++ CRLF ++ GetData seg ++ r.
Proof.
  assert (E : forall entries : StdMap.entries,
            concat (map (fun line => line ++ CRLF) (map field_line entries))
            = concat (map spec_header_line entries)).
  { induction entries as [|e entries IH]; [done|].
    cbn [map concat]. rewrite IH. unfold spec_header_line, field_line.
    by rewrite <- !app_assoc. }
  unfold spec_part_content. cbn [map concat]. rewrite E.
  by rewrite <- !app_assoc.
Qed.

Lemma parse_parts_spec (segs : list DataSegment) (fuel : nat) :
  Forall (delimiter_free b) segs ->
  Forall plain_headers segs ->
  Forall (plain_data b) segs ->
  (length segs < fuel)%nat ->
  parse_parts fuel b (after_delimiter b segs)
  = Some (map part_of_segment segs).
Proof.
  intros Hfree. revert fuel.
  induction Hfree as [|seg segs Hseg _ IH]; intros fuel Hplain Hdata Hfuel.
  - destruct fuel as [|fuel]; [simpl in Hfuel; lia|]. done.
  - destruct fuel as [|fuel]; [simpl in Hfuel; lia|].
    apply Forall_cons in Hplain as [Hp Hplain].
    apply Forall_cons in Hdata as [Hd Hdata].
    cbn [after_delimiter parse_parts map].
    change (strip_prefix (lit "--") (CRLF ++ ?s)) with (@None str).
    change (skip_wsp (CRLF ++ ?s)) with (CRLF ++ s).
    rewrite strip_prefix_app, header_block_lines.
    rewrite header_lines_spec.
    2: by apply header_block_plain.
    2:{ rewrite !length_app.
        pose proof (lines_length
                      (spec_disposition seg
                       :: map field_line
                            (StdMap.iterate (GetHeaderEntries seg)))).
        lia. }
    rewrite parse_part_headers_spec by done.
    rewrite (delimiter_cons b) at 1.
    rewrite split_at_first.
    + unfold plain_data in Hd. rewrite Hd.
      rewrite IH; [done|done|done|simpl in Hfuel; lia].
    + by apply delimiter_tail_without_CR.
    + rewrite <- delimiter_cons.
      unfold delimiter_free, spec_part_content in Hseg.
      rewrite !app_assoc in Hseg.
      by apply contains_app_r_false in Hseg.
Qed.

Lemma parse_spec_body (segs : list DataSegment) :
  segs <> [] ->
  valid_boundary b = true ->
  Forall (delimiter_free b) segs ->
  Forall plain_headers segs ->
  Forall (plain_data b) segs ->
  parse b (spec_body b segs) = Some (map part_of_segment segs).
Proof.
  intros Hne Hb Hfree Hplain Hdata. unfold parse. rewrite Hb. cbn [negb].
  rewrite spec_body_after, app_assoc, strip_prefix_app.
  rewrite parse_parts_spec; [by destruct segs|done|done|done|].
  pose proof (after_delimiter_length segs). lia.
Qed.

End Reading.

(** ** The state machine: what every reachable job satisfies *)

Section Invariant.

Lemma count_app (p : Call -> bool) (tr1 tr2 : list Call) :
  count p (tr1 ++ tr2) = (count p tr1 + count p tr2)%nat.
Proof. induction tr1 as [|c tr1 IH]; simpl; [done|]. rewrite IH. lia. Qed.

Lemma count_delegate_calls (tr : list Call) :
  count is_delegate_call tr
  = (count is_OnSuccess tr + count is_OnFailure tr)%nat.
Proof.
  induction tr as [|c tr IH]; [done|]. destruct c; simpl; rewrite IH; lia.
Qed.

Lemma Inv_new_world (url : GURL) (account : str) (gen : nat -> str) :
  Inv (new_world url account gen).
Proof.
  unfold Inv, outstanding, quiescent, unassembled, assembled, new_world,
    UploadJobImpl_ctor.
  destruct (is_valid url) eqn:E; simpl; rewrite ?E; simpl;
    unfold kMaxAttempts;
    repeat split; try done; try lia; intros; try done; auto.
Qed.

End Invariant.

Ltac world_fields w :=
  destruct w as [[url acct st rt req tok fet mb pd segs] tr ts gen ng delay].

Ltac case_leb :=
  match goal with
  | |- context [?a <=? ?b] => destruct (Z.leb_spec a b)
  end.

Ltac crush :=
  cbn in *; rewrite ?count_app in *; cbn in *; unfold kMaxAttempts in *;
  intuition (subst; cbn in *; try done; try lia; try congruence; eauto).

(** A state whose description of what is outstanding contradicts the
    hypothesis at hand. *)
Ltac wrong_state Hout :=
  exfalso; cbn in Hout; unfold quiescent in Hout; cbn in Hout;
  intuition congruence.

Section Preservation.

Lemma step_Inv (e : Event) (w w' : World) :
  Inv w -> step e w = Some w' -> Inv w'.
Proof.
  world_fields w. unfold Inv, outstanding, quiescent, unassembled, assembled.
  cbn [job trace tasks boundary_generator_ boundaries_generated state_ retry_
       access_token_request_ access_token_ upload_fetcher_ mime_boundary_
       post_data_ data_segments_].
  intros (Hr & Hup & Hnt & Hsegs & Hmb0 & Hmb1 & Hout) Hstep.
  destruct e; cbn in Hstep.
  - (* AddDataSegment *)
    injection Hstep as <-. unfold AddDataSegment. cbn.
    case_bool_decide as Hs; cbn; [done|].
    assert (st = IDLE) as ->
      by (by destruct (decide (st = IDLE)); [|destruct Hs]).
    cbn in *. intuition (try done).
  - (* Start *)
    injection Hstep as <-. unfold Start. cbn.
    case_bool_decide as Hs; cbn; [done|].
    assert (st = IDLE) as ->
      by (by destruct (decide (st = IDLE)); [|destruct Hs]).
    cbn in *. rewrite !count_app. cbn.
    destruct Hout as ((-> & -> & ->) & -> & -> & -> & ->). cbn.
    unfold kMaxAttempts. intuition (try done; try lia).
  - (* OnGetTokenSuccess *)
    destruct req as [r|]; [|done]. injection Hstep as <-.
    destruct st; try wrong_state Hout.
    unfold OnGetTokenSuccess, StartUpload, SetUpMultipart. cbn.
    destruct mb as [b|], pd as [body|]; cbn.
    + crush.
    + destruct (names_unique ∅ segs) eqn:Hu; crush.
    + destruct (names_unique ∅ segs) eqn:Hu; crush.
    + destruct (names_unique ∅ segs) eqn:Hu; crush.
  - (* OnGetTokenFailure *)
    destruct req as [r|]; [|done]. injection Hstep as <-.
    destruct st; try wrong_state Hout.
    unfold OnGetTokenFailure, HandleError. cbn.
    case_leb; [|case_bool_decide; try done]; crush.
  - (* OnURLFetchComplete *)
    destruct fet as [f|]; [|done]. injection Hstep as <-.
    destruct st; try wrong_state Hout.
    unfold OnURLFetchComplete, HandleError. cbn.
    destruct status_is_success; cbn.
    + destruct (response_code =? HTTP_OK) eqn:E200; cbn; [crush|].
      destruct (response_code =? HTTP_UNAUTHORIZED) eqn:E401; cbn;
        (case_leb; [|case_bool_decide; try done]; crush).
    + case_leb; [|case_bool_decide; try done]; crush.
  - (* a delayed task *)
    destruct st; cbn in Hout.
    1,3,5,6: by (destruct Hout as ((_ & _ & ->) & _) || destruct Hout).
    + destruct Hout
        as (-> & [(_ & ->)|[(-> & d & ->)|(-> & (Hm & Hp) & d & ->)]]);
        [done| |]; (destruct i as [|i]; [|done]); injection Hstep as <-.
      * unfold run_task, RequestAccessToken. crush.
      * destruct mb as [b|]; [|done]. destruct pd as [body|]; [|done].
        unfold run_task, StartUpload, SetUpMultipart. crush.
    + destruct Hout as (-> & (Hm & Hp) & [(_ & ->)|(-> & d & ->)]);
        [done|]; (destruct i as [|i]; [|done]); injection Hstep as <-.
      unfold run_task, RequestAccessToken. crush.
Qed.

Lemma run_Inv (events : list Event) (w w' : World) :
  Inv w -> run events w = Some w' -> Inv w'.
Proof.
  revert w. induction events as [|e events IH]; intros w HI; simpl.
  - by intros [= <-].
  - destruct (step e w) as [w1|] eqn:E; [|done].
    apply IH. by apply (step_Inv e w).
Qed.

Lemma reachable_Inv (url : GURL) (account : str) (gen : nat -> str)
    (events : list Event) (w : World) :
  run events (new_world url account gen) = Some w -> Inv w.
Proof. apply run_Inv, Inv_new_world. Qed.

Lemma run_app (events1 events2 : list Event) (w : World) :
  run (events1 ++ events2) w
  = match run events1 w with
    | Some w1 => run events2 w1
    | None => None
    end.
Proof.
  revert w. induction events1 as [|e events1 IH]; intros w; simpl; [done|].
  by destruct (step e w).
Qed.

End Preservation.

(** ** Terminal states *)

Ltac extends_trace :=
  cbn; eexists;
  first [ rewrite <- ?app_assoc; reflexivity | symmetry; apply app_nil_r ].

Section Terminal.

Lemma outside_IDLE_AddDataSegment (w : World) (name filename : str)
    (header_entries : StdMap.t) (data : str) :
  state_ (job w) <> IDLE ->
  AddDataSegment name filename header_entries data w = w.
Proof. intros H. unfold AddDataSegment. by rewrite bool_decide_eq_true_2. Qed.

Lemma outside_IDLE_Start (w : World) :
  state_ (job w) <> IDLE -> Start w = w.
Proof. intros H. unfold Start. by rewrite bool_decide_eq_true_2. Qed.

Lemma terminal_not_IDLE (w : World) :
  terminal (state_ (job w)) = true -> state_ (job w) <> IDLE.
Proof. by destruct (state_ (job w)). Qed.

Lemma terminal_quiescent (w : World) :
  Inv w -> terminal (state_ (job w)) = true -> quiescent w.
Proof.
  intros (_ & _ & _ & _ & _ & _ & Hout) Ht. unfold outstanding in Hout.
  destruct (state_ (job w)); try done; by destruct Hout.
Qed.

Lemma terminal_step (e : Event) (w w' : World) :
  Inv w -> terminal (state_ (job w)) = true -> step e w = Some w' -> w' = w.
Proof.
  intros HI Ht Hstep.
  destruct (terminal_quiescent w HI Ht) as (Hreq & Hfet & Hts).
  pose proof (terminal_not_IDLE w Ht) as Hs.
  destruct e; cbn in Hstep.
  - rewrite outside_IDLE_AddDataSegment in Hstep by done. congruence.
  - rewrite outside_IDLE_Start in Hstep by done. congruence.
  - by rewrite Hreq in Hstep.
  - by rewrite Hreq in Hstep.
  - by rewrite Hfet in Hstep.
  - by rewrite Hts in Hstep.
Qed.

Lemma terminal_run (events : list Event) (w w' : World) :
  Inv w -> terminal (state_ (job w)) = true -> run events w = Some w' -> w' = w.
Proof.
  intros HI Ht. induction events as [|e events IH]; simpl.
  - congruence.
  - destruct (step e w) as [w1|] eqn:E; [|done].
    apply terminal_step in E; [|done|done]. subst w1. exact IH.
Qed.

(** Every step only appends to the trace. *)
Lemma step_trace (e : Event) (w w' : World) :
  step e w = Some w' -> exists calls, trace w' = trace w ++ calls.
Proof.
  world_fields w. intros Hstep.
  destruct e; cbn in Hstep.
  - injection Hstep as <-. unfold AddDataSegment.
    case_bool_decide; extends_trace.
  - injection Hstep as <-. unfold Start, RequestAccessToken.
    case_bool_decide; extends_trace.
  - destruct req; [|done]. injection Hstep as <-.
    unfold OnGetTokenSuccess, StartUpload, SetUpMultipart. cbn.
    destruct mb, pd; cbn; try (destruct (names_unique ∅ segs); cbn);
      extends_trace.
  - destruct req; [|done]. injection Hstep as <-.
    unfold OnGetTokenFailure, HandleError. cbn.
    case_leb; [|case_bool_decide]; extends_trace.
  - destruct fet; [|done]. injection Hstep as <-.
    unfold OnURLFetchComplete, HandleError. cbn.
    destruct status_is_success; cbn;
      [destruct (response_code =? HTTP_OK); cbn;
       [|destruct (response_code =? HTTP_UNAUTHORIZED); cbn]|];
      try (case_leb; [|case_bool_decide]); extends_trace.
  - cbn in Hstep. destruct (ts !! i) as [[t d]|]; [|done].
    injection Hstep as <-.
    destruct t;
      unfold run_task, RequestAccessToken, StartUpload, SetUpMultipart; cbn.
    + extends_trace.
    + destruct mb, pd; cbn; try (destruct (names_unique ∅ segs); cbn);
        extends_trace.
Qed.

End Terminal.

(** ** Misuse of the public interface

    C8. Outside IDLE, [AddDataSegment] and [Start] change nothing: neither
    the job (its state, its segments, the fetcher in flight) nor what was
    asked of its collaborators. A job that has reached SUCCESS or ERROR
    stays as it is whatever happens next, so it is never restarted. *)
Theorem no_op_outside_IDLE (w : World) (name filename : str)
    (header_entries : StdMap.t) (data : str) :
  state_ (job w) <> IDLE ->
  AddDataSegment name filename header_entries data w = w
  /\ Start w = w
  /\ (forall url account gen events,
        run events (new_world url account gen) = Some w ->
        terminal (state_ (job w)) = true ->
        forall events' w', run events' w = Some w' -> w' = w).
Proof.
  intros Hs. split; [by apply outside_IDLE_AddDataSegment|].
  split; [by apply outside_IDLE_Start|].
  intros url account gen events Hrun Ht events' w' Hrun'.
  apply (terminal_run events'); [|done|done].
  by apply reachable_Inv in Hrun.
Qed.

(** ** Delegate notifications

    C9. In every execution, [OnSuccess] and [OnFailure] are each called at
    most once, never while the job is in a non-terminal state; a step whose
    calls include a delegate call leads from a non-terminal state into a
    terminal one; and a step taken in a terminal state changes nothing, so
    there is no further transition and no further delegate call. *)
Theorem delegate_notified_once_on_termination (url : GURL) (account : str)
    (gen : nat -> str) (events : list Event) (w : World) :
  run events (new_world url account gen) = Some w ->
  (count is_OnSuccess (trace w) <= 1)%nat
  /\ (count is_OnFailure (trace w) <= 1)%nat
  /\ (terminal (state_ (job w)) = false ->
      count is_delegate_call (trace w) = 0%nat)
  /\ forall e w', step e w = Some w' ->
       (exists calls, trace w' = trace w ++ calls
          /\ (count is_delegate_call calls <> 0%nat ->
                terminal (state_ (job w)) = false
                /\ terminal (state_ (job w')) = true))
       /\ (terminal (state_ (job w)) = true -> w' = w).
Proof.
  intros Hrun. apply reachable_Inv in Hrun as HI.
  assert (Hcounts : forall w, Inv w ->
            (count is_OnSuccess (trace w) <= 1)%nat
            /\ (count is_OnFailure (trace w) <= 1)%nat
            /\ (terminal (state_ (job w)) = false ->
                count is_delegate_call (trace w) = 0%nat)).
  { clear. intros w (_ & _ & Hnt & _ & _ & _ & Hout).
    rewrite count_delegate_calls. unfold outstanding in Hout.
    destruct (state_ (job w)); cbn in *; intuition lia. }
  destruct (Hcounts w HI) as (H1 & H2 & H3).
  repeat split; try done.
  - destruct (step_trace e w w' H) as [calls Hcalls].
    exists calls. split; [done|]. intros Hd.
    destruct (terminal (state_ (job w))) eqn:Ht.
    + apply terminal_step in H; [|done|done]. subst w'.
      apply (f_equal length) in Hcalls. rewrite length_app in Hcalls.
      destruct calls; [done|simpl in Hcalls; lia].
    + split; [done|].
      destruct (terminal (state_ (job w'))) eqn:Ht'; [done|].
      pose proof (step_Inv e w w' HI H) as HI'.
      destruct (Hcounts w' HI') as (_ & _ & H3').
      specialize (H3' Ht').
      rewrite Hcalls, count_app in H3'. lia.
  - intros Ht. by apply (terminal_step e).
Qed.

(** ** Runs of a fresh job *)

Section Runs.

Lemma run_add_segments (added : list DataSegment) (w : World) :
  state_ (job w) = IDLE ->
  run (map add_segment added) w
  = Some (on_job (fun j => set_data_segments (data_segments_ j ++ added) j)
                 w).
Proof.
  revert w. induction added as [|seg added IH]; intros w Hs.
  - world_fields w. unfold on_job, set_data_segments. cbn.
    by rewrite app_nil_r.
  - cbn [map run step add_segment]. unfold AddDataSegment.
    rewrite bool_decide_eq_false_2 by (by intros H; apply H).
    rewrite IH by (by world_fields w).
    world_fields w. destruct seg. unfold on_job, set_data_segments. cbn.
    by rewrite <- app_assoc.
Qed.

Lemma in_flight_UPLOADING (w : World) :
  Inv w -> upload_fetcher_ (job w) <> None ->
  state_ (job w) = UPLOADING
  /\ retry_ (job w) < kMaxAttempts
  /\ count is_OnSuccess (trace w) = 0%nat
  /\ tasks w = []
  /\ access_token_request_ (job w) = None
  /\ exists b body,
       mime_boundary_ (job w) = Some b /\ post_data_ (job w) = Some body.
Proof.
  intros (_ & _ & Hnt & _ & _ & _ & Hout) Hf.
  unfold outstanding, quiescent, assembled in Hout.
  destruct (state_ (job w)); cbn in *; try (exfalso; intuition congruence).
  destruct (mime_boundary_ (job w)) as [b|], (post_data_ (job w)) as [body|];
    intuition (try congruence; eauto).
Qed.

Lemma new_world_valid (upload_url : GURL) (account_id : str)
    (generator : nat -> str) :
  is_valid upload_url = true ->
  new_world upload_url account_id generator
  = {| job := {| upload_url_ := upload_url; account_id_ := account_id;
                 state_ := IDLE; retry_ := 0;
                 access_token_request_ := None; access_token_ := [];
                 upload_fetcher_ := None;
                 mime_boundary_ := None; post_data_ := None;
                 data_segments_ := [] |};
       trace := []; tasks := [];
       boundary_generator_ := generator;
       boundaries_generated := 0%nat;
       g_retry_delay_ms := default_retry_delay_ms |}.
Proof.
  intros H. unfold new_world, UploadJobImpl_ctor. cbn [upload_url_].
  by rewrite H.
Qed.

End Runs.

(** ** The attempt budget

    C2. A job makes at most [kMaxAttempts] (4) uploads. [retry_] grows by one
    with every [HandleError], whatever the error, and stays within 0..4;
    when it reaches 4 the job enters ERROR, tells the delegate the error and
    schedules nothing. In particular, after [Start], four token-fetch
    failures in a row (the delayed retries run in between) leave the job in
    ERROR with exactly one [OnFailure(AUTHENTICATION_ERROR)], no
    [OnSuccess] and no upload. *)
Theorem attempts_bounded_by_kMaxAttempts (upload_url : GURL)
    (account_id : str) (generator : nat -> str) (events : list Event)
    (w : World) (error_code : ErrorCode) :
  run events (new_world upload_url account_id generator) = Some w ->
  (count is_upload (trace w) <= Z.to_nat kMaxAttempts)%nat
  /\ 0 <= retry_ (job w) <= kMaxAttempts
  /\ retry_ (job (HandleError error_code w)) = retry_ (job w) + 1
  /\ (kMaxAttempts <= retry_ (job w) + 1 ->
      state_ (job (HandleError error_code w)) = ERROR
      /\ trace (HandleError error_code w)
         = trace w ++ [Delegate_OnFailure error_code]
      /\ tasks (HandleError error_code w) = tasks w)
  /\ (is_valid upload_url = true ->
      forall added : list DataSegment,
      exists w4,
        run (map add_segment added
             ++ [CallStart; TokenFailure; RunDelayedTask 0;
                 TokenFailure; RunDelayedTask 0;
                 TokenFailure; RunDelayedTask 0; TokenFailure])
            (new_world upload_url account_id generator) = Some w4
        /\ state_ (job w4) = ERROR
        /\ count is_OnFailure (trace w4) = 1%nat
        /\ Delegate_OnFailure AUTHENTICATION_ERROR ∈ trace w4
        /\ count is_OnSuccess (trace w4) = 0%nat
        /\ count is_upload (trace w4) = 0%nat).
Proof.
  intros Hrun. apply reachable_Inv in Hrun as (Hr & Hup & _).
  split; [exact Hup|]. split; [exact Hr|].
  split; [|split].
  - world_fields w. unfold HandleError. cbn.
    case_leb; [|case_bool_decide]; done.
  - intros Hmax. world_fields w. unfold HandleError. cbn in *.
    case_leb; [done|lia].
  - intros Hvalid added.
    rewrite (new_world_valid _ _ _ Hvalid).
    rewrite run_app, run_add_segments by done.
    eexists. split; [vm_compute; reflexivity|].
    split; [done|]. split; [done|]. split; [|done].
    apply list_elem_of_In. vm_compute. tauto.
Qed.

(** ** Interpreting the response

    C6. When the fetcher in flight completes with a response, the job
    reaches SUCCESS exactly when the response code is 200; it then clears
    the token, drops the body and the fetcher, and calls [OnSuccess], the
    one such call of the job's life. A 401 is handled as
    AUTHENTICATION_ERROR, every other code as SERVER_ERROR, a transport
    failure as NETWORK_ERROR, and no handled error leads to SUCCESS. *)
Theorem success_only_on_HTTP_OK (upload_url : GURL) (account_id : str)
    (generator : nat -> str) (events : list Event) (w : World)
    (response_code : Z) :
  run events (new_world upload_url account_id generator) = Some w ->
  upload_fetcher_ (job w) <> None ->
  let w' := OnURLFetchComplete true response_code w in
  step (FetchComplete true response_code) w = Some w'
  /\ (state_ (job w') = SUCCESS <-> response_code = 200)
  /\ (response_code = 200 ->
      access_token_ (job w') = [] /\ post_data_ (job w') = None
      /\ upload_fetcher_ (job w') = None
      /\ trace w' = trace w ++ [Delegate_OnSuccess]
      /\ count is_OnSuccess (trace w') = 1%nat
      /\ tasks w' = [])
  /\ (response_code = 401 -> w' = HandleError AUTHENTICATION_ERROR w)
  /\ (response_code <> 200 -> response_code <> 401 ->
      w' = HandleError SERVER_ERROR w)
  /\ (forall error_code, state_ (job (HandleError error_code w)) <> SUCCESS)
  /\ OnURLFetchComplete false response_code w = HandleError NETWORK_ERROR w.
Proof.
  intros Hrun Hf w'. apply reachable_Inv in Hrun.
  destruct (in_flight_UPLOADING w Hrun Hf)
    as (Hs & Hr & Hok & Hts & Hreq & b & body & Hb & Hbody).
  assert (Herr : forall error_code,
            state_ (job (HandleError error_code w)) <> SUCCESS).
  { intros error_code. world_fields w. cbn in Hs. subst st.
    unfold HandleError. cbn. case_leb; [|case_bool_decide]; done. }
  split.
  { cbn. by destruct (upload_fetcher_ (job w)). }
  unfold w', OnURLFetchComplete, HTTP_OK, HTTP_UNAUTHORIZED. cbn [negb].
  destruct (Z.eqb_spec response_code 200) as [->|H200]; cbn.
  - repeat split; try done. by rewrite count_app, Hok.
  - destruct (Z.eqb_spec response_code 401) as [->|H401].
    + repeat split; try done. by intros ?%Herr.
    + repeat split; try done. by intros ?%Herr.
Qed.


Section AssemblyOutcome.

Lemma SetUpMultipart_cached (w : World) (b body : str) :
  mime_boundary_ (job w) = Some b -> post_data_ (job w) = Some body ->
  SetUpMultipart w = (true, on_job (set_state PREPARING_CONTENT) w).
Proof. world_fields w. cbn. by intros -> ->. Qed.

Lemma SetUpMultipart_duplicate (w : World) :
  mime_boundary_ (job w) = None \/ post_data_ (job w) = None ->
  names_unique ∅ (data_segments_ (job w)) = false ->
  SetUpMultipart w = (false, on_job (set_state PREPARING_CONTENT) w).
Proof.
  world_fields w. unfold SetUpMultipart. cbn. intros Hc ->.
  destruct mb, pd; try done. by destruct Hc.
Qed.

Lemma SetUpMultipart_fresh (w : World) :
  mime_boundary_ (job w) = None \/ post_data_ (job w) = None ->
  names_unique ∅ (data_segments_ (job w)) = true ->
  let b := boundary_generator_ w (boundaries_generated w) in
  SetUpMultipart w
  = (true,
     on_job (set_data_segments [])
       (on_job (set_post_data (Some (spec_body b (data_segments_ (job w)))))
          (on_job (set_mime_boundary (Some b))
             (GenerateBoundary (on_job (set_state PREPARING_CONTENT) w)).2))).
Proof.
  world_fields w. unfold SetUpMultipart. cbn. intros Hc ->.
  unfold spec_body. rewrite fold_append_segment. cbn.
  destruct mb, pd; try done. by destruct Hc.
Qed.

End AssemblyOutcome.

(** ** Duplicate names

    C4. When two of the segments share a name, assembly fails before
    anything is produced: [SetUpMultipart] returns false with boundary and
    body untouched and no boundary generated, and [StartUpload] leaves the
    job in ERROR with [retry_], the posted tasks and the trace (hence the
    delegate) untouched. For a fresh job with a valid URL: after adding
    such segments, [Start] and a token, the job is in ERROR and its only
    call was the token request. *)
Theorem duplicate_names_end_in_ERROR (added : list DataSegment) :
  ~ NoDup (map GetName added) ->
  (forall w : World,
     data_segments_ (job w) = added ->
     mime_boundary_ (job w) = None \/ post_data_ (job w) = None ->
     SetUpMultipart w = (false, on_job (set_state PREPARING_CONTENT) w)
     /\ StartUpload w = on_job (set_state ERROR) w
     /\ state_ (job (StartUpload w)) = ERROR
     /\ mime_boundary_ (job (StartUpload w)) = mime_boundary_ (job w)
     /\ post_data_ (job (StartUpload w)) = post_data_ (job w)
     /\ boundaries_generated (StartUpload w) = boundaries_generated w
     /\ retry_ (job (StartUpload w)) = retry_ (job w)
     /\ tasks (StartUpload w) = tasks w
     /\ trace (StartUpload w) = trace w)
  /\ (forall upload_url account_id generator access_token,
        is_valid upload_url = true ->
        exists w',
          run (map add_segment added ++ [CallStart; TokenSuccess access_token])
              (new_world upload_url account_id generator) = Some w'
          /\ state_ (job w') = ERROR
          /\ mime_boundary_ (job w') = None
          /\ post_data_ (job w') = None
          /\ boundaries_generated w' = 0%nat
          /\ retry_ (job w') = 0
          /\ tasks w' = []
          /\ trace w'
             = [TokenService_StartRequest account_id
                  [kDeviceManagementServiceOAuth]]).
Proof.
  intros Hdup.
  assert (Hu : names_unique ∅ added = false).
  { destruct (names_unique ∅ added) eqn:E; [|done].
    by apply names_unique_NoDup in E. }
  assert (Hfail : forall w : World,
            data_segments_ (job w) = added ->
            mime_boundary_ (job w) = None \/ post_data_ (job w) = None ->
            SetUpMultipart w = (false, on_job (set_state PREPARING_CONTENT) w)
            /\ StartUpload w = on_job (set_state ERROR) w).
  { intros w Hsegs Hc. rewrite <- Hsegs in Hu.
    pose proof (SetUpMultipart_duplicate w Hc Hu) as HS.
    split; [done|]. unfold StartUpload. rewrite HS. by world_fields w. }
  split.
  - intros w Hsegs Hc. destruct (Hfail w Hsegs Hc) as [HS HU].
    split; [done|]. split; [done|]. rewrite HU. by world_fields w.
  - intros upload_url account_id generator access_token Hvalid.
    rewrite (new_world_valid _ _ _ Hvalid).
    rewrite run_app, run_add_segments by done.
    cbn [run step].
    match goal with
    | |- context [Start ?W] =>
        set (w1 := Start W);
        assert (Hw1 : access_token_request_ (job w1) <> None
                      /\ data_segments_ (job w1) = added
                      /\ mime_boundary_ (job w1) = None
                      /\ trace w1
                         = [TokenService_StartRequest account_id
                              [kDeviceManagementServiceOAuth]]
                      /\ retry_ (job w1) = 0 /\ tasks w1 = []
                      /\ boundaries_generated w1 = 0%nat
                      /\ post_data_ (job w1) = None)
          by (vm_compute; repeat split; done)
    end.
    destruct Hw1 as (Hreq & Hsegs & Hmb & Htr & Hrt & Hts & Hng & Hpd).
    destruct (access_token_request_ (job w1)) as [r|] eqn:Er; [|done].
    eexists. split; [reflexivity|].
    unfold OnGetTokenSuccess.
    destruct (Hfail (on_job (set_access_token access_token)
                       (on_job (set_access_token_request None) w1)))
      as [_ ->].
    + by destruct w1 as [[]].
    + left. by destruct w1 as [[]].
    + clear Er. destruct w1 as [[]]. cbn in *. by subst.
Qed.

(** ** Authentication errors

    C5. A token-fetch failure and a 401 response are both handled as
    AUTHENTICATION_ERROR. While attempts remain, the job invalidates its
    cached token with the token service, clears it, and posts
    [RequestAccessToken] with the delay [g_retry_delay_ms]; when that task
    runs, a token is requested anew; and when the new token arrives, the
    upload that follows (given that the body is assembled or the names are
    distinct) carries the new token in its [Authorization] header, no
    upload having been started in between. *)
Theorem authentication_error_requests_fresh_token (w : World)
    (new_token : str) :
  retry_ (job w) + 1 < kMaxAttempts ->
  let scope_set := [kDeviceManagementServiceOAuth] in
  let w1 := HandleError AUTHENTICATION_ERROR w in
  let w2 := RequestAccessToken (set_tasks (tasks w) w1) in
  let w3 := OnGetTokenSuccess new_token w2 in
  OnGetTokenFailure w
  = HandleError AUTHENTICATION_ERROR
      (on_job (set_access_token_request None) w)
  /\ OnURLFetchComplete true HTTP_UNAUTHORIZED w
     = HandleError AUTHENTICATION_ERROR w
  /\ trace w1
     = trace w
       ++ [TokenService_InvalidateAccessToken (account_id_ (job w)) scope_set
             (access_token_ (job w));
           TaskRunner_PostDelayedTask TaskRequestAccessToken
             (g_retry_delay_ms w)]
  /\ access_token_ (job w1) = []
  /\ tasks w1 = tasks w ++ [(TaskRequestAccessToken, g_retry_delay_ms w)]
  /\ step (RunDelayedTask (length (tasks w))) w1 = Some w2
  /\ trace w2
     = trace w1 ++ [TokenService_StartRequest (account_id_ (job w)) scope_set]
  /\ state_ (job w2) = ACQUIRING_TOKEN
  /\ step (TokenSuccess new_token) w2 = Some w3
  /\ access_token_ (job w3) = new_token
  /\ (assembled (job w) \/ NoDup (map GetName (data_segments_ (job w))) ->
      exists fetcher calls,
        trace w3 = trace w2 ++ calls ++ [URLFetcher_Start fetcher]
        /\ count is_upload calls = 0%nat
        /\ extra_request_headers fetcher
           = [lit "Authorization: Bearer " ++ c_str new_token]
        /\ upload_fetcher_ (job w3) = Some fetcher
        /\ state_ (job w3) = UPLOADING).
Proof.
  intros Hr scope_set w1 w2 w3.
  assert (E1 : w1 = PostDelayedTask TaskRequestAccessToken (g_retry_delay_ms w)
            (on_job (set_access_token [])
              (call (TokenService_InvalidateAccessToken (account_id_ (job w))
                       scope_set (access_token_ (job w)))
                (on_job (set_upload_fetcher None)
                   (on_job (fun j => set_retry (retry_ j + 1) j) w))))).
  { unfold w1, HandleError. world_fields w. cbn in *.
    case_leb; [unfold kMaxAttempts in *; lia|done]. }
  split; [done|]. split; [done|].
  split; [rewrite E1; world_fields w; cbn; by rewrite <- app_assoc|].
  split; [rewrite E1; by world_fields w|].
  split; [rewrite E1; by world_fields w|].
  split.
  { cbn. rewrite E1. cbn [tasks PostDelayedTask set_tasks].
    rewrite list_lookup_middle by done. unfold w2. rewrite E1.
    cbn [tasks PostDelayedTask set_tasks run_task].
    do 3 f_equal. 
    assert (D : forall (l : list (Task * Z)) x,
              delete (length l) (l ++ [x]) = l).
    { clear. induction l as [|y l IH]; intros x; [done|].
      cbn. f_equal. apply IH. }
    by rewrite D. }
  split; [unfold w2; rewrite E1; by world_fields w|].
  split; [unfold w2; by world_fields w|].
  split; [unfold w2; by world_fields w|].
  split.
  { unfold w3, OnGetTokenSuccess, StartUpload, w2. rewrite E1.
    world_fields w. unfold SetUpMultipart. cbn.
    destruct mb, pd; cbn; try done; by destruct (names_unique ∅ segs). }
  intros Hok.
  unfold w3, OnGetTokenSuccess, StartUpload, w2. rewrite E1.
  world_fields w. unfold SetUpMultipart, assembled in *. cbn in *.
  assert (Hcase : (exists b body, mb = Some b /\ pd = Some body)
                  \/ ((mb = None \/ pd = None)
                      /\ names_unique ∅ segs = true)).
  { destruct mb as [b|], pd as [body|]; try (left; by eauto); right;
      (split; [by auto|]); apply names_unique_NoDup;
      destruct Hok as [[? ?]|?]; done. }
  destruct Hcase as [(b & body & -> & ->)|[Hc ->]].
  - cbn. eexists _, []. repeat split; try done.
  - destruct mb, pd; try (by destruct Hc); cbn;
      eexists _, [_]; rewrite <- ?app_assoc; repeat split.
Qed.

Section BodyKept.

Lemma step_kept (b body : str) (e : Event) (w w' : World) :
  Inv w -> kept b body w -> step e w = Some w' -> kept b body w'.
Proof.
  intros HI HK Hstep.
  destruct (terminal (state_ (job w))) eqn:Ht.
  { apply terminal_step in Hstep; [|done|done]. by subst w'. }
  revert HI HK Ht Hstep.
  world_fields w.
  unfold Inv, kept, outstanding, quiescent, unassembled, assembled.
  cbn [job trace tasks boundary_generator_ boundaries_generated state_ retry_
       access_token_request_ access_token_ upload_fetcher_ mime_boundary_
       post_data_ data_segments_].
  intros (Hr & Hup & Hnt & Hsegs & Hmb0 & Hmb1 & Hout)
         (-> & -> & -> & Hpd) Ht Hstep.
  destruct Hpd as [->|[Ht' _]]; [|congruence].
  destruct e; cbn in Hstep.
  - injection Hstep as <-. unfold AddDataSegment. cbn.
    case_bool_decide as Hs; cbn; [by auto|].
    assert (st = IDLE) as ->
      by (by destruct (decide (st = IDLE)); [|destruct Hs]).
    exfalso. cbn in Hout. intuition congruence.
  - injection Hstep as <-. unfold Start. cbn.
    case_bool_decide as Hs; cbn; [by auto|].
    assert (st = IDLE) as ->
      by (by destruct (decide (st = IDLE)); [|destruct Hs]).
    exfalso. cbn in Hout. intuition congruence.
  - destruct req as [r|]; [|done]. injection Hstep as <-.
    unfold OnGetTokenSuccess, StartUpload, SetUpMultipart.
    cbn; repeat split; auto.
  - destruct req as [r|]; [|done]. injection Hstep as <-.
    unfold OnGetTokenFailure, HandleError. cbn.
    case_leb; [|case_bool_decide; try done]; cbn; repeat split; auto.
  - destruct fet as [f|]; [|done]. injection Hstep as <-.
    unfold OnURLFetchComplete, HandleError. cbn.
    destruct status_is_success; cbn;
      [destruct (response_code =? HTTP_OK); cbn;
       [|destruct (response_code =? HTTP_UNAUTHORIZED); cbn]|];
      try (case_leb; [|case_bool_decide; try done]); cbn; repeat split; auto.
  - destruct (ts !! i) as [[t d]|]; [|done]. injection Hstep as <-.
    destruct t; unfold run_task, RequestAccessToken, StartUpload,
      SetUpMultipart; cbn; repeat split; auto.
Qed.

Lemma run_kept (b body : str) (events : list Event) (w w' : World) :
  Inv w -> kept b body w -> run events w = Some w' -> kept b body w'.
Proof.
  revert w. induction events as [|e events IH]; intros w HI HK; simpl.
  - by intros [= <-].
  - destruct (step e w) as [w1|] eqn:E; [|done].
    apply IH; [by apply (step_Inv e w)|by apply (step_kept b body e w)].
Qed.

End BodyKept.

(** ** One assembly

    C7, as amended. The boundary generator is called at most once in a
    job's life; segments and an assembled (boundary, body) pair never
    coexist; once both boundary and body are set, the segment list is empty,
    a further [SetUpMultipart] only sets the state and returns true, and
    from then on the boundary stays the same, the generator is not called
    again and the body stays the same until the job reaches SUCCESS or
    ERROR, where it is dropped. *)
Theorem assembled_once_and_kept_until_termination (upload_url : GURL)
    (account_id : str) (generator : nat -> str) (events : list Event)
    (w : World) :
  run events (new_world upload_url account_id generator) = Some w ->
  (boundaries_generated w <= 1)%nat
  /\ (data_segments_ (job w) <> [] ->
      mime_boundary_ (job w) = None /\ post_data_ (job w) = None)
  /\ forall b body,
       mime_boundary_ (job w) = Some b -> post_data_ (job w) = Some body ->
       data_segments_ (job w) = []
       /\ SetUpMultipart w = (true, on_job (set_state PREPARING_CONTENT) w)
       /\ forall events' w',
            run events' w = Some w' ->
            data_segments_ (job w') = []
            /\ mime_boundary_ (job w') = Some b
            /\ boundaries_generated w' = 1%nat
            /\ (post_data_ (job w') = Some body
                \/ (terminal (state_ (job w')) = true
                    /\ post_data_ (job w') = None)).
Proof.
  intros Hrun. apply reachable_Inv in Hrun as HI.
  pose proof HI as (_ & _ & _ & Hsegs & Hmb0 & Hmb1 & _).
  split.
  { destruct (mime_boundary_ (job w)) as [b|] eqn:E.
    - destruct (Hmb1 b eq_refl) as [-> _]. lia.
    - rewrite Hmb0 by done. lia. }
  split; [exact Hsegs|].
  intros b body Hb Hbody.
  assert (Hnil : data_segments_ (job w) = []).
  { destruct (data_segments_ (job w)) eqn:E; [done|].
    destruct Hsegs as [? _]; [done|congruence]. }
  split; [done|]. split; [by apply (SetUpMultipart_cached w b body)|].
  intros events' w' Hrun'.
  assert (HK : kept b body w).
  { repeat split; try done; [by apply (Hmb1 b)|by left]. }
  destruct (run_kept b body events' w w' HI HK Hrun') as (? & ? & ? & ?).
  done.
Qed.

(** ** Other errors

    C3, as amended. When the upload in flight fails with an error other
    than AUTHENTICATION_ERROR while attempts remain, [HandleError] sets the
    state to ACQUIRING_TOKEN, keeps the token, requests no token, and posts
    [StartUpload] with the delay [g_retry_delay_ms]; when that task runs,
    the job starts a fetcher with the same boundary, the same body and the
    same token, without generating a boundary, and is UPLOADING again. *)
Theorem other_errors_retry_the_same_upload (upload_url : GURL)
    (account_id : str) (generator : nat -> str) (events : list Event)
    (w : World) (error_code : ErrorCode) :
  run events (new_world upload_url account_id generator) = Some w ->
  upload_fetcher_ (job w) <> None ->
  error_code <> AUTHENTICATION_ERROR ->
  retry_ (job w) + 1 < kMaxAttempts ->
  let w1 := HandleError error_code w in
  let w2 := StartUpload (set_tasks [] w1) in
  exists b body,
    mime_boundary_ (job w) = Some b /\ post_data_ (job w) = Some body
    /\ state_ (job w1) = ACQUIRING_TOKEN
    /\ trace w1
       = trace w
         ++ [TaskRunner_PostDelayedTask TaskStartUpload (g_retry_delay_ms w)]
    /\ tasks w1 = [(TaskStartUpload, g_retry_delay_ms w)]
    /\ access_token_ (job w1) = access_token_ (job w)
    /\ access_token_request_ (job w1) = None
    /\ step (RunDelayedTask 0) w1 = Some w2
    /\ trace w2
       = trace w1
         ++ [URLFetcher_Start
               {| fetch_url := upload_url_ (job w); fetch_type := POST;
                  upload_content_type :=
                    lit "multipart/form-data" ++ lit "; boundary=" ++ b;
                  upload_content := body;
                  extra_request_headers :=
                    [lit "Authorization: Bearer "
                     ++ c_str (access_token_ (job w))] |}]
    /\ state_ (job w2) = UPLOADING
    /\ mime_boundary_ (job w2) = Some b
    /\ post_data_ (job w2) = Some body
    /\ boundaries_generated w2 = boundaries_generated w
    /\ access_token_ (job w2) = access_token_ (job w)
    /\ access_token_request_ (job w2) = None.
Proof.
  intros Hrun Hf Herr Hr w1 w2. apply reachable_Inv in Hrun.
  destruct (in_flight_UPLOADING w Hrun Hf)
    as (Hs & _ & _ & Hts & Hreq & b & body & Hb & Hbody).
  exists b, body. unfold w2, w1. clear w1 w2.
  world_fields w. cbn in *. subst.
  unfold HandleError. cbn.
  case_leb; [unfold kMaxAttempts in *; lia|].
  case_bool_decide; [done|]. cbn. repeat split.
Qed.

(** ** The ordered map *)

Section StdMapFacts.

Lemma wf_cons (k v : str) (m : StdMap.entries) :
  StdMap.wf ((k, v) :: m) = true
  <-> StdMap.wf m = true /\ (forall e, e ∈ m -> str_ltb k e.1 = true).
Proof.
  revert k v. induction m as [|[k' v'] m IH]; intros k v.
  - cbn. split; [|done]. intros _. split; [done|]. by intros e H%elem_of_nil.
  - change (StdMap.wf ((k, v) :: (k', v') :: m))
      with (str_ltb k k' && StdMap.wf ((k', v') :: m)).
    rewrite andb_true_iff. split.
    + intros [Hk Hwf]. split; [done|].
      intros e [->|He]%elem_of_cons; [done|].
      apply IH in Hwf as [_ Hall].
      apply (str_ltb_trans _ k'); [done|by apply Hall].
    + intros [Hwf Hall]. split; [|done]. apply (Hall (k', v')). by left.
Qed.

Lemma wf_sorted (m : StdMap.entries) :
  StdMap.wf m = true -> StronglySorted key_lt m.
Proof.
  induction m as [|[k v] m IH]; [constructor|].
  intros [Hwf Hall]%wf_cons. constructor; [by apply IH|].
  apply Forall_forall. intros e He. by apply Hall.
Qed.

Lemma insert_elem (k v : str) (m : StdMap.entries) (e : str * str) :
  e ∈ StdMap.insert_entry k v m -> e = (k, v) \/ e ∈ m.
Proof.
  induction m as [|[k' v'] m IH]; cbn.
  - intros ->%list_elem_of_singleton. by left.
  - destruct (str_ltb k k'); [|destruct (str_ltb k' k)].
    + intros [->|He]%elem_of_cons; [by left|by right].
    + intros [->|He]%elem_of_cons; [right; by left|].
      destruct (IH He) as [->|?]; [by left|right; by right].
    + by right.
Qed.

Lemma insert_wf (k v : str) (m : StdMap.entries) :
  StdMap.wf m = true -> StdMap.wf (StdMap.insert_entry k v m) = true.
Proof.
  induction m as [|[k' v'] m IH]; [done|].
  intros Hwf. cbn [StdMap.insert_entry].
  destruct (str_ltb k k') eqn:E1; [|destruct (str_ltb k' k) eqn:E2]; [| |done].
  - change (str_ltb k k' && StdMap.wf ((k', v') :: m) = true).
    by rewrite E1, Hwf.
  - apply wf_cons in Hwf as [Hwf Hall]. apply wf_cons. split; [by apply IH|].
    intros e [->|He]%insert_elem; [done|by apply Hall].
Qed.

(** Whatever insertions built a map, it is iterated by strictly increasing
    key. *)
Lemma iterate_wf (m : StdMap.t) : StdMap.wf (StdMap.iterate m) = true.
Proof.
  induction m as [|k v m IH]; [done|]. cbn [StdMap.iterate].
  by apply insert_wf.
Qed.

Lemma find_Some_elem (k v : str) (m : StdMap.entries) :
  StdMap.find_entry k m = Some v -> (k, v) ∈ m.
Proof.
  induction m as [|[k' v'] m IH]; [done|]. cbn.
  case_bool_decide as E; [intros [= ->]; subst; by left|].
  intros H. right. by apply IH.
Qed.

Lemma find_below (k : str) (m : StdMap.entries) :
  (forall e, e ∈ m -> str_ltb k e.1 = true) -> StdMap.find_entry k m = None.
Proof.
  induction m as [|[k' v'] m IH]; [done|]. intros Hall. cbn.
  case_bool_decide as E.
  - subst k'. specialize (Hall (k, v')). rewrite str_ltb_irrefl in Hall.
    discriminate Hall. by left.
  - apply IH. intros e He. apply Hall. by right.
Qed.

Lemma find_insert_other (k v k' : str) (m : StdMap.entries) :
  k' <> k ->
  StdMap.find_entry k' (StdMap.insert_entry k v m) = StdMap.find_entry k' m.
Proof.
  intros Hne. induction m as [|[k0 v0] m IH]; cbn.
  - by rewrite bool_decide_eq_false_2.
  - destruct (str_ltb k k0); [|destruct (str_ltb k0 k)]; cbn.
    + by rewrite bool_decide_eq_false_2.
    + by rewrite IH.
    + done.
Qed.

(** [insert] keeps the value of a key that is present and adds the entry
    otherwise. *)
Lemma find_insert_same (k v : str) (m : StdMap.entries) :
  StdMap.wf m = true ->
  StdMap.find_entry k (StdMap.insert_entry k v m)
  = Some (default v (StdMap.find_entry k m)).
Proof.
  induction m as [|[k0 v0] m IH]; intros Hwf.
  - cbn. by rewrite bool_decide_eq_true_2.
  - cbn [StdMap.insert_entry].
    destruct (str_ltb k k0) eqn:E1; [|destruct (str_ltb k0 k) eqn:E2].
    + rewrite (find_below k ((k0, v0) :: m)).
      * cbn. by rewrite bool_decide_eq_true_2.
      * apply wf_cons in Hwf as [_ Hall].
        intros e [->|He]%elem_of_cons; [done|].
        apply (str_ltb_trans _ k0); [done|by apply Hall].
    + apply wf_cons in Hwf as [Hwf _]. cbn.
      rewrite bool_decide_eq_false_2
        by (intros ->; by rewrite str_ltb_irrefl in E2).
      by apply IH.
    + rewrite (str_ltb_total _ _ E1 E2). cbn.
      by rewrite bool_decide_eq_true_2.
Qed.

(** Entries in key order are determined by what each key is mapped to. *)
Lemma same_entries_eq (m1 m2 : StdMap.entries) :
  StdMap.wf m1 = true -> StdMap.wf m2 = true ->
  (forall k, StdMap.find_entry k m1 = StdMap.find_entry k m2) ->
  m1 = m2.
Proof.
  revert m2. induction m1 as [|[k1 v1] m1 IH]; intros [|[k2 v2] m2] H1 H2 S.
  - done.
  - specialize (S k2). cbn in S. by rewrite bool_decide_eq_true_2 in S.
  - specialize (S k1). cbn in S. by rewrite bool_decide_eq_true_2 in S.
  - apply wf_cons in H1 as [H1 A1]. apply wf_cons in H2 as [H2 A2].
    assert (Hk : k1 = k2).
    { pose proof (S k1) as S1. pose proof (S k2) as S2. cbn in S1, S2.
      rewrite bool_decide_eq_true_2 in S1 by done.
      rewrite (bool_decide_eq_true_2 (k2 = k2)) in S2 by done.
      destruct (decide (k1 = k2)) as [|Hne]; [done|exfalso].
      rewrite bool_decide_eq_false_2 in S1 by done.
      rewrite bool_decide_eq_false_2 in S2 by done.
      symmetry in S1. apply find_Some_elem, A2 in S1.
      apply find_Some_elem, A1 in S2. cbn in S1, S2.
      by rewrite (str_ltb_asym _ _ S1) in S2. }
    subst k2.
    assert (Hv : v1 = v2).
    { specialize (S k1). cbn in S.
      rewrite bool_decide_eq_true_2 in S by done. congruence. }
    subst v2. f_equal. apply IH; [done|done|].
    intros k. specialize (S k). cbn in S.
    case_bool_decide as E; [|done]. subst k.
    by rewrite !find_below.
Qed.

(** The order of iteration does not depend on how a map was built. *)
Lemma same_entries_iterate (m1 m2 : StdMap.t) :
  same_entries m1 m2 -> StdMap.iterate m1 = StdMap.iterate m2.
Proof. intros S. apply same_entries_eq; [apply iterate_wf..|exact S]. Qed.

Lemma same_segment_bytes (b : str) (s1 s2 : DataSegment) :
  same_segment s1 s2 ->
  GetName s1 = GetName s2
  /\ forall post_data,
       append_segment b post_data s1 = append_segment b post_data s2.
Proof.
  intros (Hn & Hf & Hd & S%same_entries_iterate). split; [done|].
  intros post_data. unfold append_segment. by rewrite Hn, Hf, Hd, S.
Qed.

Lemma same_segments_bytes (b : str) (segs1 segs2 : list DataSegment) :
  Forall2 same_segment segs1 segs2 ->
  map GetName segs1 = map GetName segs2
  /\ forall post_data,
       fold_left (append_segment b) segs1 post_data
       = fold_left (append_segment b) segs2 post_data.
Proof.
  induction 1 as [|s1 s2 segs1 segs2 Hs _ [IHn IHb]]; [done|].
  destruct (same_segment_bytes b s1 s2 Hs) as [Hn Hb]. split.
  - cbn [map]. by rewrite Hn, IHn.
  - intros post_data. cbn [fold_left]. by rewrite Hb, IHb.
Qed.

End StdMapFacts.

(** ** Header entries in key order

    C10. Whatever map of header entries a segment was given, and however
    that map was built, its entries are written in the order of the map's
    iteration, strictly increasing by key in the lexicographic order of
    [std::string], which compares characters as unsigned bytes and puts a
    proper prefix first, each as [key: value CRLF]: the segment that
    [AddDataSegment] stores is written with the entries of the map it was
    called with, in that order. [find] and [insert] behave as those of
    [std::map], an inserted key keeping the value it has. The bytes are a
    function of the segments as maps and of the boundary: segment lists
    that agree on names, filenames, data and on what each key is mapped
    to, built by whatever insertions in whatever order, are assembled for
    the same boundary into byte-identical bodies, by the assembly loop and
    by [SetUpMultipart]. *)
Theorem header_entries_emitted_in_key_order (b : str)
    (segs : list DataSegment) :
  Forall (fun seg =>
            StronglySorted key_lt (StdMap.iterate (GetHeaderEntries seg))
            /\ forall post_data,
                 append_segment b post_data seg
                 = post_data ++ lit "--" ++ b ++ CRLF
                   ++ spec_disposition seg ++ CRLF
                   ++ concat (map spec_header_line
                                  (StdMap.iterate (GetHeaderEntries seg)))
                   ++ CRLF ++ GetData seg ++ CRLF) segs
  /\ (forall name filename header_entries data w,
        state_ (job w) = IDLE ->
        exists seg,
          data_segments_ (job (AddDataSegment name filename header_entries
                                 data w))
          = data_segments_ (job w) ++ [seg]
          /\ StronglySorted key_lt (StdMap.iterate header_entries)
          /\ forall post_data,
               append_segment b post_data seg
               = post_data ++ lit "--" ++ b ++ CRLF
                 ++ lit "Content-Disposition: form-data; name="
                 ++ [DQUOTE] ++ name ++ [DQUOTE]
                 ++ (if bool_decide (filename = []) then []
                     else lit "; filename=" ++ [DQUOTE] ++ filename
                          ++ [DQUOTE])
                 ++ CRLF
                 ++ concat (map (fun e => e.1 ++ lit ": " ++ e.2 ++ CRLF)
                                (StdMap.iterate header_entries))
                 ++ CRLF ++ data ++ CRLF)
  /\ (forall (a a' : str) (c c' : ascii),
        str_ltb a [] = false
        /\ str_ltb [] (c' :: a') = true
        /\ (str_ltb (c :: a) (c' :: a') = true
            <-> (N_of_ascii c < N_of_ascii c')%N
                \/ (c = c' /\ str_ltb a a' = true)))
  /\ (forall k v m,
        StdMap.find k StdMap.empty = None
        /\ StdMap.find k (StdMap.insert k v m)
           = Some (default v (StdMap.find k m))
        /\ forall k', k' <> k ->
             StdMap.find k' (StdMap.insert k v m) = StdMap.find k' m)
  /\ (forall segs',
        Forall2 same_segment segs segs' ->
        fold_left (append_segment b) segs []
        = fold_left (append_segment b) segs' []
        /\ forall w1 w2 : World,
             data_segments_ (job w1) = segs ->
             data_segments_ (job w2) = segs' ->
             unassembled (job w1) -> unassembled (job w2) ->
             boundary_generator_ w1 (boundaries_generated w1) = b ->
             boundary_generator_ w2 (boundaries_generated w2) = b ->
             (SetUpMultipart w1).1 = (SetUpMultipart w2).1
             /\ mime_boundary_ (job (SetUpMultipart w1).2)
                = mime_boundary_ (job (SetUpMultipart w2).2)
             /\ post_data_ (job (SetUpMultipart w1).2)
                = post_data_ (job (SetUpMultipart w2).2)).
Proof.
  split; [|split; [|split; [|split]]].
  - apply Forall_forall. intros seg _.
    split; [apply wf_sorted, iterate_wf|].
    intros post_data. rewrite append_segment_spec.
    unfold spec_part, spec_part_content. by rewrite <- !app_assoc.
  - intros name filename header_entries data w Hs. eexists.
    unfold AddDataSegment. rewrite bool_decide_eq_false_2 by (by intros H).
    split; [by destruct w as [[]]|].
    split; [apply wf_sorted, iterate_wf|].
    intros post_data. rewrite append_segment_spec.
    unfold spec_part, spec_part_content, spec_disposition.
    cbn [GetName GetFilename GetData GetHeaderEntries name_ filename_ data_
         header_entries_].
    by rewrite <- !app_assoc.
  - intros a a' c c'. split; [by destruct a|]. split; [done|].
    cbn [str_ltb].
    destruct (N.ltb_spec (N_of_ascii c) (N_of_ascii c')) as [Hlt|Hge].
    { split; [by left|done]. }
    destruct (N.eqb_spec (N_of_ascii c) (N_of_ascii c')) as [Heq|Hne].
    + apply N_of_ascii_inj in Heq as ->. split; [by right|].
      intros [Hlt|[_ H]]; [lia|done].
    + split; [done|]. intros [Hlt|[-> _]]; [lia|done].
  - intros k v m. split; [done|]. unfold StdMap.find. cbn [StdMap.iterate].
    split; [apply find_insert_same, iterate_wf|].
    intros k' Hne. by apply find_insert_other.
  - intros segs' S.
    destruct (same_segments_bytes b segs segs' S) as [Hn Hb].
    split; [apply Hb|].
    intros w1 w2 E1 E2 M1 M2 B1 B2.
    destruct w1 as [[url1 acct1 st1 rt1 req1 tok1 fet1 mb1 pd1 segsA]
                      tr1 ts1 gen1 ng1 delay1].
    destruct w2 as [[url2 acct2 st2 rt2 req2 tok2 fet2 mb2 pd2 segsB]
                      tr2 ts2 gen2 ng2 delay2].
    destruct M1 as [M1 P1], M2 as [M2 P2].
    cbn in *. subst. unfold SetUpMultipart. cbn.
    assert (Hu : names_unique ∅ segs = names_unique ∅ segs').
    { apply eq_true_iff_eq. rewrite !names_unique_NoDup. by rewrite Hn. }
    rewrite <- Hu. destruct (names_unique ∅ segs); cbn; [|done].
    by rewrite B2, Hb.
Qed.

(** ** Assembly and its round trip

    C1, as amended. For segments with pairwise distinct names, in a job
    that has nothing assembled yet, [SetUpMultipart] succeeds, takes the
    boundary from the generator and produces one buffer: per segment, in
    input order, the line [--boundary], the [Content-Disposition] line with
    the name and, exactly when the filename is not empty, the filename, one
    line [key: value] per header entry, a blank line and the data followed
    by a line end; then the closing [--boundary--] line. When the boundary
    contains no CR and the delimiter [CRLF--boundary] occurs in no segment's
    own bytes (headers, blank line, data), the buffer holds exactly one
    delimiter per segment and one more, the closing one. When moreover
    there is a segment, the boundary is one of RFC 2046, the header block
    of every segment is plain ([plain_headers]: no double quote and no
    backslash in name and filename; keys not empty, of printable
    characters other than the colon and other than [Content-Disposition];
    values without white space at their ends; no entry that governs how
    the data is read; lines of printable characters, spaces and tabs
    without [=?]) and [--boundary] occurs in no data ([plain_data]),
    reading the buffer back as the standards describe it yields the names,
    filenames, header entries and data of the segments, in order. *)
Theorem multipart_assembly_round_trip (w : World) :
  mime_boundary_ (job w) = None \/ post_data_ (job w) = None ->
  NoDup (map GetName (data_segments_ (job w))) ->
  let segs := data_segments_ (job w) in
  let b := boundary_generator_ w (boundaries_generated w) in
  exists w',
    SetUpMultipart w = (true, w')
    /\ mime_boundary_ (job w') = Some b
    /\ post_data_ (job w') = Some (spec_body b segs)
    /\ data_segments_ (job w') = []
    /\ (CR ∉ b -> Forall (delimiter_free b) segs ->
        MultipartReader.delimiter_count b (spec_body b segs) = S (length segs)
        /\ MultipartReader.closing_delimiter_count b (spec_body b segs)
           = 1%nat
        /\ (segs <> [] ->
            MultipartReader.valid_boundary b = true ->
            Forall MultipartReader.plain_headers segs ->
            Forall (MultipartReader.plain_data b) segs ->
            MultipartReader.parse b (spec_body b segs)
            = Some (map MultipartReader.part_of_segment segs))).
Proof.
  intros Hc Hnd segs b.
  apply names_unique_NoDup in Hnd.
  eexists. split; [by apply SetUpMultipart_fresh|].
  split; [by destruct w as [[]]|]. split; [by destruct w as [[]]|].
  split; [by destruct w as [[]]|].
  intros Hb Hfree.
  assert (E : CRLF ++ spec_body b segs
              = MultipartReader.delimiter b ++ after_delimiter b segs).
  { rewrite spec_body_after. unfold MultipartReader.delimiter.
    by rewrite <- !app_assoc. }
  unfold MultipartReader.delimiter_count,
    MultipartReader.closing_delimiter_count. rewrite E.
  split; [by apply delimiters_counted|].
  split; [by apply closing_delimiter_counted|].
  intros Hne Hvalid Hplain Hdata. by apply parse_spec_body.
Qed.

(** C1 at work: the sample job with the segments [a] and [b], the latter
    with a filename, two header entries and a line end in its data. *)
Lemma multipart_assembly_round_trip_witness :
  let w := Sample.after [add_segment Sample.seg_a; add_segment Sample.seg_b;
                         CallStart] in
  exists w',
    SetUpMultipart w = (true, w')
    /\ post_data_ (job w')
       = Some (spec_body (lit "B") [Sample.seg_a; Sample.seg_b])
    /\ MultipartReader.delimiter_count (lit "B")
         (spec_body (lit "B") [Sample.seg_a; Sample.seg_b]) = 3%nat
    /\ MultipartReader.parse (lit "B")
         (spec_body (lit "B") [Sample.seg_a; Sample.seg_b])
       = Some (map MultipartReader.part_of_segment
                   [Sample.seg_a; Sample.seg_b]).
Proof.
  intros w.
  destruct (multipart_assembly_round_trip w) as (w' & H1 & _ & H3 & _ & H5).
  - left. reflexivity.
  - apply names_unique_NoDup. vm_compute. reflexivity.
  - exists w'. split; [exact H1|]. split; [exact H3|].
    destruct H5 as (H6 & _ & H8).
    + absent_by_computation.
    + repeat constructor.
    + split; [exact H6|]. apply H8.
      * intros E. vm_compute in E. discriminate E.
      * vm_compute. reflexivity.
      * plain_by_computation.
      * plain_by_computation.
Defined.

(** ** Sample runs *)

(** Closed facts about sample runs: each conjunct by evaluation. *)
Ltac by_evaluation :=
  cbv zeta;
  repeat match goal with |- _ /\ _ => split end;
  match goal with
  | |- NoDup _ => apply names_unique_NoDup; vm_compute; reflexivity
  | |- _ <> _ => vm_compute; discriminate
  | |- _ => vm_compute; reflexivity
  end.

(** C1 as stated fails. The one segment [seg_12] and the two segments
    [seg_1], [seg_2] have pairwise distinct names and are assembled, for the
    boundary [B], into the same buffer. So no count of delimiters taken
    from the buffer is one per segment plus one for both lists, and no
    reader recovers both; the reference reader finds three delimiters in the
    body of the one segment and reads back the two. *)
Lemma one_body_from_two_segment_lists :
  let one := [Sample.seg_12] in
  let two := [Sample.seg_1; Sample.seg_2] in
  let w1 := Sample.after [add_segment Sample.seg_12; CallStart] in
  let w2 := Sample.after [add_segment Sample.seg_1; add_segment Sample.seg_2;
                          CallStart] in
  let b := lit "B" in
  (data_segments_ (job w1) = one /\ data_segments_ (job w2) = two
   /\ mime_boundary_ (job w1) = None /\ mime_boundary_ (job w2) = None
   /\ NoDup (map GetName one) /\ NoDup (map GetName two)
   /\ (SetUpMultipart w1).1 = true /\ (SetUpMultipart w2).1 = true
   /\ post_data_ (job (SetUpMultipart w1).2) = Some (spec_body b one)
   /\ post_data_ (job (SetUpMultipart w2).2) = Some (spec_body b two)
   /\ spec_body b one = spec_body b two
   /\ MultipartReader.delimiter_count b (spec_body b one) = 3%nat
   /\ MultipartReader.delimiter_count b (spec_body b one) <> S (length one)
   /\ MultipartReader.parse b (spec_body b one)
      <> Some (map MultipartReader.part_of_segment one))
  /\ (forall count : str -> nat,
        ~ (count (spec_body b one) = S (length one)
           /\ count (spec_body b two) = S (length two)))
  /\ (forall read : str -> option (list MultipartReader.Part),
        ~ (read (spec_body b one)
           = Some (map MultipartReader.part_of_segment one)
           /\ read (spec_body b two)
              = Some (map MultipartReader.part_of_segment two))).
Proof.
  cbv zeta.
  assert (E : spec_body (lit "B") [Sample.seg_12]
              = spec_body (lit "B") [Sample.seg_1; Sample.seg_2])
    by (vm_compute; reflexivity).
  split; [by_evaluation|]. split.
  - intros count [H1 H2]. rewrite E in H1. rewrite H1 in H2.
    discriminate H2.
  - intros read [H1 H2]. rewrite E in H1. rewrite H1 in H2.
    discriminate H2.
Qed.

(** The conditions of the round trip on names, keys and header lines are
    needed: a quote in a name, [: ] in a key or a line end in a value lets
    two different segments be written as the same bytes. *)
Lemma header_material_written_alike :
  let b := lit "B" in
  spec_body b [Sample.seg_quote] = spec_body b [Sample.seg_quote']
  /\ MultipartReader.part_of_segment Sample.seg_quote
     <> MultipartReader.part_of_segment Sample.seg_quote'
  /\ spec_body b [Sample.seg_colon] = spec_body b [Sample.seg_colon']
  /\ MultipartReader.part_of_segment Sample.seg_colon
     <> MultipartReader.part_of_segment Sample.seg_colon'
  /\ spec_body b [Sample.seg_break] = spec_body b [Sample.seg_break']
  /\ MultipartReader.part_of_segment Sample.seg_break
     <> MultipartReader.part_of_segment Sample.seg_break'.
Proof. by_evaluation. Qed.

(** What is written without regard to the syntax of header fields is read
    back as that syntax has it: the backslash of a name quotes the
    character after it, a key ends at its first colon, and the blanks around
    a value are not part of it. *)
Lemma odd_header_material_read_back :
  let b := lit "B" in
  MultipartReader.parse b (spec_body b [Fixture.seg_odd])
  = Some [{| MultipartReader.part_name := lit "ab";
             MultipartReader.part_filename := [];
             MultipartReader.part_headers :=
               [(lit "K", lit "v"); (lit "a", lit "b: c")];
             MultipartReader.part_data := lit "d" |}]
  /\ MultipartReader.parse b (spec_body b [Fixture.seg_odd])
     <> Some (map MultipartReader.part_of_segment [Fixture.seg_odd]).
Proof. by_evaluation. Qed.

(** C3 as stated fails. An upload is in flight after [Start] and a token;
    it completes with HTTP 500 while attempts remain: [HandleError] sets
    the state to ACQUIRING_TOKEN, where the claim has it not set. *)
Lemma server_error_sets_ACQUIRING_TOKEN :
  let w := Sample.after [CallStart; TokenSuccess Sample.token] in
  run [CallStart; TokenSuccess Sample.token] Sample.w0 = Some w
  /\ state_ (job w) = UPLOADING
  /\ retry_ (job w) + 1 < kMaxAttempts
  /\ step (FetchComplete true 500) w = Some (HandleError SERVER_ERROR w)
  /\ state_ (job (HandleError SERVER_ERROR w)) = ACQUIRING_TOKEN
  /\ state_ (job (HandleError SERVER_ERROR w)) <> state_ (job w).
Proof. by_evaluation. Qed.

(** C7 as stated fails. After a successful assembly the body is that of
    the one segment; on HTTP 200 it is dropped, so it does not stay fixed
    for the rest of the job's life. And in a job whose four token fetches
    fail, assembly never runs. *)
Lemma body_dropped_on_success_and_never_assembled :
  let assembled_run :=
    [add_segment Sample.seg_a; CallStart; TokenSuccess Sample.token] in
  let w1 := Sample.after assembled_run in
  let w2 := Sample.after (assembled_run ++ [FetchComplete true 200]) in
  let w3 := Sample.after [CallStart; TokenFailure; RunDelayedTask 0;
                          TokenFailure; RunDelayedTask 0;
                          TokenFailure; RunDelayedTask 0; TokenFailure] in
  run assembled_run Sample.w0 = Some w1
  /\ post_data_ (job w1) = Some (spec_body (lit "B") [Sample.seg_a])
  /\ run [FetchComplete true 200] w1 = Some w2
  /\ post_data_ (job w2) = None
  /\ post_data_ (job w2) <> post_data_ (job w1)
  /\ state_ (job w3) = ERROR
  /\ boundaries_generated w3 = 0%nat
  /\ mime_boundary_ (job w3) = None.
Proof. by_evaluation. Qed.

(** C2 at work: the sample job after a first upload answered by HTTP
    500. *)
Lemma attempts_bounded_by_kMaxAttempts_witness :
  let events := [CallStart; TokenSuccess Sample.token;
                 FetchComplete true 500] in
  let w := Sample.after events in
  run events (new_world Sample.url Sample.account Sample.gen) = Some w
  /\ (count is_upload (trace w) <= Z.to_nat kMaxAttempts)%nat
  /\ retry_ (job (HandleError SERVER_ERROR w)) = retry_ (job w) + 1.
Proof.
  cbv zeta.
  match goal with
  | |- ?R /\ _ => assert (H : R) by (vm_compute; reflexivity)
  end.
  split; [exact H|].
  destruct (attempts_bounded_by_kMaxAttempts _ _ _ _ _ SERVER_ERROR H)
    as (H1 & _ & H3 & _).
  split; [exact H1|exact H3].
Defined.

(** C3 at work: the sample job with its first upload in flight, failing
    with SERVER_ERROR. *)
Lemma other_errors_retry_the_same_upload_witness :
  let events := [CallStart; TokenSuccess Sample.token] in
  let w := Sample.after events in
  let w1 := HandleError SERVER_ERROR w in
  run events (new_world Sample.url Sample.account Sample.gen) = Some w
  /\ upload_fetcher_ (job w) <> None
  /\ retry_ (job w) + 1 < kMaxAttempts
  /\ exists b body,
       mime_boundary_ (job w) = Some b /\ post_data_ (job w) = Some body
       /\ state_ (job w1) = ACQUIRING_TOKEN
       /\ step (RunDelayedTask 0) w1 = Some (StartUpload (set_tasks [] w1))
       /\ post_data_ (job (StartUpload (set_tasks [] w1))) = Some body.
Proof.
  cbv zeta.
  match goal with
  | |- ?R /\ ?F /\ ?L /\ _ =>
      assert (H : R) by (vm_compute; reflexivity);
      assert (Hf : F) by (vm_compute; discriminate);
      assert (Hl : L) by (vm_compute; reflexivity)
  end.
  split; [exact H|]. split; [exact Hf|]. split; [exact Hl|].
  assert (He : SERVER_ERROR <> AUTHENTICATION_ERROR) by discriminate.
  destruct (other_errors_retry_the_same_upload _ _ _ _ _ SERVER_ERROR
              H Hf He Hl)
    as (b & body & H1 & H2 & H3 & _ & _ & _ & _ & H8 & _ & _ & _ & H12 & _).
  exists b, body.
  exact (conj H1 (conj H2 (conj H3 (conj H8 H12)))).
Defined.

(** C4 at work: the segment [a] added twice. *)
Lemma duplicate_names_end_in_ERROR_witness :
  exists w',
    run (map add_segment [Sample.seg_a; Sample.seg_a]
         ++ [CallStart; TokenSuccess Sample.token])
        (new_world Sample.url Sample.account Sample.gen) = Some w'
    /\ state_ (job w') = ERROR
    /\ mime_boundary_ (job w') = None
    /\ post_data_ (job w') = None
    /\ boundaries_generated w' = 0%nat
    /\ retry_ (job w') = 0
    /\ tasks w' = []
    /\ trace w'
       = [TokenService_StartRequest Sample.account
            [kDeviceManagementServiceOAuth]].
Proof.
  destruct (duplicate_names_end_in_ERROR [Sample.seg_a; Sample.seg_a])
    as [_ H].
  - intros N. apply names_unique_NoDup in N. vm_compute in N.
    discriminate N.
  - exact (H Sample.url Sample.account Sample.gen Sample.token eq_refl).
Defined.

(** C5 at work: the sample job with its first upload in flight; the
    token [token-2] arrives after the retry. *)
Lemma authentication_error_requests_fresh_token_witness :
  let w := Sample.after [CallStart; TokenSuccess Sample.token] in
  let w1 := HandleError AUTHENTICATION_ERROR w in
  let w2 := RequestAccessToken (set_tasks (tasks w) w1) in
  retry_ (job w) + 1 < kMaxAttempts
  /\ access_token_ (job w1) = []
  /\ state_ (job w2) = ACQUIRING_TOKEN
  /\ access_token_ (job (OnGetTokenSuccess (lit "token-2") w2))
     = lit "token-2".
Proof.
  cbv zeta.
  match goal with
  | |- ?L /\ _ => assert (Hl : L) by (vm_compute; reflexivity)
  end.
  split; [exact Hl|].
  destruct (authentication_error_requests_fresh_token _ (lit "token-2") Hl)
    as (_ & _ & _ & H4 & _ & _ & _ & H8 & _ & H10 & _).
  split; [exact H4|]. split; [exact H8|exact H10].
Defined.

(** C6 at work: HTTP 204, a 2xx code other than 200, is a SERVER_ERROR. *)
Lemma success_only_on_HTTP_OK_witness :
  let events := [CallStart; TokenSuccess Sample.token] in
  let w := Sample.after events in
  run events (new_world Sample.url Sample.account Sample.gen) = Some w
  /\ upload_fetcher_ (job w) <> None
  /\ (state_ (job (OnURLFetchComplete true 204 w)) = SUCCESS <-> 204 = 200)
  /\ OnURLFetchComplete true 204 w = HandleError SERVER_ERROR w.
Proof.
  cbv zeta.
  match goal with
  | |- ?R /\ ?F /\ _ =>
      assert (H : R) by (vm_compute; reflexivity);
      assert (Hf : F) by (vm_compute; discriminate)
  end.
  split; [exact H|]. split; [exact Hf|].
  destruct (success_only_on_HTTP_OK _ _ _ _ _ 204 H Hf)
    as (_ & H2 & _ & _ & H5 & _).
  split; [exact H2|]. apply H5; discriminate.
Defined.

(** C7 at work: the sample job right after its assembly. *)
Lemma assembled_once_and_kept_until_termination_witness :
  let events := [add_segment Sample.seg_a; CallStart;
                 TokenSuccess Sample.token] in
  let w := Sample.after events in
  run events (new_world Sample.url Sample.account Sample.gen) = Some w
  /\ (boundaries_generated w <= 1)%nat
  /\ (data_segments_ (job w) <> [] ->
      mime_boundary_ (job w) = None /\ post_data_ (job w) = None).
Proof.
  cbv zeta.
  match goal with
  | |- ?R /\ _ => assert (H : R) by (vm_compute; reflexivity)
  end.
  split; [exact H|].
  destruct (assembled_once_and_kept_until_termination _ _ _ _ _ H)
    as (H1 & H2 & _).
  split; [exact H1|exact H2].
Defined.

(** C8 at work: the sample job after [Start], waiting for its token. *)
Lemma no_op_outside_IDLE_witness :
  let w := Sample.after [CallStart] in
  state_ (job w) <> IDLE
  /\ AddDataSegment (lit "late") [] StdMap.empty (lit "data") w = w
  /\ Start w = w.
Proof.
  cbv zeta.
  match goal with
  | |- ?S /\ _ => assert (Hs : S) by (vm_compute; discriminate)
  end.
  split; [exact Hs|].
  destruct (no_op_outside_IDLE _ (lit "late") [] StdMap.empty (lit "data") Hs)
    as (H1 & H2 & _).
  split; [exact H1|exact H2].
Defined.

(** C9 at work: the sample job after a successful upload. *)
Lemma delegate_notified_once_on_termination_witness :
  let events := [CallStart; TokenSuccess Sample.token;
                 FetchComplete true 200] in
  let w := Sample.after events in
  run events (new_world Sample.url Sample.account Sample.gen) = Some w
  /\ (count is_OnSuccess (trace w) <= 1)%nat
  /\ (count is_OnFailure (trace w) <= 1)%nat.
Proof.
  cbv zeta.
  match goal with
  | |- ?R /\ _ => assert (H : R) by (vm_compute; reflexivity)
  end.
  split; [exact H|].
  destruct (delegate_notified_once_on_termination _ _ _ _ _ H)
    as (H1 & H2 & _).
  split; [exact H1|exact H2].
Defined.

(** C10 at work: the segment [b] with its two header entries inserted in
    either order. *)
Lemma header_entries_emitted_in_key_order_witness :
  GetHeaderEntries Sample.seg_b <> GetHeaderEntries Sample.seg_b'
  /\ Forall2 same_segment [Sample.seg_b] [Sample.seg_b']
  /\ StdMap.iterate (GetHeaderEntries Sample.seg_b)
     = [(lit "Content-Type", lit "text/plain"); (lit "X-Two", lit "2")]
  /\ StronglySorted key_lt (StdMap.iterate (GetHeaderEntries Sample.seg_b))
  /\ fold_left (append_segment (lit "B")) [Sample.seg_b] []
     = fold_left (append_segment (lit "B")) [Sample.seg_b'] [].
Proof.
  assert (E : StdMap.iterate (GetHeaderEntries Sample.seg_b)
              = StdMap.iterate (GetHeaderEntries Sample.seg_b'))
    by (vm_compute; reflexivity).
  assert (HS : Forall2 same_segment [Sample.seg_b] [Sample.seg_b']).
  { constructor; [|constructor].
    split; [reflexivity|]. split; [reflexivity|]. split; [reflexivity|].
    intros k. unfold StdMap.find. by rewrite E. }
  split; [vm_compute; discriminate|]. split; [exact HS|].
  split; [vm_compute; reflexivity|].
  destruct (header_entries_emitted_in_key_order (lit "B") [Sample.seg_b])
    as (H1 & _ & _ & _ & H4).
  split; [|exact (proj1 (H4 _ HS))].
  apply Forall_cons in H1 as [[H1 _] _]. exact H1.
Defined.

(** * Further properties of the implementation *)

(** ** The size of the body and its estimate *)

Section SizeEstimate.

Lemma assembled_post_data_spec (b : str) (segs : list DataSegment) :
  assembled_post_data b segs = spec_body b segs.
Proof.
  unfold assembled_post_data, spec_body. by rewrite fold_append_segment.
Qed.

Lemma string_size_app (s t : str) :
  string_size (s ++ t) = string_size s + string_size t.
Proof. unfold string_size. rewrite length_app. lia. Qed.

Lemma string_size_nonneg (s : str) : 0 <= string_size s.
Proof. unfold string_size. lia. Qed.

Lemma header_lines_size (entries : StdMap.entries) :
  string_size (concat (map spec_header_line entries))
  = fold_right (fun entry total =>
                  string_size entry.1 + string_size entry.2 + 4 + total)
               0 entries.
Proof.
  induction entries as [|e entries IH]; [done|].
  cbn [map concat fold_right]. rewrite string_size_app, IH.
  unfold spec_header_line. rewrite !string_size_app.
  change (string_size (lit ": ")) with 2. change (string_size CRLF) with 2.
  lia.
Qed.

Lemma spec_part_size (b : str) (seg : DataSegment) :
  string_size (spec_part b seg) = part_size b seg.
Proof.
  unfold spec_part, spec_part_content, spec_disposition, part_size,
    GetDataSize, GetData.
  rewrite !string_size_app, header_lines_size.
  change (string_size (lit "--")) with 2. change (string_size CRLF) with 2.
  change (string_size (lit "Content-Disposition: form-data; name="))
    with 37.
  change (string_size [DQUOTE]) with 1.
  case_bool_decide.
  - change (string_size []) with 0. lia.
  - rewrite !string_size_app.
    change (string_size (lit "; filename=")) with 11.
    change (string_size [DQUOTE]) with 1. lia.
Qed.

Lemma spec_body_size (b : str) (segs : list DataSegment) :
  string_size (spec_body b segs)
  = sum_over (part_size b) segs + string_size b + 6.
Proof.
  unfold spec_body.
  induction segs as [|seg segs IH].
  - cbn [map concat sum_over fold_right app].
    rewrite !string_size_app.
    change (string_size (lit "--")) with 2. change (string_size CRLF) with 2.
    lia.
  - cbn [map concat sum_over fold_right].
    rewrite <- app_assoc, string_size_app, IH, spec_part_size.
    unfold sum_over. lia.
Qed.

Lemma header_estimate_fold (entries : StdMap.entries) (size : Z) :
  fold_left (fun size entry =>
               size_t_wrap (size + (string_size entry.1
                                    + string_size entry.2)))
            entries size mod 2 ^ 64
  = (size + fold_right (fun entry total =>
                          string_size entry.1 + string_size entry.2 + total)
                       0 entries) mod 2 ^ 64.
Proof.
  revert size. induction entries as [|e entries IH]; intros size.
  - cbn. by rewrite Z.add_0_r.
  - cbn [fold_left fold_right]. rewrite IH. unfold size_t_wrap.
    rewrite Zplus_mod_idemp_l. f_equal. lia.
Qed.

Lemma estimate_add_segment_mod (size : Z) (seg : DataSegment) :
  estimate_add_segment size seg
  = (size + estimated_part_size seg) mod 2 ^ 64.
Proof.
  unfold estimate_add_segment, estimated_part_size, size_t_wrap.
  rewrite Zplus_mod_idemp_l.
  set (F := fold_left _ _ _). rewrite <- Z.add_assoc.
  rewrite <- (Zplus_mod_idemp_l F). subst F.
  rewrite header_estimate_fold, Zplus_mod_idemp_l. f_equal. lia.
Qed.

Lemma estimate_size_fold (segs : list DataSegment) (size : Z) :
  fold_left estimate_add_segment segs size mod 2 ^ 64
  = (size + sum_over estimated_part_size segs) mod 2 ^ 64.
Proof.
  revert size. induction segs as [|seg segs IH]; intros size.
  - cbn. by rewrite Z.add_0_r.
  - cbn [fold_left sum_over fold_right]. rewrite IH.
    rewrite estimate_add_segment_mod, Zplus_mod_idemp_l.
    f_equal. unfold sum_over. lia.
Qed.

Lemma estimate_in_range (segs : list DataSegment) (size : Z) :
  0 <= size < 2 ^ 64 ->
  0 <= fold_left estimate_add_segment segs size < 2 ^ 64.
Proof.
  revert size. induction segs as [|seg segs IH]; intros size H; [done|].
  cbn [fold_left]. apply IH. rewrite estimate_add_segment_mod.
  apply Z.mod_pos_bound. lia.
Qed.

Lemma estimate_size_mod (segs : list DataSegment) :
  estimate_size segs = sum_over estimated_part_size segs mod 2 ^ 64.
Proof.
  unfold estimate_size.
  rewrite <- (Z.mod_small (fold_left _ _ _) (2 ^ 64))
    by (apply estimate_in_range; lia).
  by rewrite estimate_size_fold.
Qed.

Lemma estimated_part_size_slack (b : str) (seg : DataSegment) :
  estimated_part_size seg = part_size b seg + slack b seg.
Proof.
  unfold estimated_part_size, part_size, slack, kMaxMimeBoundarySize.
  assert (E : forall entries : StdMap.entries,
            fold_right (fun entry total =>
                          string_size entry.1 + string_size entry.2 + 4
                          + total) 0 entries
            = fold_right (fun entry total =>
                            string_size entry.1 + string_size entry.2
                            + total) 0 entries
              + 4 * Z.of_nat (length entries)).
  { induction entries as [|e entries IH]; [done|].
    cbn [fold_right length]. rewrite IH. lia. }
  rewrite E. case_bool_decide as F.
  - rewrite F. change (string_size []) with 0. lia.
  - lia.
Qed.

Lemma sum_over_slack (b : str) (segs : list DataSegment) :
  sum_over estimated_part_size segs
  = sum_over (part_size b) segs + sum_over (slack b) segs.
Proof.
  induction segs as [|seg segs IH]; [done|].
  unfold sum_over in *. cbn [fold_right].
  rewrite IH, (estimated_part_size_slack b). lia.
Qed.

Lemma estimated_part_size_nonneg (seg : DataSegment) :
  0 <= estimated_part_size seg.
Proof.
  unfold estimated_part_size, kMaxMimeBoundarySize, GetDataSize.
  assert (E : forall entries : StdMap.entries,
            0 <= fold_right (fun entry total =>
                               string_size entry.1 + string_size entry.2
                               + total) 0 entries).
  { induction entries as [|e entries IH]; [done|]. cbn [fold_right].
    pose proof (string_size_nonneg e.1). pose proof (string_size_nonneg e.2).
    lia. }
  pose proof (E (StdMap.iterate (GetHeaderEntries seg))).
  pose proof (string_size_nonneg (GetName seg)).
  pose proof (string_size_nonneg (GetFilename seg)).
  pose proof (string_size_nonneg (data_ seg)). lia.
Qed.

Lemma sum_over_nonneg (f : DataSegment -> Z) (segs : list DataSegment) :
  (forall seg, 0 <= f seg) -> 0 <= sum_over f segs.
Proof.
  intros H. induction segs as [|seg segs IH]; [done|].
  unfold sum_over in *. cbn [fold_right]. specialize (H seg). lia.
Qed.

Lemma estimate_without_wrap (segs : list DataSegment) :
  sum_over estimated_part_size segs < 2 ^ 64 ->
  estimate_size segs = sum_over estimated_part_size segs.
Proof.
  intros Hsmall. rewrite estimate_size_mod. apply Z.mod_small.
  split; [|done]. apply sum_over_nonneg, estimated_part_size_nonneg.
Qed.

Lemma warning_by_slack (b : str) (segs : list DataSegment) :
  sum_over estimated_part_size segs < 2 ^ 64 ->
  reallocation_warning b segs = true
  <-> sum_over (slack b) segs < string_size b + 6.
Proof.
  intros Hsmall. unfold reallocation_warning.
  rewrite (estimate_without_wrap segs Hsmall), assembled_post_data_spec,
    spec_body_size, (sum_over_slack b), Z.ltb_lt.
  lia.
Qed.

End SizeEstimate.

(** ** The budgets are kept by every step *)

Section BudgetKept.

Lemma Budget_new_world (upload_url : GURL) (account_id : str)
    (generator : nat -> str) :
  Budget (new_world upload_url account_id generator).
Proof.
  unfold Budget, new_world, UploadJobImpl_ctor.
  destruct (is_valid upload_url) eqn:E; cbn; rewrite ?E; cbn;
    repeat split; try done; try lia.
Qed.

Lemma step_Budget (e : Event) (w w' : World) :
  Inv w -> Budget w -> step e w = Some w' -> Budget w'.
Proof.
  world_fields w.
  unfold Inv, Budget, outstanding, quiescent, unassembled, assembled.
  cbn [job trace tasks boundary_generator_ boundaries_generated state_ retry_
       access_token_request_ access_token_ upload_fetcher_ mime_boundary_
       post_data_ data_segments_].
  intros (Hr & Hup & Hnt & Hsegs & Hmb0 & Hmb1 & Hout)
         (B1 & B2 & B3 & B4 & B5 & B6 & B7 & B8) Hstep.
  destruct e; cbn in Hstep.
  - injection Hstep as <-. unfold AddDataSegment. cbn.
    case_bool_decide as Hs; cbn; [done|].
    assert (st = IDLE) as ->
      by (by destruct (decide (st = IDLE)); [|destruct Hs]).
    cbn in *. intuition (try done).
  - injection Hstep as <-. unfold Start. cbn.
    case_bool_decide as Hs; cbn; [done|].
    assert (st = IDLE) as ->
      by (by destruct (decide (st = IDLE)); [|destruct Hs]).
    destruct Hout as ((-> & -> & ->) & -> & -> & -> & ->).
    crush.
  - destruct req as [r|]; [|done]. injection Hstep as <-.
    destruct st; try wrong_state Hout.
    unfold OnGetTokenSuccess, StartUpload, SetUpMultipart. cbn.
    destruct mb as [b|], pd as [body|]; cbn;
      try (destruct (names_unique ∅ segs) eqn:Hu); crush.
  - destruct req as [r|]; [|done]. injection Hstep as <-.
    destruct st; try wrong_state Hout.
    unfold OnGetTokenFailure, HandleError. cbn.
    case_leb; [|case_bool_decide; try done]; crush.
  - destruct fet as [f|]; [|done]. injection Hstep as <-.
    destruct st; try wrong_state Hout.
    unfold OnURLFetchComplete, HandleError. cbn.
    destruct status_is_success; cbn.
    + destruct (response_code =? HTTP_OK) eqn:E200; cbn; [crush|].
      destruct (response_code =? HTTP_UNAUTHORIZED) eqn:E401; cbn;
        (case_leb; [|case_bool_decide; try done]; crush).
    + case_leb; [|case_bool_decide; try done]; crush.
  - destruct st; cbn in Hout.
    1,3,5,6: by (destruct Hout as ((_ & _ & ->) & _) || destruct Hout).
    + destruct Hout
        as (-> & [(_ & ->)|[(-> & d & ->)|(-> & (Hm & Hp) & d & ->)]]);
        [done| |]; (destruct i as [|i]; [|done]); injection Hstep as <-.
      * unfold run_task, RequestAccessToken.
        specialize (B5 d eq_refl). crush.
      * destruct mb as [b|]; [|done]. destruct pd as [body|]; [|done].
        unfold run_task, StartUpload, SetUpMultipart. crush.
    + destruct Hout as (-> & (Hm & Hp) & [(_ & ->)|(-> & d & ->)]);
        [done|]; (destruct i as [|i]; [|done]); injection Hstep as <-.
      unfold run_task, RequestAccessToken.
      specialize (B5 d eq_refl). crush.
Qed.

Lemma run_Budget (events : list Event) (w w' : World) :
  Inv w -> Budget w -> run events w = Some w' -> Budget w'.
Proof.
  revert w. induction events as [|e events IH]; intros w HI HB; simpl.
  - by intros [= <-].
  - destruct (step e w) as [w1|] eqn:E; [|done].
    apply IH; [by apply (step_Inv e w)|by apply (step_Budget e w)].
Qed.

Lemma reachable_Budget (upload_url : GURL) (account_id : str)
    (generator : nat -> str) (events : list Event) (w : World) :
  run events (new_world upload_url account_id generator) = Some w ->
  Budget w.
Proof. apply run_Budget; [apply Inv_new_world|apply Budget_new_world]. Qed.

End BudgetKept.

(** ** Counting the calls of a job *)

Section Counting.

Lemma trace_length_by_kind (tr : list Call) :
  length tr
  = (count is_token_request tr + count is_invalidation tr
     + count is_upload tr + count is_posted_task tr
     + count is_OnSuccess tr + count is_OnFailure tr
     + count is_boundary_generation tr)%nat.
Proof.
  induction tr as [|c tr IH]; [done|].
  destruct c; cbn [length count is_token_request is_invalidation is_upload
                   is_posted_task is_OnSuccess is_OnFailure
                   is_boundary_generation]; lia.
Qed.

Lemma delegate_called_at_most_once (w : World) :
  Inv w ->
  (count is_OnSuccess (trace w) + count is_OnFailure (trace w) <= 1)%nat.
Proof.
  intros (_ & _ & Hnt & _ & _ & _ & Hout). unfold outstanding in Hout.
  destruct (state_ (job w)); cbn in *; intuition lia.
Qed.

End Counting.

(** ** The token as [StringPrintf] reads it *)

Section FirstUpload.

Lemma c_str_without_NUL (s : str) : NUL ∉ s -> c_str s = s.
Proof.
  induction s as [|c s IH]; [done|]. intros H. cbn.
  rewrite bool_decide_eq_false_2 by (intros ->; apply H; by left).
  f_equal. apply IH. intros Hin. apply H. by right.
Qed.

Lemma c_str_at_NUL (s t : str) : NUL ∉ s -> c_str (s ++ NUL :: t) = s.
Proof.
  induction s as [|c s IH]; intros H.
  - cbn. by rewrite bool_decide_eq_true_2.
  - cbn. rewrite bool_decide_eq_false_2 by (intros ->; apply H; by left).
    f_equal. apply IH. intros Hin. apply H. by right.
Qed.

End FirstUpload.

(** ** [retry_] counts the failures *)

Section Failures.

Lemma step_retry (e : Event) (w w' : World) :
  step e w = Some w' ->
  retry_ (job w')
  = retry_ (job w) + (if failure_kind e is Some _ then 1 else 0).
Proof.
  world_fields w. intros Hstep. destruct e; cbn in Hstep.
  - injection Hstep as <-. unfold AddDataSegment. cbn.
    case_bool_decide; cbn; lia.
  - injection Hstep as <-. unfold Start. cbn.
    case_bool_decide; cbn; lia.
  - destruct req as [r|]; [|done]. injection Hstep as <-.
    unfold OnGetTokenSuccess, StartUpload, SetUpMultipart. cbn.
    destruct mb as [b|], pd as [body|]; cbn;
      try (destruct (names_unique ∅ segs) eqn:Hu); cbn; lia.
  - destruct req as [r|]; [|done]. injection Hstep as <-.
    unfold OnGetTokenFailure, HandleError. cbn.
    case_leb; [|case_bool_decide; try done]; cbn; lia.
  - destruct fet as [f|]; [|done]. injection Hstep as <-.
    unfold OnURLFetchComplete, HandleError, failure_kind. cbn.
    destruct status_is_success; cbn.
    + destruct (response_code =? HTTP_OK) eqn:E200; cbn; [lia|].
      destruct (response_code =? HTTP_UNAUTHORIZED) eqn:E401; cbn;
        (case_leb; [|case_bool_decide; try done]; cbn; lia).
    + case_leb; [|case_bool_decide; try done]; cbn; lia.
  - destruct (ts !! i) as [[[] d]|] eqn:Ei; [| |done];
      injection Hstep as <-.
    + cbn. lia.
    + unfold run_task, StartUpload, SetUpMultipart. cbn.
      destruct mb as [b|], pd as [body|]; cbn;
        try (destruct (names_unique ∅ segs) eqn:Hu); cbn; lia.
Qed.

Lemma run_retry (events : list Event) (w w' : World) :
  run events w = Some w' ->
  retry_ (job w')
  = retry_ (job w)
    + Z.of_nat (length (filter (fun e => is_Some (failure_kind e)) events)).
Proof.
  revert w. induction events as [|e events IH]; intros w; simpl.
  - intros [= <-]. lia.
  - destruct (step e w) as [w1|] eqn:E; [|done]. intros Hrun.
    rewrite (IH _ Hrun), (step_retry _ _ _ E), filter_cons.
    destruct (failure_kind e) as [k|]; case_decide as Hk.
    + cbn [length]. lia.
    + destruct Hk. by eexists.
    + by destruct Hk.
    + lia.
Qed.

End Failures.

(** ** Every fetcher is built from the one boundary and body *)

Section UploadsKept.

Lemma no_uploads_Forall (url : GURL) (b body : str) (tr : list Call) :
  count is_upload tr = 0%nat -> Forall (upload_of url b body) tr.
Proof.
  induction tr as [|c tr IH]; [by constructor|].
  destruct c; cbn; intros H; try done; constructor; try done; by apply IH.
Qed.

Lemma Uploads_new_world (upload_url : GURL) (account_id : str)
    (generator : nat -> str) :
  Uploads (new_world upload_url account_id generator).
Proof.
  unfold Uploads, new_world, UploadJobImpl_ctor.
  destruct (is_valid upload_url) eqn:E; cbn; rewrite ?E; cbn;
    (split; [done|]); by intros f.
Qed.

Lemma Forall_upload_snoc (url : GURL) (b body : str) (tr : list Call)
    (c : Call) :
  Forall (upload_of url b body) tr -> upload_of url b body c ->
  Forall (upload_of url b body) (tr ++ [c]).
Proof. intros H Hc. apply Forall_app. split; [done|]. by constructor. Qed.

Lemma step_Uploads (e : Event) (w w' : World) :
  Inv w -> Uploads w -> step e w = Some w' -> Uploads w'.
Proof.
  world_fields w.
  unfold Inv, Uploads, outstanding, quiescent, unassembled, assembled.
  cbn [job trace tasks boundary_generator_ boundaries_generated state_ retry_
       access_token_request_ access_token_ upload_fetcher_ mime_boundary_
       post_data_ data_segments_ upload_url_].
  intros (Hr & Hup & Hnt & Hsegs & Hmb0 & Hmb1 & Hout) (U1 & U2) Hstep.
  destruct e; cbn in Hstep.
  - injection Hstep as <-. unfold AddDataSegment. cbn.
    case_bool_decide as Hs; cbn; done.
  - injection Hstep as <-. unfold Start. cbn.
    case_bool_decide as Hs; cbn; [done|].
    assert (st = IDLE) as ->
      by (by destruct (decide (st = IDLE)); [|destruct Hs]).
    destruct Hout as ((-> & -> & ->) & -> & -> & -> & ->). cbn.
    split; [done|]. intros f Hf. done.
  - destruct req as [r|]; [|done]. injection Hstep as <-.
    destruct st; try wrong_state Hout.
    destruct Hout as (-> & _).
    destruct (Hnt eq_refl) as (_ & _ & _ & [[-> ->]|[Hm Hp]] & _).
    + unfold OnGetTokenSuccess, StartUpload, SetUpMultipart. cbn.
      destruct (names_unique ∅ segs) eqn:Hu; cbn; [|done]. split.
      * eexists. split; [by left|].
        rewrite <- app_assoc. apply Forall_app. split.
        { by apply no_uploads_Forall. }
        constructor; [done|]. constructor; [|done]. by eexists.
      * intros f [= <-]. eexists _, _. repeat split.
        by rewrite last_snoc.
    + destruct mb as [b|]; [|done]. destruct pd as [body|]; [|done].
      unfold OnGetTokenSuccess, StartUpload, SetUpMultipart. cbn. split.
      * destruct U1 as (body' & [[= <-]|[? _]] & HF); [|done].
        exists body. split; [by left|].
        apply Forall_upload_snoc; [done|]. by eexists.
      * intros f [= <-]. eexists _, _. repeat split.
        by rewrite last_snoc.
  - destruct req as [r|]; [|done]. injection Hstep as <-.
    destruct st; try wrong_state Hout.
    destruct Hout as (-> & _).
    unfold OnGetTokenFailure, HandleError. cbn.
    case_leb; [|rewrite bool_decide_eq_true_2 by done]; cbn;
      (split; [|done]);
      (destruct mb as [b|]; [|by rewrite ?count_app, U1]);
      destruct U1 as (body' & Hpd & HF).
    + exists body'. split; [by right|]. by apply Forall_upload_snoc.
    + exists body'. split; [done|].
      by do 2 (apply Forall_upload_snoc; [|done]).
  - destruct fet as [f|]; [|done]. injection Hstep as <-.
    destruct st; try wrong_state Hout.
    destruct (U2 f eq_refl) as (b & body & -> & -> & _ & _).
    destruct U1 as (body' & [[= <-]|[? _]] & HF); [|done].
    unfold OnURLFetchComplete, HandleError. cbn.
    destruct status_is_success; cbn.
    + destruct (response_code =? HTTP_OK) eqn:E200; cbn.
      { split; [|done]. exists body. split; [by right|].
        by apply Forall_upload_snoc. }
      destruct (response_code =? HTTP_UNAUTHORIZED) eqn:E401; cbn;
        (case_leb; [|case_bool_decide; try done]; cbn; (split; [|done]);
         exists body;
         [split; [by right|]; by apply Forall_upload_snoc
         |split; [by left|]; rewrite ?app_assoc;
          by repeat (apply Forall_upload_snoc; [|done])]).
    + case_leb; [|case_bool_decide; try done]; cbn; (split; [|done]);
        exists body;
        [split; [by right|]; by apply Forall_upload_snoc
        |split; [by left|]; rewrite ?app_assoc;
         by repeat (apply Forall_upload_snoc; [|done])].
  - destruct st; cbn in Hout.
    1,3,5,6: by (destruct Hout as ((_ & _ & ->) & _) || destruct Hout).
    + destruct Hout
        as (-> & [(_ & ->)|[(-> & d & ->)|(-> & (Hm & Hp) & d & ->)]]);
        [done| |]; (destruct i as [|i]; [|done]); injection Hstep as <-.
      * unfold run_task, RequestAccessToken. cbn. split; [|done].
        destruct mb as [b|]; [|by rewrite count_app, U1].
        destruct U1 as (body' & Hpd & HF). exists body'.
        split; [done|]. by apply Forall_upload_snoc.
      * destruct mb as [b|]; [|done]. destruct pd as [body|]; [|done].
        unfold run_task, StartUpload, SetUpMultipart. cbn.
        destruct U1 as (body' & [[= <-]|[? _]] & HF); [|done]. split.
        -- exists body. split; [by left|].
           apply Forall_upload_snoc; [done|]. by eexists.
        -- intros f [= <-]. eexists _, _. repeat split.
           by rewrite last_snoc.
    + destruct Hout as (-> & (Hm & Hp) & [(_ & ->)|(-> & d & ->)]);
        [done|]; (destruct i as [|i]; [|done]); injection Hstep as <-.
      unfold run_task, RequestAccessToken. cbn. split; [|done].
      destruct mb as [b|]; [|done].
      destruct U1 as (body' & Hpd & HF). exists body'.
      split; [done|]. by apply Forall_upload_snoc.
Qed.

Lemma run_Uploads (events : list Event) (w w' : World) :
  Inv w -> Uploads w -> run events w = Some w' -> Uploads w'.
Proof.
  revert w. induction events as [|e events IH]; intros w HI HU; simpl.
  - by intros [= <-].
  - destruct (step e w) as [w1|] eqn:E; [|done].
    apply IH; [by apply (step_Inv e w)|by apply (step_Uploads e w)].
Qed.

Lemma step_fixed (e : Event) (w w' : World) :
  step e w = Some w' ->
  upload_url_ (job w') = upload_url_ (job w)
  /\ account_id_ (job w') = account_id_ (job w)
  /\ boundary_generator_ w' = boundary_generator_ w
  /\ g_retry_delay_ms w' = g_retry_delay_ms w.
Proof.
  world_fields w. intros Hstep. destruct e; cbn in Hstep.
  - injection Hstep as <-. unfold AddDataSegment. cbn.
    by case_bool_decide.
  - injection Hstep as <-. unfold Start. cbn. by case_bool_decide.
  - destruct req as [r|]; [|done]. injection Hstep as <-.
    unfold OnGetTokenSuccess, StartUpload, SetUpMultipart. cbn.
    destruct mb as [b|], pd as [body|]; cbn;
      try (destruct (names_unique ∅ segs) eqn:Hu); done.
  - destruct req as [r|]; [|done]. injection Hstep as <-.
    unfold OnGetTokenFailure, HandleError. cbn.
    case_leb; [|case_bool_decide; try done]; done.
  - destruct fet as [f|]; [|done]. injection Hstep as <-.
    unfold OnURLFetchComplete, HandleError. cbn.
    destruct status_is_success; cbn.
    + destruct (response_code =? HTTP_OK) eqn:E200; cbn; [done|].
      destruct (response_code =? HTTP_UNAUTHORIZED) eqn:E401; cbn;
        (case_leb; [|case_bool_decide; try done]; done).
    + case_leb; [|case_bool_decide; try done]; done.
  - destruct (ts !! i) as [[[] d]|] eqn:Ei; [| |done];
      injection Hstep as <-.
    + done.
    + unfold run_task, StartUpload, SetUpMultipart. cbn.
      destruct mb as [b|], pd as [body|]; cbn;
        try (destruct (names_unique ∅ segs) eqn:Hu); done.
Qed.

Lemma run_fixed (events : list Event) (w w' : World) :
  run events w = Some w' ->
  upload_url_ (job w') = upload_url_ (job w)
  /\ account_id_ (job w') = account_id_ (job w)
  /\ boundary_generator_ w' = boundary_generator_ w
  /\ g_retry_delay_ms w' = g_retry_delay_ms w.
Proof.
  revert w. induction events as [|e events IH]; intros w; simpl.
  - by intros [= <-].
  - destruct (step e w) as [w1|] eqn:E; [|done]. intros Hrun.
    destruct (IH _ Hrun) as (-> & -> & -> & ->).
    by apply step_fixed in E.
Qed.

Lemma new_world_fixed (upload_url : GURL) (account_id : str)
    (generator : nat -> str) :
  let w := new_world upload_url account_id generator in
  upload_url_ (job w) = upload_url
  /\ account_id_ (job w) = account_id
  /\ boundary_generator_ w = generator
  /\ g_retry_delay_ms w = default_retry_delay_ms.
Proof.
  unfold new_world, UploadJobImpl_ctor. cbn.
  by destruct (is_valid upload_url).
Qed.

Lemma no_uploads_not_in (tr : list Call) (f : URLFetcher) :
  count is_upload tr = 0%nat -> URLFetcher_Start f ∉ tr.
Proof.
  induction tr as [|c tr IH]; intros H Hin.
  - by apply elem_of_nil in Hin.
  - apply elem_of_cons in Hin as [<-|Hin]; [done|].
    apply IH; [|done]. cbn in H. lia.
Qed.

End UploadsKept.

(** ** Runs of a job from construction *)

Section Scenarios.

Lemma app_two {A : Type} (l : list A) (a b : A) :
  (l ++ [a]) ++ [b] = l ++ [a; b].
Proof. by rewrite <- app_assoc. Qed.

Lemma first_upload_run (upload_url : GURL) (account_id : str)
    (generator : nat -> str) (added : list DataSegment)
    (access_token : str) :
  is_valid upload_url = true ->
  NoDup (map GetName added) ->
  let b := generator 0%nat in
  let body := spec_body b added in
  run (map add_segment added ++ [CallStart; TokenSuccess access_token])
      (new_world upload_url account_id generator)
  = Some (uploading_world upload_url account_id generator
            default_retry_delay_ms b body access_token 0
            [TokenService_StartRequest account_id
               [kDeviceManagementServiceOAuth];
             BoundaryGenerator_GenerateBoundary;
             URLFetcher_Start
               (fetcher_for upload_url b body access_token)]).
Proof.
  intros Hvalid Hnd b body. apply names_unique_NoDup in Hnd.
  rewrite (new_world_valid _ _ _ Hvalid).
  rewrite run_app, run_add_segments by done.
  cbn [run step]. unfold Start, on_job, set_data_segments. cbn.
  unfold OnGetTokenSuccess, StartUpload.
  rewrite SetUpMultipart_fresh; [|by left|done].
  reflexivity.
Qed.

Lemma failed_attempt_run (url : GURL) (account_id : str)
    (generator : nat -> str) (delay_ms : Z) (b body access_token : str)
    (retry : Z) (tr : list Call) (answer : bool * Z) :
  retried_unchanged answer ->
  retry + 1 < kMaxAttempts ->
  run (failed_attempt answer)
      (uploading_world url account_id generator delay_ms b body access_token
         retry tr)
  = Some (uploading_world url account_id generator delay_ms b body
            access_token (retry + 1)
            (tr ++ retry_calls delay_ms
                     (fetcher_for url b body access_token))).
Proof.
  destruct answer as [ok code]. unfold retried_unchanged, failure_kind.
  cbn [fst snd]. intros Hk Hr.
  unfold failed_attempt, uploading_world, retry_calls. cbn [run step fst snd].
  cbn [job upload_fetcher_]. unfold OnURLFetchComplete, HandleError.
  destruct ok; cbn [negb].
  - destruct (code =? HTTP_OK) eqn:E200; [by destruct Hk|].
    destruct (code =? HTTP_UNAUTHORIZED) eqn:E401; [by destruct Hk|].
    cbn. case_leb; [lia|]. case_bool_decide; [done|]. cbn.
    rewrite <- app_two. reflexivity.
  - cbn. case_leb; [lia|]. case_bool_decide; [done|]. cbn.
    rewrite <- app_two. reflexivity.
Qed.

Lemma failed_attempts_run (url : GURL) (account_id : str)
    (generator : nat -> str) (delay_ms : Z) (b body access_token : str)
    (answers : list (bool * Z)) (retry : Z) (tr : list Call) :
  Forall retried_unchanged answers ->
  retry + Z.of_nat (length answers) < kMaxAttempts ->
  run (flat_map failed_attempt answers)
      (uploading_world url account_id generator delay_ms b body access_token
         retry tr)
  = Some (uploading_world url account_id generator delay_ms b body
            access_token (retry + Z.of_nat (length answers))
            (tr ++ flat_map
                     (fun _ => retry_calls delay_ms
                                 (fetcher_for url b body access_token))
                     answers)).
Proof.
  revert retry tr. induction answers as [|a answers IH]; intros retry tr HF Hr.
  - cbn. by rewrite Z.add_0_r, app_nil_r.
  - apply Forall_cons in HF as [Ha HF]. cbn [flat_map length] in *.
    rewrite run_app, failed_attempt_run by (done || lia).
    rewrite IH by (done || lia). rewrite <- app_assoc.
    do 2 f_equal. lia.
Qed.

End Scenarios.

(** ** No token is held while one is asked for *)

Section NoTokenKept.

Lemma NoToken_new_world (upload_url : GURL) (account_id : str)
    (generator : nat -> str) :
  NoToken (new_world upload_url account_id generator).
Proof.
  unfold NoToken, new_world, UploadJobImpl_ctor.
  by destruct (is_valid upload_url) eqn:E; cbn; rewrite ?E; cbn.
Qed.

Lemma step_NoToken (e : Event) (w w' : World) :
  Inv w -> NoToken w -> step e w = Some w' -> NoToken w'.
Proof.
  world_fields w.
  unfold Inv, NoToken, outstanding, quiescent, unassembled, assembled.
  cbn [job trace tasks boundary_generator_ boundaries_generated state_ retry_
       access_token_request_ access_token_ upload_fetcher_ mime_boundary_
       post_data_ data_segments_].
  intros (Hr & Hup & Hnt & Hsegs & Hmb0 & Hmb1 & Hout) HT Hstep.
  destruct e; cbn in Hstep.
  - injection Hstep as <-. unfold AddDataSegment. cbn.
    case_bool_decide as Hs; cbn; [done|].
    intros _. apply HT. left.
    by destruct (decide (st = IDLE)); [|destruct Hs].
  - injection Hstep as <-. unfold Start. cbn.
    case_bool_decide as Hs; cbn; [done|].
    intros _. apply HT. left.
    by destruct (decide (st = IDLE)); [|destruct Hs].
  - destruct req as [r|]; [|done]. injection Hstep as <-.
    destruct st; try wrong_state Hout.
    destruct Hout as (-> & [(_ & ->)|[(? & _)|(? & _)]]); try done.
    unfold OnGetTokenSuccess, StartUpload, SetUpMultipart. cbn.
    destruct mb as [b|], pd as [body|]; cbn;
      try (destruct (names_unique ∅ segs) eqn:Hu); cbn;
      intros [?|[?|[d ?]]]; done.
  - destruct req as [r|]; [|done]. injection Hstep as <-.
    unfold OnGetTokenFailure, HandleError. cbn.
    case_leb; [|case_bool_decide; try done]; cbn; done.
  - destruct fet as [f|]; [|done]. injection Hstep as <-.
    destruct st; try wrong_state Hout.
    destruct Hout as (-> & _ & [(_ & ->)|(? & _)]); [|done].
    unfold OnURLFetchComplete, HandleError. cbn.
    destruct status_is_success; cbn.
    + destruct (response_code =? HTTP_OK) eqn:E200; cbn; [done|].
      destruct (response_code =? HTTP_UNAUTHORIZED) eqn:E401; cbn;
        (case_leb; [|case_bool_decide; try done]; cbn; try done;
         intros [?|[?|[d ?]]]; done).
    + case_leb; [|case_bool_decide; try done]; cbn; try done;
        intros [?|[?|[d ?]]]; done.
  - destruct st; cbn in Hout.
    1,3,5,6: by (destruct Hout as ((_ & _ & ->) & _) || destruct Hout).
    + destruct Hout
        as (-> & [(_ & ->)|[(-> & d & ->)|(-> & (Hm & Hp) & d & ->)]]);
        [done| |]; (destruct i as [|i]; [|done]); injection Hstep as <-.
      * unfold run_task, RequestAccessToken. cbn. intros _.
        apply HT. right. right. by eexists.
      * destruct mb as [b|]; [|done]. destruct pd as [body|]; [|done].
        unfold run_task, StartUpload, SetUpMultipart. cbn.
        intros [?|[?|[d' ?]]]; done.
    + destruct Hout as (-> & (Hm & Hp) & [(_ & ->)|(-> & d & ->)]);
        [done|]; (destruct i as [|i]; [|done]); injection Hstep as <-.
      unfold run_task, RequestAccessToken. cbn. intros _.
      apply HT. right. right. by eexists.
Qed.

Lemma run_NoToken (events : list Event) (w w' : World) :
  Inv w -> NoToken w -> run events w = Some w' -> NoToken w'.
Proof.
  revert w. induction events as [|e events IH]; intros w HI HT; simpl.
  - by intros [= <-].
  - destruct (step e w) as [w1|] eqn:E; [|done].
    apply IH; [by apply (step_Inv e w)|by apply (step_NoToken e w)].
Qed.

End NoTokenKept.

(** ** Every answer was asked for *)

Section Answers.

Lemma step_created (e : Event) (w w' : World) :
  Inv w -> step e w = Some w' ->
  ((if is_owner_call e then 0 else 1) + outstanding_count w'
   + created (trace w)
   = outstanding_count w + created (trace w'))%nat.
Proof.
  world_fields w.
  unfold Inv, outstanding, quiescent, unassembled, assembled,
    outstanding_count, created.
  cbn [job trace tasks boundary_generator_ boundaries_generated state_ retry_
       access_token_request_ access_token_ upload_fetcher_ mime_boundary_
       post_data_ data_segments_].
  intros (Hr & Hup & Hnt & Hsegs & Hmb0 & Hmb1 & Hout) Hstep.
  destruct e; cbn in Hstep.
  - injection Hstep as <-. unfold AddDataSegment. cbn.
    case_bool_decide as Hs; cbn; lia.
  - injection Hstep as <-. unfold Start. cbn.
    case_bool_decide as Hs; cbn; [lia|].
    assert (st = IDLE) as ->
      by (by destruct (decide (st = IDLE)); [|destruct Hs]).
    destruct Hout as ((-> & -> & ->) & _). cbn.
    rewrite ?count_app. cbn. lia.
  - destruct req as [r|]; [|done]. injection Hstep as <-.
    destruct st; try wrong_state Hout.
    destruct Hout as (-> & [(_ & ->)|[(? & _)|(? & _)]]); try done.
    destruct (Hnt eq_refl) as (_ & _ & _ & [[-> ->]|[Hm Hp]] & _).
    + unfold OnGetTokenSuccess, StartUpload, SetUpMultipart. cbn.
      destruct (names_unique ∅ segs) eqn:Hu; cbn;
        rewrite ?count_app; cbn; lia.
    + destruct mb as [b|]; [|done]. destruct pd as [body|]; [|done].
      unfold OnGetTokenSuccess, StartUpload, SetUpMultipart. cbn.
      rewrite ?count_app. cbn. lia.
  - destruct req as [r|]; [|done]. injection Hstep as <-.
    destruct st; try wrong_state Hout.
    destruct Hout as (-> & [(_ & ->)|[(? & _)|(? & _)]]); try done.
    unfold OnGetTokenFailure, HandleError. cbn.
    case_leb; [|case_bool_decide; try done]; cbn;
      rewrite ?count_app; cbn; lia.
  - destruct fet as [f|]; [|done]. injection Hstep as <-.
    destruct st; try wrong_state Hout.
    destruct Hout as (-> & _ & [(_ & ->)|(? & _)]); [|done].
    unfold OnURLFetchComplete, HandleError. cbn.
    destruct status_is_success; cbn.
    + destruct (response_code =? HTTP_OK) eqn:E200; cbn.
      { rewrite ?count_app. cbn. lia. }
      destruct (response_code =? HTTP_UNAUTHORIZED) eqn:E401; cbn;
        (case_leb; [|case_bool_decide; try done]; cbn;
         rewrite ?count_app; cbn; lia).
    + case_leb; [|case_bool_decide; try done]; cbn;
        rewrite ?count_app; cbn; lia.
  - destruct st; cbn in Hout.
    1,3,5,6: by (destruct Hout as ((_ & _ & ->) & _) || destruct Hout).
    + destruct Hout
        as (-> & [(_ & ->)|[(-> & d & ->)|(-> & (Hm & Hp) & d & ->)]]);
        [done| |]; (destruct i as [|i]; [|done]); injection Hstep as <-.
      * unfold run_task, RequestAccessToken. cbn.
        rewrite ?count_app. cbn. lia.
      * destruct mb as [b|]; [|done]. destruct pd as [body|]; [|done].
        unfold run_task, StartUpload, SetUpMultipart. cbn.
        rewrite ?count_app. cbn. lia.
    + destruct Hout as (-> & (Hm & Hp) & [(_ & ->)|(-> & d & ->)]);
        [done|]; (destruct i as [|i]; [|done]); injection Hstep as <-.
      unfold run_task, RequestAccessToken. cbn.
      rewrite ?count_app. cbn. lia.
Qed.

Lemma run_created (events : list Event) (w w' : World) :
  Inv w -> run events w = Some w' ->
  (length (callbacks events) + outstanding_count w' + created (trace w)
   = outstanding_count w + created (trace w'))%nat.
Proof.
  revert w. induction events as [|e events IH]; intros w HI; simpl.
  - intros [= <-]. cbn. lia.
  - destruct (step e w) as [w1|] eqn:E; [|done]. intros Hrun.
    pose proof (step_created _ _ _ HI E) as H1.
    pose proof (IH _ (step_Inv _ _ _ HI E) Hrun) as H2.
    unfold callbacks in *. rewrite filter_cons.
    destruct (is_owner_call e); case_decide; try done; cbn [length]; lia.
Qed.

End Answers.

(** ** The size estimate of [SetUpMultipart] *)

(** X1. When nothing is assembled yet and the names are distinct,
    [SetUpMultipart] leaves in [post_data_] what the assembly loop and the
    closing line append for the generated boundary, and its size is the sum
    of the part sizes plus the closing line: a part takes 49 bytes of
    constants, the boundary, the name, 13 bytes and the file name when
    there is one, key, value and 4 bytes for each header entry, and the
    data; the closing line takes the boundary and 6 bytes. *)
Theorem assembled_body_size (w : World) :
  mime_boundary_ (job w) = None \/ post_data_ (job w) = None ->
  NoDup (map GetName (data_segments_ (job w))) ->
  let b := boundary_generator_ w (boundaries_generated w) in
  let segs := data_segments_ (job w) in
  post_data_ (job (SetUpMultipart w).2) = Some (assembled_post_data b segs)
  /\ string_size (assembled_post_data b segs)
     = sum_over (part_size b) segs + string_size b + 6.
Proof.
  intros Hc Hnd b segs. apply names_unique_NoDup in Hnd.
  rewrite (SetUpMultipart_fresh w Hc Hnd), assembled_post_data_spec.
  split; [by destruct w as [[]]|]. apply spec_body_size.
Qed.

(** X2. As long as the sum does not wrap around, the estimate is the sum of
    [estimated_part_size] over the segments, and the warning is logged
    exactly when the slack the estimate leaves over the parts is less than
    the closing line, which the estimate does not count. *)
Theorem reallocation_warning_iff (b : str) (segs : list DataSegment) :
  sum_over estimated_part_size segs < 2 ^ 64 ->
  estimate_size segs = sum_over estimated_part_size segs
  /\ (reallocation_warning b segs = true
      <-> sum_over (slack b) segs < string_size b + 6).
Proof.
  intros Hsmall.
  split; [by apply estimate_without_wrap|by apply warning_by_slack].
Qed.

(** X3. Without segments the estimate is 0 and the body is the closing line
    alone: the warning is logged whatever the boundary. *)
Theorem no_segments_always_warn (b : str) :
  estimate_size [] = 0
  /\ assembled_post_data b [] = lit "--" ++ b ++ lit "--" ++ CRLF
  /\ reallocation_warning b [] = true.
Proof.
  split; [done|]. split; [done|].
  unfold reallocation_warning. rewrite assembled_post_data_spec, spec_body_size.
  apply Z.ltb_lt. cbn. pose proof (string_size_nonneg b). lia.
Qed.

(** X4. With a boundary of at most [kMaxMimeBoundarySize] characters, at least
    two segments and at most seven header entries in each of them, the
    estimate is large enough and no warning is logged. *)
Theorem estimate_suffices (b : str) (segs : list DataSegment) :
  string_size b <= kMaxMimeBoundarySize ->
  (2 <= length segs)%nat ->
  Forall (fun seg =>
            (length (StdMap.iterate (GetHeaderEntries seg)) <= 7)%nat)
         segs ->
  sum_over estimated_part_size segs < 2 ^ 64 ->
  reallocation_warning b segs = false.
Proof.
  intros Hb Hlen Hentries Hsmall.
  destruct (reallocation_warning b segs) eqn:W; [|done].
  apply (warning_by_slack b segs Hsmall) in W.
  assert (S : 38 * Z.of_nat (length segs) <= sum_over (slack b) segs).
  { clear -Hb Hentries. induction Hentries as [|seg segs Hseg _ IH].
    - cbn. lia.
    - unfold sum_over in *. cbn [fold_right length].
      unfold kMaxMimeBoundarySize in *. unfold slack at 1.
      case_bool_decide; lia. }
  unfold kMaxMimeBoundarySize in Hb. lia.
Qed.

(** ** Construction and the public interface *)

(** X5. A job constructed with an invalid URL is in [ERROR] from the start and
    stays exactly as constructed whatever happens: no segment is taken, no
    call is made on a collaborator, the delegate included. *)
Theorem invalid_url_job_is_inert (upload_url : GURL) (account_id : str)
    (generator : nat -> str) (events : list Event) (w : World) :
  is_valid upload_url = false ->
  run events (new_world upload_url account_id generator) = Some w ->
  w = new_world upload_url account_id generator
  /\ state_ (job w) = ERROR
  /\ data_segments_ (job w) = []
  /\ trace w = [].
Proof.
  intros Hv Hrun.
  assert (Hs : state_ (job (new_world upload_url account_id generator))
               = ERROR).
  { unfold new_world, UploadJobImpl_ctor. cbn. by rewrite Hv. }
  apply terminal_run in Hrun; [|apply Inv_new_world|by rewrite Hs].
  subst w. split; [done|]. split; [done|].
  unfold new_world, UploadJobImpl_ctor. cbn. by rewrite Hv.
Qed.

(** X6. [Start] twice is [Start] once; on an [IDLE] job it moves to
    [ACQUIRING_TOKEN], issues one token request for the account of the job
    and keeps it, and leaves segments, [retry_] and posted tasks alone. *)
Theorem Start_once (w : World) :
  Start (Start w) = Start w
  /\ (state_ (job w) = IDLE ->
      state_ (job (Start w)) = ACQUIRING_TOKEN
      /\ trace (Start w)
         = trace w ++ [TokenService_StartRequest (account_id_ (job w))
                         [kDeviceManagementServiceOAuth]]
      /\ access_token_request_ (job (Start w))
         = Some {| req_account_id := account_id_ (job w);
                   req_scope_set := [kDeviceManagementServiceOAuth] |}
      /\ data_segments_ (job (Start w)) = data_segments_ (job w)
      /\ retry_ (job (Start w)) = retry_ (job w)
      /\ tasks (Start w) = tasks w).
Proof.
  split.
  - unfold Start at 2 3. case_bool_decide as Hs.
    + by apply outside_IDLE_Start.
    + apply outside_IDLE_Start. by destruct w as [[]].
  - intros Hs. unfold Start. rewrite bool_decide_eq_false_2 by (by intros H).
    by destruct w as [[]].
Qed.

(** X7. Segments added to an [IDLE] job are appended to [data_segments_] in the
    order of the calls; the job stays [IDLE] and makes no call. *)
Theorem segments_kept_in_order (added : list DataSegment) (w : World) :
  state_ (job w) = IDLE ->
  exists w',
    run (map add_segment added) w = Some w'
    /\ data_segments_ (job w') = data_segments_ (job w) ++ added
    /\ state_ (job w') = IDLE
    /\ trace w' = trace w
    /\ tasks w' = tasks w.
Proof.
  intros Hs. eexists. split; [by apply run_add_segments|].
  by destruct w as [[]].
Qed.

(** X8. [SetRetryDelayForTesting] aborts on a negative delay; otherwise it
    changes the delay alone, and the next error handled with attempts left
    posts its task with that delay. *)
Theorem SetRetryDelayForTesting_sets_the_delay (retry_delay_ms : Z)
    (w : World) :
  (retry_delay_ms < 0 -> SetRetryDelayForTesting retry_delay_ms w = None)
  /\ (0 <= retry_delay_ms ->
      exists w',
        SetRetryDelayForTesting retry_delay_ms w = Some w'
        /\ job w' = job w /\ trace w' = trace w /\ tasks w' = tasks w
        /\ g_retry_delay_ms w' = retry_delay_ms
        /\ forall error_code,
             retry_ (job w) + 1 < kMaxAttempts ->
             exists task,
               tasks (HandleError error_code w')
               = tasks w ++ [(task, retry_delay_ms)]
               /\ last (trace (HandleError error_code w'))
                  = Some (TaskRunner_PostDelayedTask task retry_delay_ms)).
Proof.
  unfold SetRetryDelayForTesting. split; intros Hd.
  - by rewrite (proj2 (Z.ltb_lt _ _)).
  - rewrite (proj2 (Z.ltb_ge _ _)) by done. eexists. split; [done|].
    cbn. repeat split. intros error_code Hr.
    unfold HandleError. cbn.
    case_leb; [lia|]. case_bool_decide; cbn; eexists;
      (split; [done|]); by rewrite last_snoc.
Qed.

(** ** Assembly and the request sent *)

(** X9. [SetUpMultipart] always leaves the state [PREPARING_CONTENT]; it returns
    true exactly when boundary and body are cached or the names of the
    segments are distinct. When it returns true both are set, so that
    [StartUpload] builds its fetcher from them and goes to [UPLOADING];
    when it returns false nothing but the state has changed, and
    [StartUpload] goes to [ERROR] without a fetcher. *)
Theorem SetUpMultipart_outcome (w : World) :
  state_ (job (SetUpMultipart w).2) = PREPARING_CONTENT
  /\ ((SetUpMultipart w).1 = true
      <-> (mime_boundary_ (job w) <> None /\ post_data_ (job w) <> None)
          \/ NoDup (map GetName (data_segments_ (job w))))
  /\ ((SetUpMultipart w).1 = true ->
      exists b body fetcher,
        mime_boundary_ (job (SetUpMultipart w).2) = Some b
        /\ post_data_ (job (SetUpMultipart w).2) = Some body
        /\ upload_fetcher_ (job (StartUpload w)) = Some fetcher
        /\ upload_content fetcher = body
        /\ upload_content_type fetcher
           = lit "multipart/form-data; boundary=" ++ b
        /\ state_ (job (StartUpload w)) = UPLOADING)
  /\ ((SetUpMultipart w).1 = false ->
      (SetUpMultipart w).2 = on_job (set_state PREPARING_CONTENT) w
      /\ upload_fetcher_ (job (StartUpload w)) = upload_fetcher_ (job w)
      /\ state_ (job (StartUpload w)) = ERROR).
Proof.
  rewrite <- names_unique_NoDup.
  destruct w as [[url acct st rt req tok fet mb pd segs] tr ts gen ng delay].
  unfold StartUpload, SetUpMultipart. cbn.
  destruct mb as [b|], pd as [body|]; cbn;
    try (destruct (names_unique ∅ segs) eqn:Hu; cbn);
    (split; [done|]); (split; [intuition congruence|]);
    (split; [|done]); try done; intros _; by eexists _, _, _.
Qed.

(** X10. The first request of a job: after segments with distinct names,
    [Start] and a token, the job is [UPLOADING] and has made three calls,
    the token request, one boundary generation and the start of a fetcher
    that POSTs to the upload URL the body of these segments under the
    first boundary, with that boundary in the content type and the token,
    read up to its first NUL, in the one [Authorization] header. *)
Theorem first_upload_request (upload_url : GURL) (account_id : str)
    (generator : nat -> str) (added : list DataSegment)
    (access_token : str) :
  is_valid upload_url = true ->
  NoDup (map GetName added) ->
  let fetcher :=
    {| fetch_url := upload_url; fetch_type := POST;
       upload_content_type :=
         lit "multipart/form-data; boundary=" ++ generator 0%nat;
       upload_content := spec_body (generator 0%nat) added;
       extra_request_headers :=
         [lit "Authorization: Bearer " ++ c_str access_token] |} in
  exists w,
    run (map add_segment added ++ [CallStart; TokenSuccess access_token])
        (new_world upload_url account_id generator) = Some w
    /\ state_ (job w) = UPLOADING
    /\ upload_fetcher_ (job w) = Some fetcher
    /\ trace w
       = [TokenService_StartRequest account_id
            [kDeviceManagementServiceOAuth];
          BoundaryGenerator_GenerateBoundary;
          URLFetcher_Start fetcher]
    /\ data_segments_ (job w) = []
    /\ access_token_ (job w) = access_token
    /\ (NUL ∉ access_token -> c_str access_token = access_token)
    /\ (forall t1 t2, NUL ∉ t1 -> access_token = t1 ++ NUL :: t2 ->
        c_str access_token = t1).
Proof.
  intros Hvalid Hnd fetcher. apply names_unique_NoDup in Hnd.
  rewrite (new_world_valid _ _ _ Hvalid).
  rewrite run_app, run_add_segments by done.
  eexists. split.
  - cbn [run step]. unfold Start, on_job, set_data_segments. cbn.
    unfold OnGetTokenSuccess, StartUpload.
    rewrite SetUpMultipart_fresh; [|by left|done].
    reflexivity.
  - cbn. repeat split; try done.
    + apply c_str_without_NUL.
    + intros t1 t2 H ->. by apply c_str_at_NUL.
Qed.

(** X11. All fetchers a job starts POST to its upload URL the same body under
    the same content type, which names the first boundary generated, and
    carry one [Authorization] header each; the fetcher in flight is the
    last call the job made, sends the body the job holds and carries the
    token the job holds. *)
Theorem every_attempt_sends_the_same_request (upload_url : GURL)
    (account_id : str) (generator : nat -> str) (events : list Event)
    (w : World) :
  run events (new_world upload_url account_id generator) = Some w ->
  (forall f1 f2,
     URLFetcher_Start f1 ∈ trace w -> URLFetcher_Start f2 ∈ trace w ->
     fetch_url f1 = upload_url /\ fetch_type f1 = POST
     /\ upload_content_type f1
        = lit "multipart/form-data; boundary=" ++ generator 0%nat
     /\ upload_content f1 = upload_content f2
     /\ exists access_token,
          extra_request_headers f1
          = [lit "Authorization: Bearer " ++ c_str access_token])
  /\ (forall f, upload_fetcher_ (job w) = Some f ->
        last (trace w) = Some (URLFetcher_Start f)
        /\ post_data_ (job w) = Some (upload_content f)
        /\ extra_request_headers f
           = [lit "Authorization: Bearer "
              ++ c_str (access_token_ (job w))]).
Proof.
  intros Hrun. pose proof (reachable_Inv _ _ _ _ _ Hrun) as HI.
  pose proof (run_Uploads _ _ _ (Inv_new_world _ _ _)
                (Uploads_new_world _ _ _) Hrun) as (U1 & U2).
  destruct (run_fixed _ _ _ Hrun) as (Hurl & _ & Hgen & _).
  destruct (new_world_fixed upload_url account_id generator)
    as (Hurl0 & _ & Hgen0 & _).
  rewrite Hurl0 in Hurl. rewrite Hgen0 in Hgen. rewrite Hurl in *.
  destruct HI as (_ & _ & _ & _ & _ & Hmb1 & _).
  split.
  - intros f1 f2 H1 H2.
    destruct (mime_boundary_ (job w)) as [b|] eqn:Emb.
    + destruct (Hmb1 b eq_refl) as (_ & Hb). rewrite Hgen in Hb. subst b.
      destruct U1 as (body & _ & HF). rewrite Forall_forall in HF.
      destruct (HF _ H1) as (tok1 & ->). destruct (HF _ H2) as (tok2 & ->).
      repeat split. by exists tok1.
    + by apply no_uploads_not_in with (f := f1) in U1.
  - intros f Hf. destruct (U2 f Hf) as (b & body & _ & Hpd & -> & Hlast).
    done.
Qed.

(** ** The retry policy *)

(** X12. [retry_] is the number of failures the job has met, token failures and
    failed uploads alike, and no run contains more than four. *)
Theorem retry_counts_the_failures (upload_url : GURL) (account_id : str)
    (generator : nat -> str) (events : list Event) (w : World) :
  run events (new_world upload_url account_id generator) = Some w ->
  retry_ (job w)
  = Z.of_nat (length (filter (fun e => is_Some (failure_kind e)) events))
  /\ (length (filter (fun e => is_Some (failure_kind e)) events) <= 4)%nat.
Proof.
  intros Hrun. pose proof (reachable_Inv _ _ _ _ _ Hrun) as (Hr & _).
  apply run_retry in Hrun.
  assert (H0 : retry_ (job (new_world upload_url account_id generator)) = 0).
  { unfold new_world, UploadJobImpl_ctor. cbn.
    by destruct (is_valid upload_url). }
  rewrite H0 in Hrun. unfold kMaxAttempts in Hr. lia.
Qed.

(** X13. On a failure [retry_] being [kMaxAttempts - 1] the delegate is told,
    with the kind of this very failure, and the job is in [ERROR]; on an
    earlier failure the delegate is not called, the job stays out of the
    terminal states and one task is posted with the retry delay,
    [RequestAccessToken] exactly for an authentication error. No other
    event reports a failure. *)
Theorem failure_reported_on_fourth_failure (upload_url : GURL)
    (account_id : str) (generator : nat -> str) (events : list Event)
    (w : World) (e : Event) (w' : World) :
  run events (new_world upload_url account_id generator) = Some w ->
  step e w = Some w' ->
  match failure_kind e with
  | Some error_code =>
      if retry_ (job w) =? kMaxAttempts - 1
      then trace w' = trace w ++ [Delegate_OnFailure error_code]
           /\ state_ (job w') = ERROR
      else count is_delegate_call (trace w') = 0%nat
           /\ terminal (state_ (job w')) = false
           /\ exists task,
                tasks w' = [(task, g_retry_delay_ms w)]
                /\ (task = TaskRequestAccessToken
                    <-> error_code = AUTHENTICATION_ERROR)
  | None =>
      count is_OnFailure (trace w') = count is_OnFailure (trace w)
  end.
Proof.
  intros Hrun. apply reachable_Inv in Hrun. revert Hrun.
  world_fields w.
  unfold Inv, outstanding, quiescent, unassembled, assembled.
  cbn [job trace tasks boundary_generator_ boundaries_generated state_ retry_
       access_token_request_ access_token_ upload_fetcher_ mime_boundary_
       post_data_ data_segments_ g_retry_delay_ms].
  intros (Hr & Hup & Hnt & Hsegs & Hmb0 & Hmb1 & Hout) Hstep.
  rewrite count_delegate_calls.
  destruct e; cbn in Hstep.
  - injection Hstep as <-. unfold AddDataSegment. cbn.
    by case_bool_decide.
  - injection Hstep as <-. unfold Start. cbn.
    case_bool_decide; cbn; [done|]. by rewrite count_app, Nat.add_0_r.
  - destruct req as [r|]; [|done]. injection Hstep as <-.
    unfold OnGetTokenSuccess, StartUpload, SetUpMultipart. cbn.
    destruct mb as [b|], pd as [body|]; cbn;
      try (destruct (names_unique ∅ segs) eqn:Hu); cbn;
      rewrite ?count_app; cbn; lia.
  - destruct req as [r|]; [|done]. injection Hstep as <-.
    destruct st; try wrong_state Hout.
    unfold OnGetTokenFailure, HandleError. cbn.
    destruct (Hnt eq_refl) as (Hlt & HS & HF & _).
    destruct (Z.eqb_spec rt (kMaxAttempts - 1)) as [->|Hne]; cbn.
    + done.
    + case_leb; [unfold kMaxAttempts in *; lia|].
      rewrite bool_decide_eq_true_2 by done. cbn.
      rewrite !count_app, HS, HF. cbn.
      destruct Hout as (_ & [(_ & ->)|[(? & _)|(? & _)]]); try done.
      split; [done|]. split; [done|]. eexists. by split.
  - destruct fet as [f|]; [|done]. injection Hstep as <-.
    destruct st; try wrong_state Hout.
    destruct (Hnt eq_refl) as (Hlt & HS & HF & _).
    destruct Hout as (_ & _ & [(_ & ->)|(? & _)]); [|done].
    unfold OnURLFetchComplete, HandleError, failure_kind. cbn.
    destruct status_is_success; cbn.
    + destruct (response_code =? HTTP_OK) eqn:E200; cbn.
      { rewrite count_app. cbn. lia. }
      destruct (response_code =? HTTP_UNAUTHORIZED) eqn:E401; cbn;
        (destruct (Z.eqb_spec rt (kMaxAttempts - 1)) as [->|Hne]; cbn;
         [done|]; case_leb; [unfold kMaxAttempts in *; lia|];
         case_bool_decide; try done; cbn; rewrite !count_app, HS, HF; cbn;
         (split; [done|]); (split; [done|]); eexists; (split; [done|]);
         by split).
    + destruct (Z.eqb_spec rt (kMaxAttempts - 1)) as [->|Hne]; cbn;
        [done|]; case_leb; [unfold kMaxAttempts in *; lia|];
        case_bool_decide; try done; cbn; rewrite !count_app, HS, HF; cbn;
        (split; [done|]); (split; [done|]); eexists; (split; [done|]);
        by split.
  - destruct (ts !! i) as [[[] d]|] eqn:Ei; [| |done];
      injection Hstep as <-.
    + cbn. rewrite count_app. cbn. lia.
    + unfold run_task, StartUpload, SetUpMultipart. cbn.
      destruct mb as [b|], pd as [body|]; cbn;
        try (destruct (names_unique ∅ segs) eqn:Hu); cbn;
        rewrite ?count_app; cbn; lia.
Qed.

(** X14. On an authentication error with attempts left the job invalidates the
    token it holds, whole, for its account, and posts [RequestAccessToken];
    the state is not changed. After a token failure this token is the
    empty string. After a refused upload the fetcher carried this token as
    [StringPrintf] reads it: the same token when it holds no NUL, and
    otherwise only what precedes its first NUL, which is then not the
    token invalidated. *)
Theorem token_invalidated_on_authentication_error (upload_url : GURL)
    (account_id : str) (generator : nat -> str) (events : list Event)
    (w : World) (e : Event) (w' : World) :
  run events (new_world upload_url account_id generator) = Some w ->
  step e w = Some w' ->
  failure_kind e = Some AUTHENTICATION_ERROR ->
  retry_ (job w) + 1 < kMaxAttempts ->
  trace w'
  = trace w
    ++ [TokenService_InvalidateAccessToken account_id
          [kDeviceManagementServiceOAuth] (access_token_ (job w));
        TaskRunner_PostDelayedTask TaskRequestAccessToken
          (g_retry_delay_ms w)]
  /\ access_token_ (job w') = []
  /\ state_ (job w') = state_ (job w)
  /\ (e = TokenFailure -> access_token_ (job w) = [])
  /\ (forall f, upload_fetcher_ (job w) = Some f ->
        extra_request_headers f
        = [lit "Authorization: Bearer " ++ c_str (access_token_ (job w))]
        /\ (NUL ∉ access_token_ (job w) ->
            extra_request_headers f
            = [lit "Authorization: Bearer " ++ access_token_ (job w)])
        /\ (forall sent rest,
              access_token_ (job w) = sent ++ NUL :: rest -> NUL ∉ sent ->
              extra_request_headers f
              = [lit "Authorization: Bearer " ++ sent]
              /\ sent <> access_token_ (job w))).
Proof.
  intros Hrun Hstep Hk Hr.
  pose proof (reachable_Inv _ _ _ _ _ Hrun) as HI.
  pose proof (run_Uploads _ _ _ (Inv_new_world _ _ _)
                (Uploads_new_world _ _ _) Hrun) as (_ & U2).
  pose proof (run_NoToken _ _ _ (Inv_new_world _ _ _)
                (NoToken_new_world _ _ _) Hrun) as HT.
  destruct (run_fixed _ _ _ Hrun) as (_ & Hacct & _).
  destruct (new_world_fixed upload_url account_id generator)
    as (_ & Hacct0 & _).
  rewrite Hacct0 in Hacct. clear Hrun Hacct0 HI.
  assert (Hhdr : forall f, upload_fetcher_ (job w) = Some f ->
            extra_request_headers f
            = [lit "Authorization: Bearer "
               ++ c_str (access_token_ (job w))]
            /\ (NUL ∉ access_token_ (job w) ->
                extra_request_headers f
                = [lit "Authorization: Bearer " ++ access_token_ (job w)])
            /\ (forall sent rest,
                  access_token_ (job w) = sent ++ NUL :: rest ->
                  NUL ∉ sent ->
                  extra_request_headers f
                  = [lit "Authorization: Bearer " ++ sent]
                  /\ sent <> access_token_ (job w))).
  { intros f Hf. destruct (U2 f Hf) as (b & body & _ & _ & -> & _).
    unfold fetcher_for, kAuthorizationHeaderFormat.
    cbn [extra_request_headers]. split; [done|]. split.
    - intros Hn. by rewrite c_str_without_NUL.
    - intros sent rest E Hs. rewrite E. split.
      + by rewrite c_str_at_NUL.
      + intros E'. apply (f_equal length) in E'.
        rewrite length_app in E'. cbn [length] in E'. lia. }
  clear U2. revert Hstep Hk Hr HT Hacct Hhdr. world_fields w.
  unfold NoToken.
  cbn [job trace tasks boundary_generator_ boundaries_generated state_ retry_
       access_token_request_ access_token_ upload_fetcher_ mime_boundary_
       post_data_ data_segments_ g_retry_delay_ms account_id_].
  intros Hstep Hk Hr HT -> Hhdr.
  destruct e; try done; cbn in Hstep, Hk.
  - destruct req as [r|]; [|done]. injection Hstep as <-.
    unfold OnGetTokenFailure, HandleError. cbn.
    case_leb; [lia|]. rewrite bool_decide_eq_true_2 by done. cbn.
    rewrite app_two. split; [done|]. split; [done|]. split; [done|].
    split; [|exact Hhdr]. intros _. apply HT. by right; left.
  - destruct fet as [f|]; [|done]. injection Hstep as <-.
    unfold OnURLFetchComplete, HandleError.
    destruct status_is_success; [|done]. cbn in Hk |- *.
    destruct (response_code =? HTTP_OK) eqn:E200; [done|].
    destruct (response_code =? HTTP_UNAUTHORIZED) eqn:E401; [|done]. cbn.
    case_leb; [lia|]. rewrite bool_decide_eq_true_2 by done. cbn.
    rewrite app_two. split; [done|]. split; [done|]. split; [done|].
    split; [done|exact Hhdr].
Qed.

(** X15. What a job may cost its collaborators: at most 4 token requests, 3
    invalidations, 3 posted tasks, 1 boundary generation, 4 fetchers and 1
    call of the delegate, and at most 16 calls in all. *)
Theorem call_budget (upload_url : GURL) (account_id : str)
    (generator : nat -> str) (events : list Event) (w : World) :
  run events (new_world upload_url account_id generator) = Some w ->
  (count is_token_request (trace w) <= 4)%nat
  /\ (count is_invalidation (trace w) <= 3)%nat
  /\ (count is_posted_task (trace w) <= 3)%nat
  /\ (count is_boundary_generation (trace w) <= 1)%nat
  /\ (count is_upload (trace w) <= 4)%nat
  /\ (count is_delegate_call (trace w) <= 1)%nat
  /\ (length (trace w) <= 16)%nat.
Proof.
  intros Hrun. pose proof (reachable_Inv _ _ _ _ _ Hrun) as HI.
  pose proof (reachable_Budget _ _ _ _ _ Hrun)
    as (B1 & _ & B3 & B4 & _ & B6 & _).
  pose proof (delegate_called_at_most_once w HI) as HD.
  pose proof HI as (_ & Hup & _ & _ & Hmb0 & Hmb1 & _).
  assert (HG : (count is_boundary_generation (trace w) <= 1)%nat).
  { rewrite B6. destruct (mime_boundary_ (job w)) as [b|] eqn:E.
    - destruct (Hmb1 b eq_refl) as [-> _]. lia.
    - rewrite Hmb0 by done. lia. }
  rewrite count_delegate_calls, trace_length_by_kind. lia.
Qed.

(** ** The state machine *)

(** X16. A job is never left in [PREPARING_CONTENT], and between [Start] and
    termination it waits for exactly one thing, a token, a fetcher or a
    posted task; before and after, for nothing. *)
Theorem waits_for_one_callback (upload_url : GURL) (account_id : str)
    (generator : nat -> str) (events : list Event) (w : World) :
  run events (new_world upload_url account_id generator) = Some w ->
  state_ (job w) <> PREPARING_CONTENT
  /\ outstanding_count w
     = (if bool_decide (state_ (job w) = IDLE) || terminal (state_ (job w))
        then 0 else 1)%nat.
Proof.
  intros Hrun. apply reachable_Inv in Hrun as (_ & _ & _ & _ & _ & _ & Hout).
  unfold outstanding, quiescent, outstanding_count in *.
  destruct (state_ (job w)); cbn in *; try done.
  - destruct Hout as ((-> & -> & ->) & _). done.
  - destruct Hout as (-> & [(Hr & ->)|[(-> & d & ->)|(-> & _ & d & ->)]]);
      split; try done.
    by destruct (access_token_request_ (job w)).
  - destruct Hout as (-> & _ & [(Hf & ->)|(-> & d & ->)]); split; try done.
    by destruct (upload_fetcher_ (job w)).
  - destruct Hout as ((-> & -> & ->) & _). done.
  - destruct Hout as ((-> & -> & ->) & _). done.
Qed.

(** X17. In [SUCCESS] and [ERROR] the job holds no token request, no fetcher, no
    posted task and no body, and once the delegate was called no token
    either. *)
Theorem terminal_state_releases (upload_url : GURL) (account_id : str)
    (generator : nat -> str) (events : list Event) (w : World) :
  run events (new_world upload_url account_id generator) = Some w ->
  terminal (state_ (job w)) = true ->
  access_token_request_ (job w) = None
  /\ upload_fetcher_ (job w) = None
  /\ tasks w = []
  /\ post_data_ (job w) = None
  /\ (count is_delegate_call (trace w) <> 0%nat ->
      access_token_ (job w) = []).
Proof.
  intros Hrun Ht. pose proof (reachable_Inv _ _ _ _ _ Hrun) as HI.
  pose proof (reachable_Budget _ _ _ _ _ Hrun)
    as (_ & _ & _ & _ & _ & _ & B7 & B8).
  destruct (terminal_quiescent w HI Ht) as (? & ? & ?).
  destruct HI as (_ & _ & _ & _ & _ & _ & Hout). unfold outstanding in Hout.
  rewrite count_delegate_calls.
  destruct (state_ (job w)) eqn:Es; try done.
  - destruct Hout as (_ & ? & _). repeat split; try done.
    intros _. by apply B7.
  - destruct Hout as (_ & ? & Hs & _). repeat split; try done.
    intros Hd. apply B8. lia.
Qed.

(** X18. No callback or posted task of a job ever meets a failing [DCHECK]; a
    call of [AddDataSegment] or [Start] meets one exactly when the job is
    not [IDLE]. *)
Theorem debug_assertions_hold (upload_url : GURL) (account_id : str)
    (generator : nat -> str) (events : list Event) (w : World) (e : Event)
    (w' : World) :
  run events (new_world upload_url account_id generator) = Some w ->
  step e w = Some w' ->
  (is_owner_call e = false -> dchecks e w = true)
  /\ (is_owner_call e = true ->
      dchecks e w = bool_decide (state_ (job w) = IDLE)).
Proof.
  intros Hrun. apply reachable_Inv in Hrun. revert Hrun.
  world_fields w.
  unfold Inv, outstanding, quiescent, unassembled, assembled.
  cbn [job trace tasks boundary_generator_ boundaries_generated state_ retry_
       access_token_request_ access_token_ upload_fetcher_ mime_boundary_
       post_data_ data_segments_ g_retry_delay_ms].
  intros (Hr & Hup & Hnt & Hsegs & Hmb0 & Hmb1 & Hout) Hstep.
  destruct e; cbn in Hstep; (split; [try done|try done]); intros _.
  - unfold dchecks, Start_dchecks, RequestAccessToken_dchecks. cbn.
    case_bool_decide as Hs; [|done]. subst st.
    destruct Hout as ((-> & _) & -> & _). done.
  - destruct req as [r|]; [|done].
    destruct st; try wrong_state Hout.
    unfold dchecks, OnGetTokenSuccess_dchecks, StartUpload_dchecks,
      SetUpMultipart_dchecks, SetUpMultipart,
      CreateAndStartURLFetcher_dchecks. cbn.
    destruct mb as [b|], pd as [body|]; cbn;
      try (destruct (names_unique ∅ segs) eqn:Hu); done.
  - destruct req as [r|]; [|done].
    destruct st; try wrong_state Hout. done.
  - destruct fet as [f|]; [|done].
    destruct st; try wrong_state Hout. done.
  - destruct st; cbn in Hout.
    1,3,5,6: by (destruct Hout as ((_ & _ & ->) & _) || destruct Hout).
    + destruct Hout
        as (-> & [(_ & ->)|[(-> & d & ->)|(-> & (Hm & Hp) & d & ->)]]);
        [done| |]; (destruct i as [|i]; [|done]).
      * done.
      * destruct mb as [b|]; [|done]. destruct pd as [body|]; [|done].
        done.
    + destruct Hout as (-> & (Hm & Hp) & [(_ & ->)|(-> & d & ->)]);
        [done|]; (destruct i as [|i]; [|done]). done.
Qed.

(** ** Whole runs *)

(** X19. Up to three network or server errors followed by [HTTP_OK]: the job
    ends in [SUCCESS] having asked for one token, generated one boundary
    and, for each error, posted [StartUpload] with the default delay and
    started the same fetcher again; [OnSuccess] is its last call. *)
Theorem retried_until_success (upload_url : GURL) (account_id : str)
    (generator : nat -> str) (added : list DataSegment)
    (access_token : str) (answers : list (bool * Z)) :
  is_valid upload_url = true ->
  NoDup (map GetName added) ->
  Forall retried_unchanged answers ->
  (length answers < 4)%nat ->
  let fetcher :=
    fetcher_for upload_url (generator 0%nat)
      (spec_body (generator 0%nat) added) access_token in
  exists w,
    run (map add_segment added ++ [CallStart; TokenSuccess access_token]
         ++ flat_map failed_attempt answers ++ [FetchComplete true HTTP_OK])
        (new_world upload_url account_id generator) = Some w
    /\ state_ (job w) = SUCCESS
    /\ retry_ (job w) = Z.of_nat (length answers)
    /\ trace w
       = [TokenService_StartRequest account_id
            [kDeviceManagementServiceOAuth];
          BoundaryGenerator_GenerateBoundary;
          URLFetcher_Start fetcher]
         ++ flat_map (fun _ => retry_calls default_retry_delay_ms fetcher)
                     answers
         ++ [Delegate_OnSuccess].
Proof.
  intros Hvalid Hnd HF Hlen fetcher.
  rewrite app_assoc, run_app, first_upload_run by done.
  rewrite run_app, failed_attempts_run by (done || unfold kMaxAttempts; lia).
  eexists. split; [reflexivity|]. cbn.
  split; [done|]. split; [done|]. by rewrite <- ?app_assoc.
Qed.

(** X20. Three network or server errors followed by a fourth failed upload of
    any kind: the job ends in [ERROR] with body and token dropped, having
    started the same fetcher four times, and [OnFailure] with the kind of
    the fourth failure is its last call. *)
Theorem given_up_after_four_failed_uploads (upload_url : GURL)
    (account_id : str) (generator : nat -> str) (added : list DataSegment)
    (access_token : str) (answers : list (bool * Z)) (last_answer : bool * Z)
    (error_code : ErrorCode) :
  is_valid upload_url = true ->
  NoDup (map GetName added) ->
  Forall retried_unchanged answers ->
  length answers = 3%nat ->
  failure_kind (FetchComplete last_answer.1 last_answer.2)
  = Some error_code ->
  let fetcher :=
    fetcher_for upload_url (generator 0%nat)
      (spec_body (generator 0%nat) added) access_token in
  exists w,
    run (map add_segment added ++ [CallStart; TokenSuccess access_token]
         ++ flat_map failed_attempt answers
         ++ [FetchComplete last_answer.1 last_answer.2])
        (new_world upload_url account_id generator) = Some w
    /\ state_ (job w) = ERROR
    /\ retry_ (job w) = kMaxAttempts
    /\ post_data_ (job w) = None
    /\ access_token_ (job w) = []
    /\ trace w
       = [TokenService_StartRequest account_id
            [kDeviceManagementServiceOAuth];
          BoundaryGenerator_GenerateBoundary;
          URLFetcher_Start fetcher]
         ++ flat_map (fun _ => retry_calls default_retry_delay_ms fetcher)
                     answers
         ++ [Delegate_OnFailure error_code].
Proof.
  intros Hvalid Hnd HF Hlen Hk fetcher.
  rewrite app_assoc, run_app, first_upload_run by done.
  rewrite run_app, failed_attempts_run
    by (done || unfold kMaxAttempts; lia).
  rewrite Hlen. destruct last_answer as [ok code].
  unfold failure_kind in Hk. cbn [fst snd] in *.
  unfold uploading_world. cbn [run step job upload_fetcher_].
  unfold OnURLFetchComplete, HandleError.
  destruct ok; cbn [negb] in *.
  - destruct (code =? HTTP_OK) eqn:E200; [done|].
    destruct (code =? HTTP_UNAUTHORIZED) eqn:E401;
      injection Hk as <-; eexists; (split; [reflexivity|]); cbn;
      by rewrite <- ?app_assoc.
  - injection Hk as <-. eexists. split; [reflexivity|]. cbn.
    by rewrite <- ?app_assoc.
Qed.

(** ** Termination *)

(** X21. Every answer a job receives, a token or its refusal, the completion of
    a fetcher or the running of a posted task, answers a call the job made,
    and what the job still waits for are the calls not yet answered; no
    run contains more than eleven answers, so that no job retries for
    ever. *)
Theorem at_most_eleven_answers (upload_url : GURL) (account_id : str)
    (generator : nat -> str) (events : list Event) (w : World) :
  run events (new_world upload_url account_id generator) = Some w ->
  (length (callbacks events) + outstanding_count w = created (trace w))%nat
  /\ (length (callbacks events) <= 11)%nat.
Proof.
  intros Hrun. pose proof (reachable_Inv _ _ _ _ _ Hrun) as HI.
  pose proof (reachable_Budget _ _ _ _ _ Hrun)
    as (B1 & _ & B3 & B4 & _).
  pose proof (run_created _ _ _ (Inv_new_world _ _ _) Hrun) as H.
  assert (H0 : (outstanding_count
                  (new_world upload_url account_id generator) = 0)%nat).
  { unfold new_world, UploadJobImpl_ctor, outstanding_count. cbn.
    by destruct (is_valid upload_url). }
  assert (H1 : trace (new_world upload_url account_id generator) = [])
    by done.
  rewrite H0, H1 in H. cbn in H.
  destruct HI as (_ & Hup & _). unfold created in *. lia.
Qed.

(** * The further properties at work *)

(** X1 at work: the sample job with two segments, before its token. *)
Lemma assembled_body_size_witness :
  let w := Sample.after (map add_segment [Sample.seg_a; Sample.seg_b]
                         ++ [CallStart]) in
  (mime_boundary_ (job w) = None \/ post_data_ (job w) = None)
  /\ NoDup (map GetName (data_segments_ (job w)))
  /\ string_size
       (assembled_post_data (boundary_generator_ w (boundaries_generated w))
          (data_segments_ (job w)))
     = sum_over (part_size (boundary_generator_ w (boundaries_generated w)))
         (data_segments_ (job w))
       + string_size (boundary_generator_ w (boundaries_generated w)) + 6.
Proof.
  cbv zeta.
  match goal with
  | |- ?C /\ ?N /\ _ =>
      assert (Hc : C) by (left; vm_compute; reflexivity);
      assert (Hn : N) by (apply names_unique_NoDup; vm_compute; reflexivity)
  end.
  split; [exact Hc|]. split; [exact Hn|].
  exact (proj2 (assembled_body_size _ Hc Hn)).
Defined.

(** X2 at work: two sample segments under the boundary [B]. *)
Lemma reallocation_warning_iff_witness :
  let segs := [Sample.seg_a; Sample.seg_b] in
  sum_over estimated_part_size segs < 2 ^ 64
  /\ estimate_size segs = sum_over estimated_part_size segs.
Proof.
  cbv zeta.
  match goal with
  | |- ?S /\ _ => assert (Hs : S) by (vm_compute; reflexivity)
  end.
  split; [exact Hs|].
  exact (proj1 (reallocation_warning_iff (lit "B") _ Hs)).
Defined.

(** X4 at work: the same two segments. *)
Lemma estimate_suffices_witness :
  let b := Sample.gen 0 in
  let segs := [Sample.seg_a; Sample.seg_b] in
  string_size b <= kMaxMimeBoundarySize
  /\ (2 <= length segs)%nat
  /\ Forall (fun seg =>
               (length (StdMap.iterate (GetHeaderEntries seg)) <= 7)%nat)
            segs
  /\ sum_over estimated_part_size segs < 2 ^ 64
  /\ reallocation_warning b segs = false.
Proof.
  cbv zeta.
  assert (H1 : string_size (Sample.gen 0) <= kMaxMimeBoundarySize)
    by (apply Z.leb_le; vm_compute; reflexivity).
  assert (H2 : (2 <= length [Sample.seg_a; Sample.seg_b])%nat)
    by (vm_compute; lia).
  assert (H3 : Forall (fun seg =>
                         (length (StdMap.iterate (GetHeaderEntries seg))
                          <= 7)%nat)
                 [Sample.seg_a; Sample.seg_b])
    by (repeat (constructor; [vm_compute; lia|]); constructor).
  assert (H4 : sum_over estimated_part_size [Sample.seg_a; Sample.seg_b]
               < 2 ^ 64)
    by (vm_compute; reflexivity).
  exact (conj H1 (conj H2 (conj H3 (conj H4
           (estimate_suffices _ _ H1 H2 H3 H4))))).
Defined.

(** X5 at work: a segment and [Start] on a job with an invalid URL. *)
Lemma invalid_url_job_is_inert_witness :
  let events := [add_segment Sample.seg_a; CallStart] in
  let w := new_world Fixture.bad_url Sample.account Sample.gen in
  is_valid Fixture.bad_url = false
  /\ run events w = Some w
  /\ state_ (job w) = ERROR
  /\ data_segments_ (job w) = []
  /\ trace w = [].
Proof.
  cbv zeta.
  match goal with
  | |- ?V /\ ?R /\ _ =>
      assert (Hv : V) by reflexivity;
      assert (Hr : R) by (vm_compute; reflexivity)
  end.
  split; [exact Hv|]. split; [exact Hr|].
  exact (proj2 (invalid_url_job_is_inert _ _ _ _ _ Hv Hr)).
Defined.

(** X6 at work: the fresh sample job. *)
Lemma Start_once_witness :
  state_ (job Sample.w0) = IDLE
  /\ state_ (job (Start Sample.w0)) = ACQUIRING_TOKEN
  /\ Start (Start Sample.w0) = Start Sample.w0.
Proof.
  assert (Hs : state_ (job Sample.w0) = IDLE) by (vm_compute; reflexivity).
  split; [exact Hs|].
  destruct (Start_once Sample.w0) as (H1 & H2).
  split; [exact (proj1 (H2 Hs))|exact H1].
Defined.

(** X7 at work: two segments added to the fresh sample job. *)
Lemma segments_kept_in_order_witness :
  state_ (job Sample.w0) = IDLE
  /\ exists w',
       run (map add_segment [Sample.seg_a; Sample.seg_b]) Sample.w0
       = Some w'
       /\ data_segments_ (job w')
          = data_segments_ (job Sample.w0) ++ [Sample.seg_a; Sample.seg_b].
Proof.
  assert (Hs : state_ (job Sample.w0) = IDLE) by (vm_compute; reflexivity).
  split; [exact Hs|].
  destruct (segments_kept_in_order [Sample.seg_a; Sample.seg_b] _ Hs)
    as (w' & H1 & H2 & _).
  exists w'. split; [exact H1|exact H2].
Defined.

(** X8 at work: a delay of 10 ms set on the fresh sample job. *)
Lemma SetRetryDelayForTesting_sets_the_delay_witness :
  0 <= 10
  /\ exists w',
       SetRetryDelayForTesting 10 Sample.w0 = Some w'
       /\ g_retry_delay_ms w' = 10.
Proof.
  assert (Hd : 0 <= 10) by lia.
  split; [exact Hd|].
  destruct (proj2 (SetRetryDelayForTesting_sets_the_delay 10 Sample.w0) Hd)
    as (w' & H1 & _ & _ & _ & H2 & _).
  exists w'. split; [exact H1|exact H2].
Defined.

(** X9 at work: assembly for the sample job with two segments. *)
Lemma SetUpMultipart_outcome_witness :
  let w := Sample.after (map add_segment [Sample.seg_a; Sample.seg_b]
                         ++ [CallStart]) in
  NoDup (map GetName (data_segments_ (job w)))
  /\ (SetUpMultipart w).1 = true
  /\ state_ (job (SetUpMultipart w).2) = PREPARING_CONTENT.
Proof.
  cbv zeta.
  match goal with
  | |- ?N /\ _ =>
      assert (Hn : N) by (apply names_unique_NoDup; vm_compute; reflexivity)
  end.
  split; [exact Hn|].
  match goal with
  | |- (SetUpMultipart ?w).1 = true /\ _ =>
      destruct (SetUpMultipart_outcome w) as (H1 & H2 & _)
  end.
  split; [exact (proj2 H2 (or_intror Hn))|exact H1].
Defined.

(** X10 at work: the first request of the sample job. *)
Lemma first_upload_request_witness :
  is_valid Sample.url = true
  /\ NoDup (map GetName [Sample.seg_a; Sample.seg_b])
  /\ exists w,
       run (map add_segment [Sample.seg_a; Sample.seg_b]
            ++ [CallStart; TokenSuccess Sample.token])
           (new_world Sample.url Sample.account Sample.gen) = Some w
       /\ state_ (job w) = UPLOADING
       /\ data_segments_ (job w) = [].
Proof.
  assert (Hv : is_valid Sample.url = true) by reflexivity.
  assert (Hn : NoDup (map GetName [Sample.seg_a; Sample.seg_b]))
    by (apply names_unique_NoDup; vm_compute; reflexivity).
  split; [exact Hv|]. split; [exact Hn|].
  destruct (first_upload_request Sample.url Sample.account Sample.gen
              [Sample.seg_a; Sample.seg_b] Sample.token Hv Hn)
    as (w & H1 & H2 & _ & _ & H3 & _).
  exists w. split; [exact H1|]. split; [exact H2|exact H3].
Defined.

(** X11 at work: the sample job after a server error and its retry. *)
Lemma every_attempt_sends_the_same_request_witness :
  let events := [CallStart; TokenSuccess Sample.token;
                 FetchComplete true 500; RunDelayedTask 0] in
  let w := Sample.after events in
  run events (new_world Sample.url Sample.account Sample.gen) = Some w
  /\ forall f, upload_fetcher_ (job w) = Some f ->
       last (trace w) = Some (URLFetcher_Start f)
       /\ post_data_ (job w) = Some (upload_content f)
       /\ extra_request_headers f
          = [lit "Authorization: Bearer "
             ++ c_str (access_token_ (job w))].
Proof.
  cbv zeta.
  match goal with
  | |- ?R /\ _ => assert (H : R) by (vm_compute; reflexivity)
  end.
  split; [exact H|].
  exact (proj2 (every_attempt_sends_the_same_request _ _ _ _ _ H)).
Defined.

(** X12 at work: one failed upload in the run of the sample job. *)
Lemma retry_counts_the_failures_witness :
  let events := [CallStart; TokenSuccess Sample.token;
                 FetchComplete true 500] in
  let w := Sample.after events in
  run events (new_world Sample.url Sample.account Sample.gen) = Some w
  /\ retry_ (job w)
     = Z.of_nat (length (filter (fun e => is_Some (failure_kind e)) events)).
Proof.
  cbv zeta.
  match goal with
  | |- ?R /\ _ => assert (H : R) by (vm_compute; reflexivity)
  end.
  split; [exact H|].
  exact (proj1 (retry_counts_the_failures _ _ _ _ _ H)).
Defined.

(** X13 at work: the fourth token failure of the sample job. *)
Lemma failure_reported_on_fourth_failure_witness :
  let w := Sample.after Fixture.no_token_thrice in
  let w' := OnGetTokenFailure w in
  run Fixture.no_token_thrice
      (new_world Sample.url Sample.account Sample.gen) = Some w
  /\ step TokenFailure w = Some w'
  /\ match failure_kind TokenFailure with
     | Some error_code =>
         if retry_ (job w) =? kMaxAttempts - 1
         then trace w' = trace w ++ [Delegate_OnFailure error_code]
              /\ state_ (job w') = ERROR
         else count is_delegate_call (trace w') = 0%nat
              /\ terminal (state_ (job w')) = false
              /\ exists task,
                   tasks w' = [(task, g_retry_delay_ms w)]
                   /\ (task = TaskRequestAccessToken
                       <-> error_code = AUTHENTICATION_ERROR)
     | None =>
         count is_OnFailure (trace w') = count is_OnFailure (trace w)
     end.
Proof.
  cbv zeta.
  match goal with
  | |- ?R /\ ?S /\ _ =>
      assert (H1 : R) by (vm_compute; reflexivity);
      assert (H2 : S) by (vm_compute; reflexivity)
  end.
  split; [exact H1|]. split; [exact H2|].
  exact (failure_reported_on_fourth_failure _ _ _ _ _ _ _ H1 H2).
Defined.

(** X14 at work: the first upload of the sample job refused; its token
    holds no NUL. *)
Lemma token_invalidated_on_authentication_error_witness :
  let events := [CallStart; TokenSuccess Sample.token] in
  let w := Sample.after events in
  let e := FetchComplete true 401 in
  let w' := OnURLFetchComplete true 401 w in
  run events (new_world Sample.url Sample.account Sample.gen) = Some w
  /\ step e w = Some w'
  /\ failure_kind e = Some AUTHENTICATION_ERROR
  /\ retry_ (job w) + 1 < kMaxAttempts
  /\ (NUL ∉ access_token_ (job w))
  /\ trace w'
     = trace w
       ++ [TokenService_InvalidateAccessToken Sample.account
             [kDeviceManagementServiceOAuth] (access_token_ (job w));
           TaskRunner_PostDelayedTask TaskRequestAccessToken
             (g_retry_delay_ms w)]
  /\ (forall f, upload_fetcher_ (job w) = Some f ->
        extra_request_headers f
        = [lit "Authorization: Bearer " ++ access_token_ (job w)]).
Proof.
  cbv zeta.
  match goal with
  | |- ?R /\ ?S /\ ?K /\ ?L /\ ?N /\ _ =>
      assert (H1 : R) by (vm_compute; reflexivity);
      assert (H2 : S) by (vm_compute; reflexivity);
      assert (H3 : K) by (vm_compute; reflexivity);
      assert (H4 : L) by (vm_compute; reflexivity);
      assert (H5 : N)
        by (match goal with
            | |- ?c ∉ ?l =>
                apply (bool_decide_eq_false_1 (c ∈ l)); vm_compute;
                reflexivity
            end)
  end.
  split; [exact H1|]. split; [exact H2|]. split; [exact H3|].
  split; [exact H4|]. split; [exact H5|].
  destruct (token_invalidated_on_authentication_error _ _ _ _ _ _ _
              H1 H2 H3 H4) as (T1 & _ & _ & _ & T5).
  split; [exact T1|].
  intros f Hf. destruct (T5 f Hf) as (_ & T6 & _). exact (T6 H5).
Defined.

(** X15 at work: three refused uploads and a fourth accepted use up the
    sixteen calls. *)
Lemma call_budget_witness :
  let w := Sample.after Fixture.refused_thrice in
  run Fixture.refused_thrice
      (new_world Sample.url Sample.account Sample.gen) = Some w
  /\ length (trace w) = 16%nat
  /\ (length (trace w) <= 16)%nat.
Proof.
  cbv zeta.
  match goal with
  | |- ?R /\ ?L /\ _ =>
      assert (H : R) by (vm_compute; reflexivity);
      assert (HL : L) by (vm_compute; reflexivity)
  end.
  split; [exact H|]. split; [exact HL|].
  destruct (call_budget _ _ _ _ _ H) as (_ & _ & _ & _ & _ & _ & H7).
  exact H7.
Defined.

(** X16 at work: the sample job waiting for its token. *)
Lemma waits_for_one_callback_witness :
  let events := [CallStart] in
  let w := Sample.after events in
  run events (new_world Sample.url Sample.account Sample.gen) = Some w
  /\ state_ (job w) <> PREPARING_CONTENT
  /\ outstanding_count w
     = (if bool_decide (state_ (job w) = IDLE) || terminal (state_ (job w))
        then 0 else 1)%nat.
Proof.
  cbv zeta.
  match goal with
  | |- ?R /\ _ => assert (H : R) by (vm_compute; reflexivity)
  end.
  split; [exact H|].
  exact (waits_for_one_callback _ _ _ _ _ H).
Defined.

(** X17 at work: the sample job after a successful upload. *)
Lemma terminal_state_releases_witness :
  let events := [CallStart; TokenSuccess Sample.token;
                 FetchComplete true 200] in
  let w := Sample.after events in
  run events (new_world Sample.url Sample.account Sample.gen) = Some w
  /\ terminal (state_ (job w)) = true
  /\ access_token_request_ (job w) = None
  /\ upload_fetcher_ (job w) = None
  /\ tasks w = []
  /\ post_data_ (job w) = None.
Proof.
  cbv zeta.
  match goal with
  | |- ?R /\ ?T /\ _ =>
      assert (H : R) by (vm_compute; reflexivity);
      assert (Ht : T) by (vm_compute; reflexivity)
  end.
  split; [exact H|]. split; [exact Ht|].
  destruct (terminal_state_releases _ _ _ _ _ H Ht)
    as (H1 & H2 & H3 & H4 & _).
  exact (conj H1 (conj H2 (conj H3 H4))).
Defined.

(** X18 at work: the token arriving at the sample job. *)
Lemma debug_assertions_hold_witness :
  let events := [CallStart] in
  let w := Sample.after events in
  let e := TokenSuccess Sample.token in
  let w' := OnGetTokenSuccess Sample.token w in
  run events (new_world Sample.url Sample.account Sample.gen) = Some w
  /\ step e w = Some w'
  /\ is_owner_call e = false
  /\ dchecks e w = true.
Proof.
  cbv zeta.
  match goal with
  | |- ?R /\ ?S /\ ?O /\ _ =>
      assert (H1 : R) by (vm_compute; reflexivity);
      assert (H2 : S) by (vm_compute; reflexivity);
      assert (H3 : O) by reflexivity
  end.
  split; [exact H1|]. split; [exact H2|]. split; [exact H3|].
  exact (proj1 (debug_assertions_hold _ _ _ _ _ _ _ H1 H2) H3).
Defined.

(** X19 at work: a network error and a server error, then [HTTP_OK]. *)
Lemma retried_until_success_witness :
  is_valid Sample.url = true
  /\ NoDup (map GetName [Sample.seg_a; Sample.seg_b])
  /\ Forall retried_unchanged Fixture.two_answers
  /\ (length Fixture.two_answers < 4)%nat
  /\ exists w,
       run (map add_segment [Sample.seg_a; Sample.seg_b]
            ++ [CallStart; TokenSuccess Sample.token]
            ++ flat_map failed_attempt Fixture.two_answers
            ++ [FetchComplete true HTTP_OK])
           (new_world Sample.url Sample.account Sample.gen) = Some w
       /\ state_ (job w) = SUCCESS
       /\ retry_ (job w) = Z.of_nat (length Fixture.two_answers).
Proof.
  assert (Hv : is_valid Sample.url = true) by reflexivity.
  assert (Hn : NoDup (map GetName [Sample.seg_a; Sample.seg_b]))
    by (apply names_unique_NoDup; vm_compute; reflexivity).
  assert (Ha : Forall retried_unchanged Fixture.two_answers).
  { constructor; [left; reflexivity|].
    constructor; [right; reflexivity|]. constructor. }
  assert (Hl : (length Fixture.two_answers < 4)%nat) by (vm_compute; lia).
  split; [exact Hv|]. split; [exact Hn|]. split; [exact Ha|].
  split; [exact Hl|].
  destruct (retried_until_success Sample.url Sample.account Sample.gen
              [Sample.seg_a; Sample.seg_b] Sample.token Fixture.two_answers
              Hv Hn Ha Hl)
    as (w & H1 & H2 & H3 & _).
  exists w. split; [exact H1|]. split; [exact H2|exact H3].
Defined.

(** X20 at work: three errors retried and a fourth upload refused. *)
Lemma given_up_after_four_failed_uploads_witness :
  let last_answer := (true, 401) in
  is_valid Sample.url = true
  /\ NoDup (map GetName [Sample.seg_a; Sample.seg_b])
  /\ Forall retried_unchanged Fixture.three_answers
  /\ length Fixture.three_answers = 3%nat
  /\ failure_kind (FetchComplete last_answer.1 last_answer.2)
     = Some AUTHENTICATION_ERROR
  /\ exists w,
       run (map add_segment [Sample.seg_a; Sample.seg_b]
            ++ [CallStart; TokenSuccess Sample.token]
            ++ flat_map failed_attempt Fixture.three_answers
            ++ [FetchComplete last_answer.1 last_answer.2])
           (new_world Sample.url Sample.account Sample.gen) = Some w
       /\ state_ (job w) = ERROR
       /\ retry_ (job w) = kMaxAttempts.
Proof.
  cbv zeta.
  assert (Hv : is_valid Sample.url = true) by reflexivity.
  assert (Hn : NoDup (map GetName [Sample.seg_a; Sample.seg_b]))
    by (apply names_unique_NoDup; vm_compute; reflexivity).
  assert (Ha : Forall retried_unchanged Fixture.three_answers).
  { constructor; [left; reflexivity|].
    constructor; [right; reflexivity|].
    constructor; [right; reflexivity|]. constructor. }
  assert (Hl : length Fixture.three_answers = 3%nat) by reflexivity.
  assert (Hk : failure_kind (FetchComplete (true, 401).1 (true, 401).2)
               = Some AUTHENTICATION_ERROR) by reflexivity.
  split; [exact Hv|]. split; [exact Hn|]. split; [exact Ha|].
  split; [exact Hl|]. split; [exact Hk|].
  destruct (given_up_after_four_failed_uploads Sample.url Sample.account
              Sample.gen [Sample.seg_a; Sample.seg_b] Sample.token
              Fixture.three_answers (true, 401) AUTHENTICATION_ERROR
              Hv Hn Ha Hl Hk)
    as (w & H1 & H2 & H3 & _).
  exists w. split; [exact H1|]. split; [exact H2|exact H3].
Defined.

(** X21 at work: the eleven answers of three refused uploads and a fourth
    accepted. *)
Lemma at_most_eleven_answers_witness :
  let w := Sample.after Fixture.refused_thrice in
  run Fixture.refused_thrice
      (new_world Sample.url Sample.account Sample.gen) = Some w
  /\ length (callbacks Fixture.refused_thrice) = 11%nat
  /\ (length (callbacks Fixture.refused_thrice) + outstanding_count w
      = created (trace w))%nat.
Proof.
  cbv zeta.
  match goal with
  | |- ?R /\ ?L /\ _ =>
      assert (H : R) by (vm_compute; reflexivity);
      assert (HL : L) by (vm_compute; reflexivity)
  end.
  split; [exact H|]. split; [exact HL|].
  exact (proj1 (at_most_eleven_answers _ _ _ _ _ H)).
Defined.
